(** * cpputil: a verification development for the [Utils] namespace

    The development follows the two source files of the library:
    [utils.h] (the templates [MapGetOrDefault], [Clamp], [_convert],
    [_strfmt], [StrFmt], [PrintFmt], [PrintLnFmt], [VecContains],
    [VecIndexOf]) and the implementation file (the buffer
    writers [BufAppendInt16], [BufAppendInt32], [BufAppendFloat16],
    [BufAppendFloat32], the rate scheduler [ScheduleRate] and the angle
    helpers [NormalizeAnglePositive], [NormalizeAngle],
    [ShortestAngularDistance]).

    Machine integers are integers of [Z] with their ranges written out.
    A [uint8_t*] buffer is the list of its bytes; a store outside the list
    has no defined behaviour and is modelled by [None].  IEEE 754 numbers
    are the [spec_float] values of the Standard Library with its own
    arithmetic ([SFadd], [SFsub], [SFmul], [SFdiv], [SFcompare]) at the
    binary64 and binary32 formats, so every function below computes. *)

From Stdlib Require Import ZArith Lia Bool List Ascii String.
From Stdlib Require Import Floats.SpecFloat.
From stdpp Require Import base option list gmap.

Local Open Scope Z_scope.

(** ** Fixed-width integers *)

Module Int.

Definition int16_min : Z := -32768.
Definition int16_max : Z := 32767.
Definition int32_min : Z := -2147483648.
Definition int32_max : Z := 2147483647.

Definition in_int16 (n : Z) : Prop := int16_min <= n <= int16_max.
Definition in_int32 (n : Z) : Prop := int32_min <= n <= int32_max.

(** Conversion of an integer to [uint8_t]: the value modulo 2^8. *)
Definition to_uint8 (z : Z) : Z := Z.land z 255.

(** The signed reading of a 16-bit and of a 32-bit pattern. *)
Definition to_int16 (z : Z) : Z := (z + 32768) mod 65536 - 32768.
Definition to_int32 (z : Z) : Z := (z + 2147483648) mod 4294967296 - 2147483648.

End Int.

(** ** The byte buffer and its cursor *)

Module Buf.
Import Int.

(** [buffer[i] = v] through a raw [uint8_t*]: the value is narrowed to a
    byte; the store is defined only inside the array. *)
Definition store (buffer : list Z) (i v : Z) : option (list Z) :=
  if bool_decide (0 <= i < Z.of_nat (length buffer))
  then Some (<[Z.to_nat i := to_uint8 v]> buffer)
  else None.

(** [buffer[index++] = v] on the dereferenced cursor: the store happens
    at the old value of the cursor, which is then incremented; the
    increment of an [int32_t] that holds [INT32_MAX] has no defined
    behaviour. *)
Definition put (v : Z) (st : list Z * Z) : option (list Z * Z) :=
  let '(buffer, index) := st in
  buffer' ← store buffer index v;
  if bool_decide (index < int32_max) then Some (buffer', index + 1) else None.

Definition BufAppendInt16 (buffer : list Z) (number : Z) (index : Z)
  : option (list Z * Z) :=
  st ← put (Z.shiftr number 8) (buffer, index);
  put number st.

Definition BufAppendInt32 (buffer : list Z) (number : Z) (index : Z)
  : option (list Z * Z) :=
  st ← put (Z.shiftr number 24) (buffer, index);
  st ← put (Z.shiftr number 16) st;
  st ← put (Z.shiftr number 8) st;
  put number st.

(** Big-endian decoding, the reader's side of the wire format: this is the
    read-back the specification speaks of, it is not in the library. *)
Definition decode_be16 (b0 b1 : Z) : Z :=
  to_int16 (Z.lor (Z.shiftl b0 8) b1).

Definition decode_be32 (b0 b1 b2 b3 : Z) : Z :=
  to_int32 (Z.lor (Z.shiftl b0 24)
             (Z.lor (Z.shiftl b1 16) (Z.lor (Z.shiftl b2 8) b3))).

(** Reading a field back at a position of the buffer. *)
Definition read_be16 (buffer : list Z) (i : Z) : option Z :=
  b0 ← buffer !! Z.to_nat i; b1 ← buffer !! Z.to_nat (i + 1);
  Some (decode_be16 b0 b1).

Definition read_be32 (buffer : list Z) (i : Z) : option Z :=
  b0 ← buffer !! Z.to_nat i; b1 ← buffer !! Z.to_nat (i + 1);
  b2 ← buffer !! Z.to_nat (i + 2); b3 ← buffer !! Z.to_nat (i + 3);
  Some (decode_be32 b0 b1 b2 b3).

(** The byte of weight [256^k] in the two's complement pattern of width
    [w] bits of [n]. *)
Definition byte_of (w : Z) (n : Z) (k : Z) : Z :=
  ((n mod 2 ^ w) / 2 ^ (8 * k)) mod 256.

End Buf.

(** ** IEEE 754 numbers *)

(** What does not depend on the format. *)
Module Float.

(** The real numbers among the floating-point values: neither infinite
    nor NaN. *)
Definition is_finite (x : spec_float) : bool :=
  match x with
  | S754_zero _ | S754_finite _ _ _ => true
  | _ => false
  end.

(** Conversion of a floating-point number to an integer type: the
    fractional part is discarded; there is no defined result for an
    infinity or a NaN. *)
Definition trunc (x : spec_float) : option Z :=
  match x with
  | S754_zero _ => Some 0
  | S754_finite s m e => Some (cond_Zopp s (Z.shiftl (Z.pos m) e))
  | _ => None
  end.

End Float.

(** [double]: binary64, 53 bits of precision. *)
Module F64.

Definition prec : Z := 53.
Definition emax : Z := 1024.

Definition add : spec_float -> spec_float -> spec_float := SFadd prec emax.
Definition sub : spec_float -> spec_float -> spec_float := SFsub prec emax.
Definition mul : spec_float -> spec_float -> spec_float := SFmul prec emax.
Definition div : spec_float -> spec_float -> spec_float := SFdiv prec emax.
Definition neg : spec_float -> spec_float := SFopp.
Definition ltb : spec_float -> spec_float -> bool := SFltb.
Definition leb : spec_float -> spec_float -> bool := SFleb.
Definition eqb : spec_float -> spec_float -> bool := SFeqb.

(** Conversion of an integer to [double], rounding to nearest even. *)
Definition of_Z (z : Z) : spec_float := binary_normalize prec emax z 0 false.

(** The numbers the format can hold. *)
Definition valid (x : spec_float) : bool := valid_binary prec emax x.

(** The value of a finite number in units of [2^emin], the least positive
    number of the format: an integer for every number of the format. *)
Definition scaled (x : spec_float) : Z :=
  match x with
  | S754_finite s m e => cond_Zopp s (Z.shiftl (Z.pos m) (e - emin prec emax))
  | _ => 0
  end.

(** [fmod(x, y)] of the C library: the exact remainder [x - n*y] of the
    division whose quotient [n] is truncated, with the sign of [x];
    NaN when [x] is infinite or [y] is zero, [x] itself when [y] is
    infinite.  The remainder is a number of the format, so that the
    rounding in [binary_normalize] changes nothing. *)
Definition fmod (x y : spec_float) : spec_float :=
  match x, y with
  | S754_nan, _ | _, S754_nan => S754_nan
  | S754_infinity _, _ => S754_nan
  | _, S754_zero _ => S754_nan
  | _, S754_infinity _ => x
  | S754_zero _, _ => x
  | S754_finite sx _ _, S754_finite _ _ _ =>
      binary_normalize prec emax (Z.rem (scaled x) (scaled y))
        (emin prec emax) sx
  end.

(** [(int)x]: defined when the truncated value is an [int]. *)
Definition to_int (x : spec_float) : option Z :=
  z ← Float.trunc x;
  if bool_decide (Int.int32_min <= z <= Int.int32_max) then Some z else None.

End F64.

(** [float]: binary32, 24 bits of precision. *)
Module F32.

Definition prec : Z := 24.
Definition emax : Z := 128.

Definition mul : spec_float -> spec_float -> spec_float := SFmul prec emax.
Definition of_Z (z : Z) : spec_float := binary_normalize prec emax z 0 false.
Definition valid (x : spec_float) : bool := valid_binary prec emax x.

(** The value of a finite number in units of [2^emin], that is 2^-149. *)
Definition scaled (x : spec_float) : Z :=
  match x with
  | S754_finite s m e => cond_Zopp s (Z.shiftl (Z.pos m) (e - emin prec emax))
  | _ => 0
  end.

(** [(int16_t)x] and [(int32_t)x]: truncation, defined when the truncated
    value is in the range of the target type. *)
Definition to_int16 (x : spec_float) : option Z :=
  z ← Float.trunc x;
  if bool_decide (Int.int16_min <= z <= Int.int16_max) then Some z else None.

Definition to_int32 (x : spec_float) : option Z :=
  z ← Float.trunc x;
  if bool_decide (Int.int32_min <= z <= Int.int32_max) then Some z else None.

End F32.

(** ** Rounded values

    The vocabulary in which the results of the arithmetic are stated: the
    value of a number on a scale of integers, and what it is for a number
    to be the rounding of an exact value. *)

Module Round.

(** After [k] steps on a mantissa [m]: the quotient by [2^k], and no
    rounding bit is set when the division is exact. *)
Definition shifted (m k : Z) (mrs : shr_record) : Prop :=
  shr_m mrs = m / 2 ^ k /\
  (m mod 2 ^ k = 0 -> shr_r mrs = false /\ shr_s mrs = false).

Section Format.
Variables prec emax : Z.

(** The value of a finite number in units of [2^e0], for an [e0] that is
    not above its exponent. *)
Definition value_at (e0 : Z) (x : spec_float) : Z :=
  match x with
  | S754_finite s m e => cond_Zopp s (Z.pos m * 2 ^ (e - e0))
  | _ => 0
  end.

(** [r] is zero or finite with the sign [sx], a number of the format when
    [canon] holds, and its value in units of [2^e0] is [q * g] for [q]
    the quotient of [V] by [g] or the next integer, the quotient itself
    when [g] divides [V]. *)
Definition rounded (e0 : Z) (sx : bool) (V g : Z) (canon : Prop)
  (r : spec_float) : Prop :=
  (exists q : Z,
     V / g <= q <= V / g + 1 /\
     (V mod g = 0 -> q = V / g) /\
     value_at e0 r = cond_Zopp sx (q * g)) /\
  (r = S754_zero sx \/
   exists (m3 : positive) (e3 : Z),
     r = S754_finite sx m3 e3 /\ e0 <= e3 /\ e3 <= emax - prec /\
     (canon -> canonical_mantissa prec emax m3 e3 = true)).

(** [r] is the infinity of sign [sx], because the rounding of [V] to the
    grid of [2^e1] needs an exponent [e3] above those of the format. *)
Definition overflows (e0 : Z) (sx : bool) (V e1 : Z) (canon : Prop)
  (r : spec_float) : Prop :=
  r = S754_infinity sx /\
  exists (q : Z) (m3 : positive) (e3 : Z),
    V / 2 ^ (e1 - e0) <= q <= V / 2 ^ (e1 - e0) + 1 /\
    (V mod 2 ^ (e1 - e0) = 0 -> q = V / 2 ^ (e1 - e0)) /\
    e1 <= e3 <= e1 + 1 /\ emax - prec < e3 /\
    Z.pos m3 * 2 ^ (e3 - e0) = q * 2 ^ (e1 - e0) /\
    (canon -> canonical_mantissa prec emax m3 e3 = true).

(** A real number of the format: valid, and neither infinite nor NaN. *)
Definition fin (x : spec_float) : Prop :=
  valid_binary prec emax x = true /\ Float.is_finite x = true.

(** The value in units of [2^emin]. *)
Definition sc (x : spec_float) : Z := value_at (SpecFloat.emin prec emax) x.

(** What [SFadd] and [SFsub] give on two numbers of the format, from the
    exact sum [S] of their values: zero when [S] is zero, otherwise an
    overflow or the rounding of [S] to the grid of its size. *)
Definition sum_rounded (S : Z) (r : spec_float) : Prop :=
  let e0 := SpecFloat.emin prec emax in
  let e1 := SpecFloat.fexp prec emax (Zdigits2 (Z.abs S) + e0) in
  (S = 0 /\ fin r /\ sc r = 0) \/
  (S <> 0 /\
   (overflows e0 (S <? 0) (Z.abs S) e1 True r \/
    rounded e0 (S <? 0) (Z.abs S) (2 ^ (e1 - e0)) True r)).

End Format.

End Round.

(** ** Scaled floating-point fields *)

Module BufFloat.
Import Buf.

(** [n] is the quotient of [w] by the unit [u], rounded toward zero. *)
Definition toward_zero (n w u : Z) : Prop :=
  (0 <= w -> n * u <= w < (n + 1) * u) /\
  (w <= 0 -> (n - 1) * u < w <= n * u).

Definition BufAppendFloat16 (buffer : list Z) (number scale : spec_float)
  (index : Z) : option (list Z * Z) :=
  n ← F32.to_int16 (F32.mul number scale);
  BufAppendInt16 buffer n index.

Definition BufAppendFloat32 (buffer : list Z) (number scale : spec_float)
  (index : Z) : option (list Z * Z) :=
  n ← F32.to_int32 (F32.mul number scale);
  BufAppendInt32 buffer n index.

End BufFloat.

(** ** Angles *)

Module Angle.

(** [M_PI] of <cmath>: the double nearest to pi, 0x400921FB54442D18. *)
Definition M_PI : spec_float := S754_finite false 7074237752028440 (-51).

Definition two : spec_float := F64.of_Z 2.

(** [(2.0 * M_PI)], as the source writes it at each use. *)
Definition two_pi : spec_float := F64.mul two M_PI.

Definition NormalizeAnglePositive (angle : spec_float) : spec_float :=
  F64.fmod (F64.add (F64.fmod angle two_pi) two_pi) two_pi.

Definition NormalizeAngle (angle : spec_float) : spec_float :=
  let a := NormalizeAnglePositive angle in
  if F64.ltb M_PI a then F64.sub a two_pi else a.

(** Decimal constants and closed intervals of doubles, to state where a
    result lies. *)
Definition decimal (n d : Z) : spec_float := F64.div (F64.of_Z n) (F64.of_Z d).

Definition within (lo hi x : spec_float) : bool :=
  F64.leb lo x && F64.leb x hi.

Definition ShortestAngularDistance (from to : spec_float) : spec_float :=
  let result :=
    NormalizeAnglePositive
      (F64.sub (NormalizeAnglePositive to) (NormalizeAnglePositive from)) in
  let result :=
    if F64.ltb M_PI result then F64.neg (F64.sub two_pi result) else result in
  NormalizeAngle result.

End Angle.

(** ** Container helpers of [utils.h] *)

Module Container.

Section Clamp.
(** The template parameter [T] with its [operator<]. *)
Context {T : Type} (lt : T -> T -> bool).

(** [std::max(a, b)] is [(a < b) ? b : a] and [std::min(a, b)] is
    [(b < a) ? b : a]. *)
Definition std_max (a b : T) : T := if lt a b then b else a.
Definition std_min (a b : T) : T := if lt b a then b else a.

Definition Clamp (val upperBound lowerBound : T) : T :=
  std_min (std_max val lowerBound) upperBound.
End Clamp.

Section Vec.
(** The template parameter [T] with its [operator==]. *)
Context {T : Type} (eq : T -> T -> bool).

(** [std::find(v.begin(), v.end(), x) - v.begin()]: the distance to the
    first element [y] with [y == x], the size of [v] when there is
    none. *)
Fixpoint std_find (v : list T) (x : T) : nat :=
  match v with
  | [] => O
  | y :: v' => if eq y x then O else S (std_find v' x)
  end.

(** [x] appears in [v] under the equality of the element type. *)
Definition appears (v : list T) (x : T) : Prop :=
  exists (j : nat) (y : T), v !! j = Some y /\ eq y x = true.

(** [std::find(...) != v.end()] *)
Definition VecContains (v : list T) (x : T) : bool :=
  negb (Nat.eqb (std_find v x) (length v)).

Definition VecIndexOf (v : list T) (x : T) : Z :=
  let pos := Z.of_nat (std_find v x) in
  if pos >=? Z.of_nat (length v) then -1 else pos.
End Vec.

End Container.

(** ** String formatting *)

Module Fmt.

Section Formatter.
(** The arguments that are not strings (integers, doubles, ...), which
    reach the formatter as they are. *)
Context {P : Type}.

(** What [snprintf] can take, and what [StrFmt] can take. *)
Inductive carg : Type :=
| CStr (s : string)
| Prim (p : P).

Inductive arg : Type :=
| StdString (s : string)
| Plain (c : carg).

(** [s.c_str()] as a C string: the characters before the first NUL. *)
Fixpoint c_str (s : string) : string :=
  match s with
  | EmptyString => EmptyString
  | String c s' => if Ascii.eqb c zero then EmptyString else String c (c_str s')
  end.

Definition _convert (a : arg) : carg :=
  match a with
  | StdString s => CStr (c_str s)
  | Plain c => c
  end.

(** The formatting engine of the C library: the text a format and its
    arguments produce, [None] when the formatting fails. *)
Variable format : string -> list carg -> option string.

(** [snprintf(buf, size, fmt, args...)]: the returned [int] and the
    characters left in [buf] before the terminating NUL.  The return
    value is negative on failure, also when the length of the text is
    not an [int]; otherwise it is the length of the whole text, of which
    at most [size - 1] characters are stored. *)
Definition snprintf (size : Z) (fmt : string) (args : list carg)
  : Z * string :=
  match format fmt args with
  | None => (-1, EmptyString)
  | Some out =>
      let n := Z.of_nat (String.length out) in
      if Int.int32_max <? n then (-1, EmptyString)
      else (n, substring 0 (Z.to_nat (size - 1)) out)
  end.

(** [_strfmt]: [None] stands for the overflow of [int] in the [+ 1]. *)
Definition _strfmt (fmt : string) (args : list carg) : option string :=
  let r := fst (snprintf 0 (c_str fmt) args) in
  if bool_decide (r < Int.int32_max) then
    let size := r + 1 in
    if size <=? 0 then Some "<StrFmt error>"%string
    else
      let buf := snd (snprintf size (c_str fmt) args) in
      Some (substring 0 (Z.to_nat (size - 1)) buf)
  else None.

Definition StrFmt (fmt : string) (args : list arg) : option string :=
  _strfmt fmt (map _convert args).
End Formatter.

End Fmt.

(** ** The rate scheduler *)

Module Sched.

(** The state of the world the scheduler acts on: the reading of
    [high_resolution_clock] in ticks; the time that passes between the two
    readings of the clock in [ScheduleRate] besides the duration asked of
    [sleep_for] (the late wake-up of the thread and the running time of
    the calls); and the durations handed to [sleep_for] so far (the most
    recent first). *)
Record world : Type := {
  now : Z;
  lag : Z;
  sleeps : list Z
}.

(** Ticks of the clock in a millisecond (the clock counts nanoseconds). *)
Definition ticks_per_ms : Z := 1000000.

(** [duration_cast<milliseconds>(now() - start_time).count()]: the cast
    truncates. *)
Definition elapsed_ms (w : world) (start_time : Z) : Z :=
  Z.quot (now w - start_time) ticks_per_ms.

(** [std::this_thread::sleep_for(milliseconds(d))]: the thread is
    suspended for the duration when it is positive, and is not suspended
    when it is not; either way the clock has moved on by [lag] when it is
    read next. *)
Definition sleep_for (d : Z) (w : world) : world :=
  {| now := now w + (if 0 <? d then d * ticks_per_ms else 0) + lag w;
     lag := lag w;
     sleeps := d :: sleeps w |}.

(** [int(1000.0 / rate - dt - 2)], the duration handed to [sleep_for]. *)
Definition sleep_budget (rate dt : Z) : option Z :=
  F64.to_int
    (F64.sub (F64.sub (F64.div (F64.of_Z 1000) (F64.of_Z rate)) (F64.of_Z dt))
             (F64.of_Z 2)).

(** The milliseconds left of the period after [dt], less 2, truncated:
    the sleep duration in exact arithmetic. *)
Definition exact_budget (rate dt : Z) : Z :=
  Z.quot (1000 - rate * (dt + 2)) rate.

Definition budget_agrees (rate dt : Z) : bool :=
  bool_decide (sleep_budget rate dt = Some (exact_budget rate dt)).

(** The pairs of a rate from 1 to [n] and an elapsed time from 0 up to
    the period of the rate. *)
Definition on_time_pairs (n : Z) : list (Z * Z) :=
  r ← seqZ 1 n; dt ← seqZ 0 (Z.quot 1000 r); [(r, dt)].

(** [None]: the division of [1000] by a zero rate, or a sleep duration
    that is not an [int]. *)
Definition ScheduleRate (rate : Z) (start_time : Z) (w : world)
  : option (spec_float * world) :=
  let dt := Int.to_int32 (elapsed_ms w start_time) in
  if bool_decide (rate = 0) then None
  else if dt <? Z.quot 1000 rate then
    d ← sleep_budget rate dt;
    let w' := sleep_for d w in
    Some (F64.div (F64.of_Z (elapsed_ms w' start_time)) (F64.of_Z 1000), w')
  else Some (F64.div (F64.of_Z dt) (F64.of_Z 1000), w).

End Sched.

(** ** Map lookup with a default *)

Module Map.

Section MapGetOrDefault.
(** A [std::map<K, V>] is a finite map from its keys to their values: the
    keys are compared by an order whose equivalence is their equality. *)
Context {K : Type} `{Countable K} {V : Type}.

End MapGetOrDefault.

End Map.

(** ** Printing formatted text *)

Module Print.
Import Fmt.

(** The line feed that ends a printed line. *)
Definition newline : string := String (ascii_of_nat 10) EmptyString.

Section Printer.
Context {P : Type} (format : string -> list (@carg P) -> option string).

(** [std::cout << text]: the stream is the text written to it so far. *)
Definition PrintFmt (fmt : string) (args : list arg) (cout : string)
  : option string :=
  text ← _strfmt format fmt (map _convert args);
  Some (cout ++ text)%string.

Definition PrintLnFmt (fmt : string) (args : list arg) (cout : string)
  : option string :=
  text ← _strfmt format (fmt ++ newline) (map _convert args);
  Some (cout ++ text)%string.
End Printer.

End Print.

(** * Proofs *)

(** ** The buffer writers *)

Module BufFacts.
Import Int Buf.

Lemma land_shiftl_small (a b k : Z) :
  0 <= k -> 0 <= b < 2 ^ k -> Z.land (Z.shiftl a k) b = 0.
Proof.
  intros Hk Hb. apply Z.bits_inj'; intros n Hn.
  rewrite Z.land_spec, Z.bits_0.
  destruct (Z.lt_ge_cases n k) as [Hlt|Hge].
  - now rewrite Z.shiftl_spec_low by lia.
  - destruct (Z.eq_dec b 0) as [->|Hb0].
    + now rewrite Z.bits_0, andb_false_r.
    + rewrite (Z.bits_above_log2 b n), andb_false_r; trivial; try lia.
      apply Z.lt_le_trans with k; [apply Z.log2_lt_pow2; lia | lia].
Qed.

Lemma lor_shiftl (a b k : Z) :
  0 <= k -> 0 <= b < 2 ^ k -> Z.lor (Z.shiftl a k) b = a * 2 ^ k + b.
Proof.
  intros Hk Hb.
  rewrite <- Z.lxor_lor, <- Z.add_nocarry_lxor, Z.shiftl_mul_pow2;
    auto using land_shiftl_small.
Qed.

Lemma to_uint8_mod (z : Z) : to_uint8 z = z mod 256.
Proof.
  unfold to_uint8. change 255 with (Z.ones 8). now rewrite Z.land_ones.
Qed.

Lemma to_uint8_range (z : Z) : 0 <= to_uint8 z < 256.
Proof. rewrite to_uint8_mod. apply Z.mod_pos_bound. lia. Qed.

Lemma put_eq (b : list Z) (i v : Z) :
  0 <= i < Z.of_nat (length b) -> i < int32_max ->
  put v (b, i) = Some (<[Z.to_nat i := to_uint8 v]> b, i + 1).
Proof.
  intros Hi Hm. unfold put, store.
  rewrite (bool_decide_eq_true_2 _ Hi), (bool_decide_eq_true_2 _ Hm).
  reflexivity.
Qed.

Lemma BufAppendInt16_eq (b : list Z) (n i : Z) :
  0 <= i -> i + 2 <= Z.of_nat (length b) -> i + 2 <= int32_max ->
  BufAppendInt16 b n i =
    Some (<[Z.to_nat (i + 1) := to_uint8 n]>
            (<[Z.to_nat i := to_uint8 (Z.shiftr n 8)]> b), i + 2).
Proof.
  intros H0 Hl Hm. unfold BufAppendInt16.
  rewrite put_eq by lia. cbv [mbind option_bind].
  rewrite put_eq by (rewrite ?length_insert; unfold int32_max in *; lia).
  now replace (i + 1 + 1) with (i + 2) by lia.
Qed.

Lemma BufAppendInt32_eq (b : list Z) (n i : Z) :
  0 <= i -> i + 4 <= Z.of_nat (length b) -> i + 4 <= int32_max ->
  BufAppendInt32 b n i =
    Some (<[Z.to_nat (i + 3) := to_uint8 n]>
         (<[Z.to_nat (i + 2) := to_uint8 (Z.shiftr n 8)]>
         (<[Z.to_nat (i + 1) := to_uint8 (Z.shiftr n 16)]>
         (<[Z.to_nat i := to_uint8 (Z.shiftr n 24)]> b))), i + 4).
Proof.
  intros H0 Hl Hm. unfold BufAppendInt32.
  rewrite put_eq by lia. cbv [mbind option_bind].
  rewrite put_eq by (rewrite ?length_insert; unfold int32_max in *; lia).
  cbv [mbind option_bind].
  rewrite put_eq by (rewrite ?length_insert; unfold int32_max in *; lia).
  cbv [mbind option_bind].
  rewrite put_eq by (rewrite ?length_insert; unfold int32_max in *; lia).
  replace (i + 1 + 1) with (i + 2) by lia.
  replace (i + 2 + 1) with (i + 3) by lia.
  now replace (i + 3 + 1) with (i + 4) by lia.
Qed.

Lemma byte_shift (w k n : Z) :
  0 <= k -> 8 * k + 8 <= w ->
  to_uint8 (Z.shiftr n (8 * k)) = byte_of w n k.
Proof.
  intros Hk Hw. unfold byte_of. rewrite to_uint8_mod, Z.shiftr_div_pow2 by lia.
  change 256 with (2 ^ 8).
  rewrite <- !Z.land_ones, <- !Z.shiftr_div_pow2 by lia.
  apply Z.bits_inj'; intros j Hj.
  rewrite !Z.land_spec, !Z.shiftr_spec, Z.land_spec by lia.
  destruct (Z.lt_ge_cases j 8).
  - rewrite !Z.ones_spec_low by lia. now rewrite !andb_true_r.
  - rewrite (Z.ones_spec_high 8) by lia. now rewrite !andb_false_r.
Qed.

Lemma byte_of_range (w n k : Z) : 0 <= byte_of w n k < 256.
Proof. unfold byte_of. apply Z.mod_pos_bound. lia. Qed.

Lemma decode_be16_bytes (n : Z) :
  in_int16 n -> decode_be16 (byte_of 16 n 1) (byte_of 16 n 0) = n.
Proof.
  unfold in_int16, int16_min, int16_max, decode_be16, to_int16. intros Hn.
  rewrite lor_shiftl by (auto using byte_of_range; lia).
  unfold byte_of. change (2 ^ 16) with 65536. change (2 ^ (8 * 1)) with 256.
  change (2 ^ (8 * 0)) with 1. change (2 ^ 8) with 256.
  rewrite Z.div_1_r.
  Z.div_mod_to_equations. lia.
Qed.

Lemma decode_be32_bytes (n : Z) :
  in_int32 n ->
  decode_be32 (byte_of 32 n 3) (byte_of 32 n 2) (byte_of 32 n 1)
    (byte_of 32 n 0) = n.
Proof.
  unfold in_int32, int32_min, int32_max, decode_be32, to_int32. intros Hn.
  rewrite (lor_shiftl _ _ 8) by (auto using byte_of_range; lia).
  rewrite (lor_shiftl _ _ 16).
  2: lia.
  2:{ pose proof (byte_of_range 32 n 1). pose proof (byte_of_range 32 n 0).
      change (2 ^ 8) with 256. change (2 ^ 16) with 65536. lia. }
  rewrite (lor_shiftl _ _ 24).
  2: lia.
  2:{ pose proof (byte_of_range 32 n 2). pose proof (byte_of_range 32 n 1).
      pose proof (byte_of_range 32 n 0).
      change (2 ^ 8) with 256. change (2 ^ 16) with 65536.
      change (2 ^ 24) with 16777216. lia. }
  unfold byte_of. change (2 ^ 32) with 4294967296.
  change (2 ^ (8 * 3)) with 16777216. change (2 ^ (8 * 2)) with 65536.
  change (2 ^ (8 * 1)) with 256. change (2 ^ (8 * 0)) with 1.
  change (2 ^ 8) with 256. change (2 ^ 16) with 65536.
  change (2 ^ 24) with 16777216.
  rewrite Z.div_1_r.
  Z.div_mod_to_equations. lia.
Qed.

Lemma read_be16_insert (b : list Z) (i x y : Z) :
  0 <= i -> i + 2 <= Z.of_nat (length b) ->
  read_be16 (<[Z.to_nat (i + 1) := y]> (<[Z.to_nat i := x]> b)) i
  = Some (decode_be16 x y).
Proof.
  intros H0 Hl. unfold read_be16.
  rewrite (list_lookup_insert_ne _ _ (Z.to_nat i)) by lia.
  rewrite list_lookup_insert_eq by (rewrite ?length_insert; lia).
  rewrite list_lookup_insert_eq by (rewrite ?length_insert; lia).
  reflexivity.
Qed.

Lemma read_be32_insert (b : list Z) (i x y z t : Z) :
  0 <= i -> i + 4 <= Z.of_nat (length b) ->
  read_be32 (<[Z.to_nat (i + 3) := t]> (<[Z.to_nat (i + 2) := z]>
            (<[Z.to_nat (i + 1) := y]> (<[Z.to_nat i := x]> b)))) i
  = Some (decode_be32 x y z t).
Proof.
  intros H0 Hl. unfold read_be32.
  rewrite !(list_lookup_insert_ne _ _ (Z.to_nat i)) by lia.
  rewrite list_lookup_insert_eq by (rewrite ?length_insert; lia).
  rewrite !(list_lookup_insert_ne _ _ (Z.to_nat (i + 1))) by lia.
  rewrite list_lookup_insert_eq by (rewrite ?length_insert; lia).
  rewrite !(list_lookup_insert_ne _ _ (Z.to_nat (i + 2))) by lia.
  rewrite list_lookup_insert_eq by (rewrite ?length_insert; lia).
  rewrite list_lookup_insert_eq by (rewrite ?length_insert; lia).
  reflexivity.
Qed.

Lemma byte0 (w n : Z) : 8 <= w -> to_uint8 n = byte_of w n 0.
Proof.
  intros Hw. rewrite <- (byte_shift w 0 n) by lia. now rewrite Z.shiftr_0_r.
Qed.

Lemma byte1 (w n : Z) : 16 <= w -> to_uint8 (Z.shiftr n 8) = byte_of w n 1.
Proof. intros Hw. now rewrite <- (byte_shift w 1 n) by lia. Qed.

Lemma byte2 (w n : Z) : 24 <= w -> to_uint8 (Z.shiftr n 16) = byte_of w n 2.
Proof. intros Hw. now rewrite <- (byte_shift w 2 n) by lia. Qed.

Lemma byte3 (w n : Z) : 32 <= w -> to_uint8 (Z.shiftr n 24) = byte_of w n 3.
Proof. intros Hw. now rewrite <- (byte_shift w 3 n) by lia. Qed.

(** The bytes [BufAppendInt16] stores are those of the two's complement
    pattern of the number, and reading them back gives the number. *)
Lemma BufAppendInt16_bytes (b : list Z) (n i : Z) :
  in_int16 n ->
  0 <= i -> i + 2 <= Z.of_nat (length b) -> i + 2 <= int32_max ->
  exists b' : list Z,
    BufAppendInt16 b n i = Some (b', i + 2) /\
    b' !! Z.to_nat i = Some (byte_of 16 n 1) /\
    b' !! Z.to_nat (i + 1) = Some (byte_of 16 n 0) /\
    read_be16 b' i = Some n.
Proof.
  intros Hn H0 Hl Hm. rewrite BufAppendInt16_eq by assumption.
  rewrite (byte0 16), (byte1 16) by lia.
  eexists. split; [reflexivity|].
  rewrite read_be16_insert, decode_be16_bytes by (lia || assumption).
  rewrite (list_lookup_insert_ne _ _ (Z.to_nat i)) by lia.
  rewrite !list_lookup_insert_eq by (rewrite ?length_insert; lia).
  auto.
Qed.

Lemma BufAppendInt32_bytes (b : list Z) (n i : Z) :
  in_int32 n ->
  0 <= i -> i + 4 <= Z.of_nat (length b) -> i + 4 <= int32_max ->
  exists b' : list Z,
    BufAppendInt32 b n i = Some (b', i + 4) /\
    b' !! Z.to_nat i = Some (byte_of 32 n 3) /\
    b' !! Z.to_nat (i + 1) = Some (byte_of 32 n 2) /\
    b' !! Z.to_nat (i + 2) = Some (byte_of 32 n 1) /\
    b' !! Z.to_nat (i + 3) = Some (byte_of 32 n 0) /\
    read_be32 b' i = Some n.
Proof.
  intros Hn H0 Hl Hm. rewrite BufAppendInt32_eq by assumption.
  rewrite (byte0 32), (byte1 32), (byte2 32), (byte3 32) by lia.
  eexists. split; [reflexivity|].
  rewrite read_be32_insert, decode_be32_bytes by (lia || assumption).
  rewrite !(list_lookup_insert_ne _ _ (Z.to_nat i)) by lia.
  rewrite !(list_lookup_insert_ne _ _ (Z.to_nat (i + 1))) by lia.
  rewrite !(list_lookup_insert_ne _ _ (Z.to_nat (i + 2))) by lia.
  rewrite !list_lookup_insert_eq by (rewrite ?length_insert; lia).
  auto 6.
Qed.

Lemma scenario_6_bytes (b : list Z) :
  length b = 6%nat ->
  BufAppendInt32 b 305419896 0 ≫= (λ st, BufAppendInt16 st.1 6699 st.2)
  = Some ([18; 52; 86; 120; 26; 43], 6).
Proof.
  intros Hb. do 7 (destruct b as [|? b]; try discriminate Hb).
  reflexivity.
Qed.

(** C1: [BufAppendInt16] stores the two bytes of an [int16_t] number, the
    most significant first, at the cursor and the position after it and
    advances the cursor by 2, and the big-endian reading of the two bytes
    is the number again; [BufAppendInt32] does the same with four bytes
    and an advance of 4.  From cursor 0 in a buffer of 6 bytes,
    [BufAppendInt32] of 0x12345678 and then [BufAppendInt16] of 0x1A2B
    leave the bytes 12 34 56 78 1A 2B and the cursor 6.  The written
    positions are inside the buffer and the advanced cursor is an
    [int32_t], as the contract of the writers asks. *)
Theorem BufAppendInt_roundtrip (b : list Z) (n i : Z) (Hi : 0 <= i) :
  (in_int16 n -> i + 2 <= Z.of_nat (length b) -> i + 2 <= int32_max ->
   exists b' : list Z,
     BufAppendInt16 b n i = Some (b', i + 2) /\
     b' !! Z.to_nat i = Some (byte_of 16 n 1) /\
     b' !! Z.to_nat (i + 1) = Some (byte_of 16 n 0) /\
     read_be16 b' i = Some n) /\
  (in_int32 n -> i + 4 <= Z.of_nat (length b) -> i + 4 <= int32_max ->
   exists b' : list Z,
     BufAppendInt32 b n i = Some (b', i + 4) /\
     b' !! Z.to_nat i = Some (byte_of 32 n 3) /\
     b' !! Z.to_nat (i + 1) = Some (byte_of 32 n 2) /\
     b' !! Z.to_nat (i + 2) = Some (byte_of 32 n 1) /\
     b' !! Z.to_nat (i + 3) = Some (byte_of 32 n 0) /\
     read_be32 b' i = Some n) /\
  (length b = 6%nat ->
   BufAppendInt32 b 305419896 0 ≫= (λ st, BufAppendInt16 st.1 6699 st.2)
   = Some ([18; 52; 86; 120; 26; 43], 6)).
Proof.
  split; [|split].
  - intros Hn Hl Hm. now apply BufAppendInt16_bytes.
  - intros Hn Hl Hm. now apply BufAppendInt32_bytes.
  - apply scenario_6_bytes.
Qed.

Lemma BufAppendInt_roundtrip_witness :
  0 <= 1 /\
  (exists b' : list Z,
     BufAppendInt16 [0; 0; 0; 0; 0; 0] (-2) 1 = Some (b', 3) /\
     read_be16 b' 1 = Some (-2)) /\
  (exists b' : list Z,
     BufAppendInt32 [0; 0; 0; 0; 0; 0] (-2) 1 = Some (b', 5) /\
     read_be32 b' 1 = Some (-2)).
Proof.
  assert (H0 : 0 <= 1) by lia.
  assert (M2 : 1 + 2 <= int32_max) by (unfold int32_max; lia).
  assert (M4 : 1 + 4 <= int32_max) by (unfold int32_max; lia).
  assert (H16 : in_int16 (-2)) by (unfold in_int16, int16_min, int16_max; lia).
  assert (H32 : in_int32 (-2)) by (unfold in_int32, int32_min, int32_max; lia).
  assert (L2 : 1 + 2 <= Z.of_nat (length [0; 0; 0; 0; 0; 0])) by (simpl; lia).
  assert (L4 : 1 + 4 <= Z.of_nat (length [0; 0; 0; 0; 0; 0])) by (simpl; lia).
  destruct (BufAppendInt_roundtrip [0; 0; 0; 0; 0; 0] (-2) 1 H0)
    as (A16 & A32 & _).
  destruct (A16 H16 L2 M2) as (b16 & E16 & _ & _ & R16).
  destruct (A32 H32 L4 M4) as (b32 & E32 & _ & _ & _ & _ & R32).
  split; [exact H0|].
  split; [exists b16 | exists b32]; split; assumption.
Defined.

(** C10: [BufAppendInt16] changes no byte of the buffer but those at the
    cursor and the position after it, and [BufAppendInt32] none but the
    four from the cursor on; the size of the buffer is unchanged, and
    the only other thing either gives back is the advanced cursor. *)
Theorem BufAppendInt_frame (b : list Z) (n i : Z) (Hi : 0 <= i) :
  (i + 2 <= Z.of_nat (length b) -> i + 2 <= int32_max ->
   exists b' : list Z,
     BufAppendInt16 b n i = Some (b', i + 2) /\
     length b' = length b /\
     forall j : nat,
       Z.of_nat j < i \/ i + 2 <= Z.of_nat j -> b' !! j = b !! j) /\
  (i + 4 <= Z.of_nat (length b) -> i + 4 <= int32_max ->
   exists b' : list Z,
     BufAppendInt32 b n i = Some (b', i + 4) /\
     length b' = length b /\
     forall j : nat,
       Z.of_nat j < i \/ i + 4 <= Z.of_nat j -> b' !! j = b !! j).
Proof.
  split; intros Hl Hm.
  - rewrite BufAppendInt16_eq by trivial.
    eexists. split; [reflexivity|]. split.
    + now rewrite !length_insert.
    + intros j Hj. now rewrite !list_lookup_insert_ne by lia.
  - rewrite BufAppendInt32_eq by trivial.
    eexists. split; [reflexivity|]. split.
    + now rewrite !length_insert.
    + intros j Hj. now rewrite !list_lookup_insert_ne by lia.
Qed.

Lemma BufAppendInt_frame_witness :
  0 <= 1 /\
  (exists b' : list Z,
     BufAppendInt16 [7; 8; 9; 10; 11; 12] (-2) 1 = Some (b', 3) /\
     b' !! 0%nat = Some 7 /\ b' !! 3%nat = Some 10) /\
  (exists b' : list Z,
     BufAppendInt32 [7; 8; 9; 10; 11; 12] (-2) 1 = Some (b', 5) /\
     b' !! 0%nat = Some 7 /\ b' !! 5%nat = Some 12).
Proof.
  assert (H0 : 0 <= 1) by lia.
  assert (M2 : 1 + 2 <= int32_max) by (unfold int32_max; lia).
  assert (M4 : 1 + 4 <= int32_max) by (unfold int32_max; lia).
  assert (L2 : 1 + 2 <= Z.of_nat (length [7; 8; 9; 10; 11; 12]))
    by (simpl; lia).
  assert (L4 : 1 + 4 <= Z.of_nat (length [7; 8; 9; 10; 11; 12]))
    by (simpl; lia).
  destruct (BufAppendInt_frame [7; 8; 9; 10; 11; 12] (-2) 1 H0)
    as (A16 & A32).
  destruct (A16 L2 M2) as (b16 & E16 & _ & F16).
  destruct (A32 L4 M4) as (b32 & E32 & _ & F32).
  split; [exact H0|].
  split; [exists b16 | exists b32]; (split; [assumption|]).
  - split; [rewrite (F16 0%nat) by lia | rewrite (F16 3%nat) by lia];
      reflexivity.
  - split; [rewrite (F32 0%nat) by lia | rewrite (F32 5%nat) by lia];
      reflexivity.
Defined.

End BufFacts.

(** ** The container helpers *)

Module ContainerFacts.
Import Container.

Section ClampFacts.

Context {T : Type} (lt : T -> T -> bool).
Hypothesis lt_irrefl : forall a : T, lt a a = false.
Hypothesis lt_trans :
  forall a b c : T, lt a b = true -> lt b c = true -> lt a c = true.

Lemma Clamp_below (v hi lo : T) :
  lt hi lo = false -> lt v lo = true -> Clamp lt v hi lo = lo.
Proof.
  intros Hb Hv. unfold Clamp, std_min, std_max. now rewrite Hv, Hb.
Qed.

Lemma Clamp_above (v hi lo : T) :
  lt hi lo = false -> lt hi v = true -> Clamp lt v hi lo = hi.
Proof.
  intros Hb Hv. unfold Clamp, std_min, std_max.
  destruct (lt v lo) eqn:Hlo.
  - now rewrite (lt_trans _ _ _ Hv Hlo) in Hb.
  - now rewrite Hv.
Qed.

Lemma Clamp_inside (v hi lo : T) :
  lt v lo = false -> lt hi v = false -> Clamp lt v hi lo = v.
Proof.
  intros Hlo Hhi. unfold Clamp, std_min, std_max. now rewrite Hlo, Hhi.
Qed.

(** C6: with [lo <= hi], [Clamp(v, hi, lo)] is [lo] when [v < lo], [hi]
    when [v > hi] and [v] otherwise, and it lies in the closed interval
    from [lo] to [hi]. *)
Theorem Clamp_spec (v hi lo : T) (Hbounds : lt hi lo = false) :
  (lt v lo = true -> Clamp lt v hi lo = lo) /\
  (lt hi v = true -> Clamp lt v hi lo = hi) /\
  (lt v lo = false -> lt hi v = false -> Clamp lt v hi lo = v) /\
  lt (Clamp lt v hi lo) lo = false /\
  lt hi (Clamp lt v hi lo) = false.
Proof.
  split; [|split; [|split]]; auto using Clamp_below, Clamp_above, Clamp_inside.
  destruct (lt v lo) eqn:Hlo.
  - rewrite Clamp_below by assumption. auto.
  - destruct (lt hi v) eqn:Hhi.
    + rewrite Clamp_above by assumption. auto.
    + rewrite Clamp_inside by assumption. auto.
Qed.

End ClampFacts.

Lemma Zltb_trans (a b c : Z) :
  Z.ltb a b = true -> Z.ltb b c = true -> Z.ltb a c = true.
Proof. rewrite !Z.ltb_lt. lia. Qed.

Lemma Clamp_spec_witness :
  Z.ltb 10 0 = false /\
  Clamp Z.ltb (-3) 10 0 = 0 /\ Clamp Z.ltb 12 10 0 = 10 /\
  Clamp Z.ltb 4 10 0 = 4.
Proof.
  assert (Hb : Z.ltb 10 0 = false) by reflexivity.
  split; [exact Hb|]. split; [|split].
  - apply (Clamp_spec Z.ltb Z.ltb_irrefl Zltb_trans (-3) 10 0 Hb).
    reflexivity.
  - apply (Clamp_spec Z.ltb Z.ltb_irrefl Zltb_trans 12 10 0 Hb).
    reflexivity.
  - apply (Clamp_spec Z.ltb Z.ltb_irrefl Zltb_trans 4 10 0 Hb); reflexivity.
Defined.

Section VecFacts.

Context {T : Type} (eq : T -> T -> bool).

Lemma std_find_le (v : list T) (x : T) : (std_find eq v x <= length v)%nat.
Proof.
  induction v as [|y v IH]; simpl; [lia|]. destruct (eq y x); lia.
Qed.

(** Before the position found no element is equal to [x]. *)
Lemma std_find_before (v : list T) (x : T) (j : nat) (z : T) :
  (j < std_find eq v x)%nat -> v !! j = Some z -> eq z x = false.
Proof.
  revert j. induction v as [|y v IH]; simpl; intros j Hj Hz; [lia|].
  destruct (eq y x) eqn:Hy; [lia|].
  destruct j as [|j]; simpl in Hz.
  - now inversion Hz; subst.
  - apply (IH j); [lia|exact Hz].
Qed.

(** At the position found, when it is inside, the element is equal
    to [x]. *)
Lemma std_find_at (v : list T) (x : T) :
  (std_find eq v x < length v)%nat ->
  exists y : T, v !! std_find eq v x = Some y /\ eq y x = true.
Proof.
  induction v as [|y v IH]; simpl; intros Hlt; [lia|].
  destruct (eq y x) eqn:Hy.
  - exists y. auto.
  - apply IH. lia.
Qed.

Lemma std_find_end (v : list T) (x : T) :
  std_find eq v x = length v <-> ~ appears eq v x.
Proof.
  split.
  - intros He (j & y & Hj & Hy).
    assert (Hlt : (j < length v)%nat) by (apply lookup_lt_is_Some; eauto).
    rewrite <- He in Hlt.
    now rewrite (std_find_before v x j y Hlt Hj) in Hy.
  - intros Hn. pose proof (std_find_le v x) as Hle.
    destruct (Nat.eq_dec (std_find eq v x) (length v)) as [|Hne]; trivial.
    exfalso. apply Hn. destruct (std_find_at v x) as (y & Hy); [lia|].
    exists (std_find eq v x), y. exact Hy.
Qed.

Lemma VecContains_appears (v : list T) (x : T) :
  VecContains eq v x = true <-> appears eq v x.
Proof.
  unfold VecContains. rewrite negb_true_iff, Nat.eqb_neq.
  pose proof (std_find_end v x) as He.
  destruct (Nat.eq_dec (std_find eq v x) (length v)) as [E|E].
  - split; [intros H; now elim H|]. intros Ha. now apply He in E.
  - split; [intros _|trivial].
    destruct (std_find_at v x) as (y & Hy).
    + pose proof (std_find_le v x). lia.
    + exists (std_find eq v x), y. exact Hy.
Qed.

Lemma VecIndexOf_cases (v : list T) (x : T) :
  (std_find eq v x = length v /\ VecIndexOf eq v x = -1) \/
  ((std_find eq v x < length v)%nat /\
   VecIndexOf eq v x = Z.of_nat (std_find eq v x)).
Proof.
  unfold VecIndexOf. pose proof (std_find_le v x) as Hle.
  destruct (Z.geb_spec (Z.of_nat (std_find eq v x)) (Z.of_nat (length v)));
    [left|right]; split; trivial; lia.
Qed.

(** C7: [VecContains(v, x)] holds exactly when [VecIndexOf(v, x)] is not
    -1; it holds exactly when [x] appears in [v] under the equality of
    the elements; [VecIndexOf] gives the first index at which [x]
    appears, and -1 exactly when [x] does not appear. *)
Theorem VecContains_VecIndexOf (v : list T) (x : T) :
  (VecContains eq v x = true <-> VecIndexOf eq v x <> -1) /\
  (VecContains eq v x = true <-> appears eq v x) /\
  (VecIndexOf eq v x = -1 <-> ~ appears eq v x) /\
  (VecIndexOf eq v x <> -1 ->
   0 <= VecIndexOf eq v x < Z.of_nat (length v) /\
   (exists y : T,
      v !! Z.to_nat (VecIndexOf eq v x) = Some y /\ eq y x = true) /\
   (forall (j : nat) (z : T),
      Z.of_nat j < VecIndexOf eq v x -> v !! j = Some z -> eq z x = false)).
Proof.
  pose proof (VecContains_appears v x) as Hc.
  pose proof (std_find_end v x) as He.
  destruct (VecIndexOf_cases v x) as [[E ->]|[E ->]].
  - split; [|split; [exact Hc|split]].
    + rewrite Hc. split; [intros Ha; now apply He in E|intros H; now elim H].
    + split; [intros _; now apply He|trivial].
    + intros H. now elim H.
  - assert (Ha : appears eq v x).
    { destruct (std_find_at v x E) as (y & Hy).
      exists (std_find eq v x), y. exact Hy. }
    split; [|split; [exact Hc|split]].
    + rewrite Hc. split; [lia|trivial].
    + split; [lia|]. intros Hn. now elim Hn.
    + intros _. split; [lia|]. split.
      * rewrite Nat2Z.id. now apply std_find_at.
      * intros j z Hj. apply std_find_before. lia.
Qed.

End VecFacts.

End ContainerFacts.

(** ** String formatting *)

Module FmtFacts.
Import Fmt.

Lemma substring_all (s : string) : substring 0 (String.length s) s = s.
Proof. induction s as [|c s IH]; simpl; [reflexivity|now rewrite IH]. Qed.

Section Formatter.
Context {P : Type} (format : string -> list (@carg P) -> option string).

(** A failure of the formatter is a negative return value. *)
Lemma snprintf_failure (size : Z) (fmt : string) (args : list carg) :
  format fmt args = None -> fst (snprintf format size fmt args) = -1.
Proof. intros H. unfold snprintf. now rewrite H. Qed.

Lemma _strfmt_failure (fmt : string) (args : list carg) :
  fst (snprintf format 0 (c_str fmt) args) < 0 ->
  _strfmt format fmt args = Some "<StrFmt error>"%string.
Proof.
  intros Hneg. unfold _strfmt.
  rewrite bool_decide_eq_true_2 by (unfold Int.int32_max; lia).
  destruct (Z.leb_spec (fst (snprintf format 0 (c_str fmt) args) + 1) 0);
    [reflexivity|lia].
Qed.

Lemma _strfmt_success (fmt : string) (args : list carg) (out : string) :
  format (c_str fmt) args = Some out ->
  Z.of_nat (String.length out) < Int.int32_max ->
  _strfmt format fmt args = Some out.
Proof.
  intros Hf Hlen. unfold _strfmt, snprintf. rewrite Hf.
  destruct (Z.ltb_spec Int.int32_max (Z.of_nat (String.length out)));
    [lia|]. simpl fst.
  rewrite bool_decide_eq_true_2 by exact Hlen.
  destruct (Z.leb_spec (Z.of_nat (String.length out) + 1) 0); [lia|].
  simpl snd.
  replace (Z.to_nat (Z.of_nat (String.length out) + 1 - 1))
    with (String.length out) by lia.
  now rewrite !substring_all.
Qed.

(** C9: when the system formatter reports an error (a negative return
    value, which is what a failed format computation gives), [StrFmt]
    returns the literal string "<StrFmt error>" and no error reaches the
    caller; when the formatter succeeds, [StrFmt] returns the formatted
    text. *)
Theorem StrFmt_error_or_text (fmt : string) (args : list arg) :
  (format (c_str fmt) (map _convert args) = None ->
   fst (snprintf format 0 (c_str fmt) (map _convert args)) < 0) /\
  (fst (snprintf format 0 (c_str fmt) (map _convert args)) < 0 ->
   StrFmt format fmt args = Some "<StrFmt error>"%string) /\
  (forall out : string,
     format (c_str fmt) (map _convert args) = Some out ->
     Z.of_nat (String.length out) < Int.int32_max ->
     StrFmt format fmt args = Some out).
Proof.
  split; [|split].
  - intros H. rewrite snprintf_failure by exact H. lia.
  - apply _strfmt_failure.
  - intros out. apply _strfmt_success.
Qed.

End Formatter.

End FmtFacts.

(** ** The rate scheduler *)

Module SchedFacts.
Import Sched.

Lemma on_time_pairs_agree :
  forallb (fun p => budget_agrees p.1 p.2) (on_time_pairs 1000) = true.
Proof. vm_compute. reflexivity. Qed.

Lemma on_time_pairs_elem (rate dt : Z) :
  0 <= dt < Z.quot 1000 rate -> (rate, dt) ∈ on_time_pairs 1000.
Proof.
  intros Hdt. unfold on_time_pairs.
  assert (Hr : 1 <= rate <= 1000).
  { destruct (Z.le_gt_cases rate 0) as [Hle|Hgt].
    - destruct (Z.eq_dec rate 0) as [->|Hne].
      + change (Z.quot 1000 0) with 0 in Hdt. lia.
      + replace rate with (- - rate) in Hdt by lia.
        rewrite Z.quot_opp_r in Hdt by lia.
        pose proof (Z.quot_pos 1000 (- rate)). lia.
    - destruct (Z.le_gt_cases rate 1000); [lia|].
      rewrite Z.quot_small in Hdt; lia. }
  apply list_elem_of_bind. exists rate. split.
  - apply list_elem_of_bind. exists dt. split.
    + apply list_elem_of_singleton. reflexivity.
    + apply elem_of_seqZ. lia.
  - apply elem_of_seqZ. lia.
Qed.

Lemma sleep_budget_exact (rate dt : Z) :
  0 <= dt < Z.quot 1000 rate ->
  sleep_budget rate dt = Some (exact_budget rate dt).
Proof.
  intros Hdt. pose proof on_time_pairs_agree as Hall.
  rewrite forallb_forall in Hall.
  specialize (Hall (rate, dt)
                (proj1 (list_elem_of_In _ _)
                   (on_time_pairs_elem rate dt Hdt))).
  simpl in Hall. unfold budget_agrees in Hall.
  now apply bool_decide_eq_true_1 in Hall.
Qed.

(** The two paths on the [int] the function computes.  With [dt] the
    elapsed whole milliseconds narrowed to [int] and the period
    [1000 / rate] in whole milliseconds: on the late path ([dt] at least
    the period) the function returns [dt / 1000.0] at once, the world
    untouched and nothing slept; on the on-time path ([dt] less than the
    period) it hands the duration [int(1000.0 / rate - dt - 2)] to
    [sleep_for], reads the clock again and returns the time elapsed then,
    in seconds; for a [dt] that is not negative that duration is the rest
    of the period less 2 ms, truncated.  Where the late path is taken
    with less than the exact period [1000 / rate] elapsed, because the
    test is on whole milliseconds, the rest of the period less 2 ms is
    negative: no sleep is left out. *)
Lemma ScheduleRate_paths (rate start_time : Z) (w : world)
  (Hrate : rate <> 0) :
  let dt := Int.to_int32 (elapsed_ms w start_time) in
  (Z.quot 1000 rate <= dt ->
   ScheduleRate rate start_time w
   = Some (F64.div (F64.of_Z dt) (F64.of_Z 1000), w)) /\
  (dt < Z.quot 1000 rate ->
   forall d : Z, sleep_budget rate dt = Some d ->
     ScheduleRate rate start_time w
     = Some (F64.div (F64.of_Z (elapsed_ms (sleep_for d w) start_time))
                     (F64.of_Z 1000),
             sleep_for d w) /\
     sleeps (sleep_for d w) = d :: sleeps w) /\
  (0 <= dt < Z.quot 1000 rate ->
   sleep_budget rate dt = Some (exact_budget rate dt)) /\
  (0 < rate -> Z.quot 1000 rate <= dt -> 1000 - rate * (dt + 2) < 0).
Proof.
  intros dt. unfold ScheduleRate. fold dt.
  rewrite bool_decide_eq_false_2 by exact Hrate.
  split; [|split; [|split]].
  - intros Hlate.
    destruct (Z.ltb_spec dt (Z.quot 1000 rate)); [lia|reflexivity].
  - intros Hon d Hd.
    destruct (Z.ltb_spec dt (Z.quot 1000 rate)); [|lia].
    rewrite Hd. split; reflexivity.
  - apply sleep_budget_exact.
  - intros Hpos Hlate. rewrite Z.quot_div_nonneg in Hlate by lia.
    pose proof (Z.div_mod 1000 rate ltac:(lia)) as Hdm.
    pose proof (Z.mod_pos_bound 1000 rate Hpos) as Hb. nia.
Qed.

Lemma ScheduleRate_paths_witness :
  let early := {| now := 3000000; lag := 40000; sleeps := [] |} in
  let late := {| now := 12000000; lag := 40000; sleeps := [] |} in
  100 <> 0 /\
  ScheduleRate 100 0 late
  = Some (F64.div (F64.of_Z 12) (F64.of_Z 1000), late) /\
  sleep_budget 100 3 = Some 5 /\
  ScheduleRate 100 0 early
  = Some (F64.div (F64.of_Z 8) (F64.of_Z 1000),
          {| now := 8040000; lag := 40000; sleeps := [5] |}).
Proof.
  intros early late.
  assert (Hr : 100 <> 0) by lia.
  destruct (ScheduleRate_paths 100 0 late Hr) as (Hlate & _ & _ & _).
  destruct (ScheduleRate_paths 100 0 early Hr) as (_ & Hon & Hex & _).
  assert (Hd : sleep_budget 100 3 = Some 5).
  { apply Hex. vm_compute. split; [discriminate|reflexivity]. }
  split; [exact Hr|]. split; [|split; [exact Hd|]].
  - apply Hlate. vm_compute. discriminate.
  - destruct (Hon ltac:(vm_compute; reflexivity) 5 Hd) as (Hrun & _).
    exact Hrun.
Defined.

(** C5: a late call does not always return at once.  The elapsed
    milliseconds are narrowed to the [int dt] before the test against the
    period, so that a call 4294967299 ms after the start time, late by
    far for the period of 10 ms of the rate 100, has [dt = 3], takes the
    on-time path and sleeps 5 ms before it returns; and a call with the
    start time at the epoch of the clock, 1700000000000 ms before, has
    [dt = -807049216] and sleeps 807049224 ms, more than nine days. *)
Theorem ScheduleRate_late_call_sleeps :
  let late := {| now := 4294967299 * ticks_per_ms; lag := 0; sleeps := [] |} in
  let epoch :=
    {| now := 1700000000000 * ticks_per_ms; lag := 0; sleeps := [] |} in
  (Z.quot 1000 100 <= elapsed_ms late 0 /\
   Int.to_int32 (elapsed_ms late 0) = 3 /\
   ScheduleRate 100 0 late
   = Some (F64.div (F64.of_Z 4294967304) (F64.of_Z 1000),
           {| now := 4294967304 * ticks_per_ms; lag := 0;
              sleeps := [5] |})) /\
  (Z.quot 1000 100 <= elapsed_ms epoch 0 /\
   Int.to_int32 (elapsed_ms epoch 0) = -807049216 /\
   ScheduleRate 100 0 epoch
   = Some (F64.div (F64.of_Z 1700807049224) (F64.of_Z 1000),
           {| now := 1700807049224 * ticks_per_ms; lag := 0;
              sleeps := [807049224] |})).
Proof.
  split; (split; [vm_compute; discriminate|]);
    split; vm_compute; reflexivity.
Qed.

End SchedFacts.

(** ** The angle helpers at given angles *)

Module AngleExamples.
Import Angle.

(** The claim C2 as the specification has it, a result of about -0.283,
    fails: the distance from 3.0 to -3.0 is not between -0.284 and
    -0.282, it is positive. *)
Lemma distance_3_m3_not_negative :
  within (decimal (-284) 1000) (decimal (-282) 1000)
    (ShortestAngularDistance (F64.of_Z 3) (F64.of_Z (-3))) = false /\
  F64.ltb (F64.of_Z 0)
    (ShortestAngularDistance (F64.of_Z 3) (F64.of_Z (-3))) = true.
Proof. split; vm_compute; reflexivity. Qed.

(** C2, amended: [ShortestAngularDistance(3.0, -3.0)] is the double
    5101412975563136 * 2^-54 = 0.28318530717958623..., about +0.283 (that
    is 2 pi - 6): the shorter way from 3.0 to -3.0 goes through pi in the
    direction of increasing angle. *)
Theorem distance_3_m3_value :
  ShortestAngularDistance (F64.of_Z 3) (F64.of_Z (-3))
  = S754_finite false 5101412975563136 (-54) /\
  within (decimal 2831 10000) (decimal 2832 10000)
    (ShortestAngularDistance (F64.of_Z 3) (F64.of_Z (-3))) = true.
Proof. split; vm_compute; reflexivity. Qed.

End AngleExamples.

(** ** Rounding in the floating-point formats

    What the proofs need of the arithmetic of [SpecFloat], stated on
    integers: the number of digits of a mantissa, the right shift that
    keeps the rounding bits, and the result of [binary_round_aux]. *)

Module RoundFacts.
Import Round.

Lemma pow2_pos (k : Z) : 0 <= k -> 0 < 2 ^ k.
Proof. intros Hk. apply Z.pow_pos_nonneg; lia. Qed.

Lemma pow2_split (a b : Z) : 0 <= a -> 0 <= b -> 2 ^ (a + b) = 2 ^ a * 2 ^ b.
Proof. intros Ha Hb. now rewrite Z.pow_add_r. Qed.

Lemma pow2_le (a b : Z) : 0 <= a <= b -> 2 ^ a <= 2 ^ b.
Proof. intros H. apply Z.pow_le_mono_r; lia. Qed.

Lemma pow2_lt (a b : Z) : 0 <= a < b -> 2 ^ a < 2 ^ b.
Proof. intros H. apply Z.pow_lt_mono_r; lia. Qed.

(** *** Digits *)

Lemma digits2_pos_bounds (p : positive) :
  2 ^ (Z.pos (digits2_pos p) - 1) <= Z.pos p < 2 ^ Z.pos (digits2_pos p).
Proof.
  induction p as [p IH|p IH|]; simpl digits2_pos.
  - rewrite Pos2Z.inj_succ, Z.pow_succ_r by lia.
    replace (Z.succ (Z.pos (digits2_pos p)) - 1)
      with (Z.succ (Z.pos (digits2_pos p) - 1)) by lia.
    rewrite Z.pow_succ_r by lia. lia.
  - rewrite Pos2Z.inj_succ, Z.pow_succ_r by lia.
    replace (Z.succ (Z.pos (digits2_pos p)) - 1)
      with (Z.succ (Z.pos (digits2_pos p) - 1)) by lia.
    rewrite Z.pow_succ_r by lia. lia.
  - simpl. lia.
Qed.

Lemma Zdigits2_bounds (m : Z) :
  0 < m -> 2 ^ (Zdigits2 m - 1) <= m < 2 ^ Zdigits2 m.
Proof.
  destruct m as [|p|p]; try lia. intros _. apply digits2_pos_bounds.
Qed.

Lemma Zdigits2_pos (m : Z) : 0 < m -> 0 < Zdigits2 m.
Proof. destruct m; simpl; lia. Qed.

Lemma Zdigits2_unique (m k : Z) :
  2 ^ (k - 1) <= m < 2 ^ k -> 0 < m -> Zdigits2 m = k.
Proof.
  intros Hk Hm. pose proof (Zdigits2_bounds m Hm) as Hd.
  pose proof (Zdigits2_pos m Hm) as Hp.
  assert (Hk0 : 0 < k).
  { destruct (Z.lt_ge_cases 0 k); trivial.
    destruct (Z.eq_dec k 0) as [->|]; [simpl in Hk; lia|].
    rewrite (Z.pow_neg_r 2 k) in Hk; lia. }
  destruct (Z.lt_trichotomy (Zdigits2 m) k) as [Hlt|[Heq|Hgt]]; trivial.
  - pose proof (pow2_le (Zdigits2 m) (k - 1)). lia.
  - pose proof (pow2_le k (Zdigits2 m - 1)). lia.
Qed.

(** A number below [2^k] has at most [k] digits. *)
Lemma Zdigits2_le (m k : Z) : 0 < m -> m < 2 ^ k -> Zdigits2 m <= k.
Proof.
  intros Hm Hk. pose proof (Zdigits2_bounds m Hm) as Hd.
  destruct (Z.le_gt_cases (Zdigits2 m) k) as [|Hgt]; trivial.
  assert (0 <= k).
  { destruct (Z.lt_ge_cases k 0); [|lia]. rewrite Z.pow_neg_r in Hk; lia. }
  pose proof (pow2_le k (Zdigits2 m - 1)). lia.
Qed.

Lemma Zdigits2_ge (m k : Z) : 0 < m -> 2 ^ k <= m -> k < Zdigits2 m.
Proof.
  intros Hm Hk. pose proof (Zdigits2_bounds m Hm) as Hd.
  pose proof (Zdigits2_pos m Hm).
  destruct (Z.lt_ge_cases k (Zdigits2 m)) as [|Hge]; trivial.
  pose proof (pow2_le (Zdigits2 m) k). lia.
Qed.

(** The digits of a quotient by a power of two. *)
Lemma Zdigits2_div (m n : Z) :
  0 < m -> 0 <= n < Zdigits2 m -> Zdigits2 (m / 2 ^ n) = Zdigits2 m - n.
Proof.
  intros Hm Hn. pose proof (Zdigits2_bounds m Hm) as Hd.
  pose proof (pow2_pos n ltac:(lia)) as Hp.
  assert (Hlo : 2 ^ (Zdigits2 m - n - 1) <= m / 2 ^ n).
  { apply Z.div_le_lower_bound; trivial.
    rewrite <- pow2_split by lia.
    now replace (n + (Zdigits2 m - n - 1)) with (Zdigits2 m - 1) by lia. }
  assert (Hhi : m / 2 ^ n < 2 ^ (Zdigits2 m - n)).
  { apply Z.div_lt_upper_bound; trivial.
    rewrite <- pow2_split by lia.
    now replace (n + (Zdigits2 m - n)) with (Zdigits2 m) by lia. }
  apply Zdigits2_unique; [lia|].
  pose proof (pow2_pos (Zdigits2 m - n - 1) ltac:(lia)). lia.
Qed.

Lemma Zdigits2_mul (m n : Z) :
  0 < m -> 0 <= n -> Zdigits2 (m * 2 ^ n) = Zdigits2 m + n.
Proof.
  intros Hm Hn. pose proof (Zdigits2_bounds m Hm) as Hd.
  pose proof (Zdigits2_pos m Hm).
  pose proof (pow2_pos n Hn) as Hp.
  apply Zdigits2_unique; [|nia].
  replace (Zdigits2 m + n - 1) with (Zdigits2 m - 1 + n) by lia.
  rewrite !pow2_split by lia. nia.
Qed.

(** *** The right shift with its rounding bits *)

Lemma iter_pos_invariant {A : Type} (f : A -> A) (Inv : Z -> A -> Prop) :
  (forall (k : Z) (x : A), 0 <= k -> Inv k x -> Inv (k + 1) (f x)) ->
  forall (p : positive) (k : Z) (x : A),
    0 <= k -> Inv k x -> Inv (k + Z.pos p) (SpecFloat.iter_pos f p x).
Proof.
  intros Hstep. induction p as [p IH|p IH|]; intros k x Hk Hx; simpl.
  - replace (k + Z.pos p~1) with (k + 1 + Z.pos p + Z.pos p) by lia.
    apply IH; [lia|]. apply IH; [lia|]. now apply Hstep.
  - replace (k + Z.pos p~0) with (k + Z.pos p + Z.pos p) by lia.
    apply IH; [lia|]. now apply IH.
  - now apply Hstep.
Qed.

Lemma shr_1_nonneg (mrs : shr_record) :
  0 <= shr_m mrs ->
  shr_1 mrs = {| shr_m := Z.div2 (shr_m mrs);
                 shr_r := Z.odd (shr_m mrs);
                 shr_s := shr_r mrs || shr_s mrs |}.
Proof.
  destruct mrs as [m r s]. simpl. intros Hm.
  destruct m as [|[q|q|]|q]; try reflexivity; lia.
Qed.

Lemma shifted_step (m k : Z) (mrs : shr_record) :
  0 <= m -> 0 <= k -> shifted m k mrs -> shifted m (k + 1) (shr_1 mrs).
Proof.
  intros Hm Hk [Hq Hx].
  pose proof (pow2_pos k Hk) as Hp.
  assert (H0 : 0 <= shr_m mrs) by (rewrite Hq; apply Z.div_pos; lia).
  rewrite shr_1_nonneg by exact H0. split; simpl.
  - rewrite Hq, Z.div2_div, Z.div_div by lia.
    now rewrite pow2_split, Z.pow_1_r by lia.
  - rewrite pow2_split, Z.pow_1_r by lia. intros Hmod.
    assert (Hdiv : m mod 2 ^ k = 0).
    { apply Z.mod_divide; [lia|]. apply Z.mod_divide in Hmod; [|lia].
      destruct Hmod as [c Hc]. exists (c * 2). lia. }
    destruct (Hx Hdiv) as [-> ->]. split; [|reflexivity].
    rewrite Hq. apply Z.mod_divide in Hmod; [|lia].
    destruct Hmod as [c Hc].
    replace (m / 2 ^ k) with (2 * c).
    + now rewrite Z.odd_mul.
    + apply Z.div_unique_exact; lia.
Qed.

Lemma shr_shifted (m e n : Z) :
  0 <= m -> 0 < n ->
  exists mrs : shr_record,
    shr {| shr_m := m; shr_r := false; shr_s := false |} e n = (mrs, e + n) /\
    shifted m n mrs.
Proof.
  intros Hm Hn. destruct n as [|p|p]; try lia. simpl.
  eexists. split; [reflexivity|].
  change (Z.pos p) with (0 + Z.pos p).
  apply (iter_pos_invariant shr_1 (shifted m)); try lia.
  - intros k x Hk. now apply shifted_step.
  - split; simpl; [now rewrite Z.div_1_r|auto].
Qed.

Lemma shr_nop (mrs : shr_record) (e n : Z) : n <= 0 -> shr mrs e n = (mrs, e).
Proof. destruct n; simpl; trivial; lia. Qed.

Lemma round_nearest_even_near (m : Z) (l : location) :
  m <= round_nearest_even m l <= m + 1.
Proof.
  destruct l as [|[| |]]; simpl; try lia. destruct (Z.even m); lia.
Qed.

Lemma shifted_exact (m k : Z) (mrs : shr_record) :
  shifted m k mrs -> m mod 2 ^ k = 0 ->
  round_nearest_even (shr_m mrs) (loc_of_shr_record mrs) = m / 2 ^ k.
Proof.
  intros [Hq Hx] Hmod. destruct (Hx Hmod) as [Hr Hs].
  destruct mrs as [q r s]. simpl in *. now subst.
Qed.

(** *** The result of [binary_round_aux] *)

Section Format.
Variables prec emax : Z.
Hypothesis Hprec : 0 < prec.
Set Default Proof Using "All".

Local Abbreviation fexp := (SpecFloat.fexp prec emax).
Local Abbreviation emin := (SpecFloat.emin prec emax).
Local Abbreviation rounded := (Round.rounded prec emax).
Local Abbreviation overflows := (Round.overflows prec emax).
Local Abbreviation fin := (Round.fin prec emax).
Local Abbreviation sc := (Round.sc prec emax).
Local Abbreviation sum_rounded := (Round.sum_rounded prec emax).

Lemma fexp_max (x : Z) : fexp x = Z.max (x - prec) emin.
Proof. reflexivity. Qed.

Lemma Zdigits2_mono (a b : Z) : 0 < a <= b -> Zdigits2 a <= Zdigits2 b.
Proof.
  intros H. pose proof (Zdigits2_bounds a ltac:(lia)).
  pose proof (Zdigits2_ge b (Zdigits2 a - 1) ltac:(lia) ltac:(lia)). lia.
Qed.

Lemma Zdigits2_succ (a b : Z) :
  0 <= a -> a <= b <= a + 1 -> 0 < b ->
  Zdigits2 b = Zdigits2 a \/
  (Zdigits2 b = Zdigits2 a + 1 /\ b = 2 ^ Zdigits2 a).
Proof.
  intros Ha Hb Hb0.
  destruct (Z.eq_dec a 0) as [->|Hne].
  - right. assert (b = 1) as -> by lia. now simpl.
  - pose proof (Zdigits2_bounds a ltac:(lia)) as Hd.
    pose proof (Zdigits2_pos a ltac:(lia)) as Hp.
    destruct (Z.eq_dec b (2 ^ Zdigits2 a)) as [E|E].
    + right. split; [|exact E]. apply Zdigits2_unique; [|lia].
      replace (Zdigits2 a + 1 - 1) with (Zdigits2 a) by lia.
      pose proof (pow2_lt (Zdigits2 a) (Zdigits2 a + 1)). lia.
    + left. pose proof (Zdigits2_mono a b ltac:(lia)).
      pose proof (Zdigits2_le b (Zdigits2 a) ltac:(lia) ltac:(lia)). lia.
Qed.

(** The second shift of [binary_round_aux]: after the rounding of a
    mantissa that sat at its canonical exponent, at most one more digit
    has to go, and the result is canonical. *)
Lemma normalize_stage (m1 m2 e1 : Z) :
  0 <= m1 -> m1 <= m2 <= m1 + 1 -> 0 < m2 ->
  fexp (Zdigits2 m1 + e1) = e1 ->
  exists (m3 : positive) (e3 : Z) (mrs : shr_record),
    shr_fexp prec emax m2 e1 loc_Exact = (mrs, e3) /\
    shr_m mrs = Z.pos m3 /\
    e1 <= e3 <= e1 + 1 /\
    Z.pos m3 * 2 ^ (e3 - e1) = m2 /\
    canonical_mantissa prec emax m3 e3 = true.
Proof.
  intros H1 H2 H2pos Hcan. unfold shr_fexp. simpl shr_record_of_loc.
  destruct (Zdigits2_succ m1 m2 H1 H2 H2pos) as [Hd|[Hd Hpow]].
  - (* the rounding did not add a digit *)
    rewrite Hd, Hcan, shr_nop by lia.
    destruct m2 as [|q|q]; try lia.
    exists q, e1. eexists. split; [reflexivity|]. simpl shr_m.
    split; [reflexivity|]. split; [lia|].
    rewrite Z.sub_diag, Z.pow_0_r, Z.mul_1_r. split; [reflexivity|].
    unfold canonical_mantissa. simpl Zdigits2 in Hd. rewrite Hd, Hcan.
    apply Z.eqb_refl.
  - (* the rounding gave a power of two *)
    rewrite fexp_max in Hcan.
    destruct (Z.eq_dec (fexp (Zdigits2 m2 + e1)) e1) as [E|E].
    + rewrite E, shr_nop by lia.
      destruct m2 as [|q|q]; try lia.
      exists q, e1. eexists. split; [reflexivity|]. simpl shr_m.
      split; [reflexivity|]. split; [lia|].
      rewrite Z.sub_diag, Z.pow_0_r, Z.mul_1_r. split; [reflexivity|].
      unfold canonical_mantissa. simpl Zdigits2 in E. rewrite E.
      apply Z.eqb_refl.
    + assert (E1 : fexp (Zdigits2 m2 + e1) = e1 + 1)
        by (rewrite fexp_max in *; lia).
      assert (Hd1 : 0 < Zdigits2 m1) by (rewrite fexp_max in *; lia).
      destruct (shr_shifted m2 e1 1 ltac:(lia) ltac:(lia))
        as (mrs & Hshr & Hq & _).
      rewrite E1. replace (e1 + 1 - e1) with 1 by lia. rewrite Hshr.
      assert (Hm3 : m2 / 2 ^ 1 = 2 ^ (Zdigits2 m1 - 1)).
      { rewrite Hpow. replace (Zdigits2 m1) with (Zdigits2 m1 - 1 + 1) at 1
          by lia.
        rewrite pow2_split by lia. apply Z.div_mul. simpl; lia. }
      pose proof (pow2_pos (Zdigits2 m1 - 1) ltac:(lia)) as Hpos.
      rewrite Hm3 in Hq.
      destruct (shr_m mrs) as [|q|q] eqn:Em; try lia.
      exists q, (e1 + 1), mrs. split; [reflexivity|].
      split; [exact Em|]. split; [lia|]. split.
      * replace (e1 + 1 - e1) with 1 by lia. rewrite Hq, Hpow.
        replace (Zdigits2 m1) with (Zdigits2 m1 - 1 + 1) at 2 by lia.
        now rewrite pow2_split by lia.
      * unfold canonical_mantissa.
        assert (Hdq : Zdigits2 (Z.pos q) = Zdigits2 m1).
        { rewrite Hq. apply Zdigits2_unique; [|lia].
          split; [lia|]. apply pow2_lt. lia. }
        simpl Zdigits2 in Hdq. rewrite Hdq.
        replace (Zdigits2 m1 + (e1 + 1)) with (Zdigits2 m2 + e1) by lia.
        rewrite E1. apply Z.eqb_refl.
Qed.

(** [binary_round_aux] on an exact mantissa [m] at exponent [e]: with
    [e1] the exponent the format gives a number of this size, the result
    is [q * 2^e1] for [q] the quotient of [m] by [2^(e1 - e)] or that
    quotient plus one, and the quotient itself when the division is
    exact. *)
Lemma binary_round_aux_spec (sx : bool) (m e : Z) :
  0 < m ->
  let e1 := Z.max e (fexp (Zdigits2 m + e)) in
  exists q : Z,
    m / 2 ^ (e1 - e) <= q <= m / 2 ^ (e1 - e) + 1 /\
    (m mod 2 ^ (e1 - e) = 0 -> q = m / 2 ^ (e1 - e)) /\
    ((q = 0 /\ binary_round_aux prec emax sx m e loc_Exact = S754_zero sx) \/
     (exists (m3 : positive) (e3 : Z),
        e1 <= e3 <= e1 + 1 /\
        Z.pos m3 * 2 ^ (e3 - e1) = q /\
        (e <= fexp (Zdigits2 m + e) ->
         canonical_mantissa prec emax m3 e3 = true) /\
        binary_round_aux prec emax sx m e loc_Exact =
          if e3 <=? emax - prec then S754_finite sx m3 e3
          else S754_infinity sx)).
Proof.
  intros Hm e1.
  destruct (Z.le_gt_cases (fexp (Zdigits2 m + e)) e) as [Hle|Hgt].
  - (* nothing to shift *)
    assert (He1 : e1 = e) by (unfold e1; lia).
    assert (Hshr : shr_fexp prec emax m e loc_Exact
                   = ({| shr_m := m; shr_r := false; shr_s := false |}, e)).
    { unfold shr_fexp. simpl shr_record_of_loc. now rewrite shr_nop by lia. }
    unfold binary_round_aux. rewrite Hshr.
    cbn [shr_m loc_of_shr_record round_nearest_even]. rewrite Hshr.
    cbn [shr_m].
    rewrite He1, Z.sub_diag, Z.pow_0_r, Z.div_1_r.
    exists m. split; [lia|]. split; [reflexivity|]. right.
    destruct m as [|p|p]; try lia.
    exists p, e. split; [lia|]. split; [rewrite Z.sub_diag; simpl; lia|].
    split; [|reflexivity].
    intros Hge. unfold canonical_mantissa.
    simpl Zdigits2 in *. apply Z.eqb_eq. lia.
  - (* a shift by [e1 - e] digits *)
    assert (He1 : e1 = fexp (Zdigits2 m + e)) by (unfold e1; lia).
    destruct (shr_shifted m e (e1 - e) ltac:(lia) ltac:(lia))
      as (mrs & Hshr0 & Hsh).
    assert (Hshr : shr_fexp prec emax m e loc_Exact = (mrs, e1)).
    { unfold shr_fexp. simpl shr_record_of_loc. rewrite <- He1, Hshr0.
      f_equal. lia. }
    unfold binary_round_aux. rewrite Hshr.
    pose proof (round_nearest_even_near (shr_m mrs) (loc_of_shr_record mrs))
      as Hnear.
    pose proof (shifted_exact m (e1 - e) mrs Hsh) as Hexact.
    destruct Hsh as [Hq _].
    set (m2 := round_nearest_even (shr_m mrs) (loc_of_shr_record mrs)) in *.
    pose proof (pow2_pos (e1 - e) ltac:(lia)) as Hpow.
    assert (H1 : 0 <= m / 2 ^ (e1 - e)) by (apply Z.div_pos; lia).
    exists m2. rewrite <- Hq. split; [exact Hnear|].
    split; [now rewrite Hq|].
    assert (Hcan : fexp (Zdigits2 (shr_m mrs) + e1) = e1).
    { rewrite Hq. destruct (Z.eq_dec (m / 2 ^ (e1 - e)) 0) as [E0|E0].
      - rewrite E0. simpl Zdigits2.
        assert (Hlt : m < 2 ^ (e1 - e)).
        { destruct (Z.lt_ge_cases m (2 ^ (e1 - e))); trivial.
          pose proof (Z.div_le_lower_bound m (2 ^ (e1 - e)) 1 Hpow). lia. }
        pose proof (Zdigits2_le m (e1 - e) Hm Hlt).
        rewrite fexp_max in *. lia.
      - assert (Hn : e1 - e < Zdigits2 m).
        { destruct (Z.lt_ge_cases (e1 - e) (Zdigits2 m)); trivial.
          pose proof (Zdigits2_bounds m Hm).
          pose proof (pow2_le (Zdigits2 m) (e1 - e)
                        ltac:(pose proof (Zdigits2_pos m Hm); lia)).
          rewrite Z.div_small in E0; lia. }
        rewrite Zdigits2_div by lia.
        replace (Zdigits2 m - (e1 - e) + e1) with (Zdigits2 m + e) by lia.
        now symmetry. }
    destruct (Z.eq_dec m2 0) as [E2|E2].
    + left. split; [exact E2|]. rewrite E2.
      unfold shr_fexp. simpl Zdigits2. rewrite shr_nop.
      * reflexivity.
      * rewrite fexp_max in *. lia.
    + right.
      destruct (normalize_stage (shr_m mrs) m2 e1 ltac:(lia) Hnear
                  ltac:(lia) Hcan)
        as (m3 & e3 & mrs2 & Hshr2 & Hm3 & He3 & Hval & Hc3).
      rewrite Hshr2, Hm3. exists m3, e3. auto.
Qed.

(** *** Values on a common scale *)

Lemma binary_round_aux_value (e0 : Z) (sx : bool) (m e : Z) :
  0 < m -> e0 <= e ->
  let e1 := Z.max e (fexp (Zdigits2 m + e)) in
  let r := binary_round_aux prec emax sx m e loc_Exact in
  overflows e0 sx (m * 2 ^ (e - e0)) e1 (e <= fexp (Zdigits2 m + e)) r \/
  rounded e0 sx (m * 2 ^ (e - e0)) (2 ^ (e1 - e0))
    (e <= fexp (Zdigits2 m + e)) r.
Proof.
  intros Hm He0 e1 r.
  destruct (binary_round_aux_spec sx m e Hm)
    as (q & Hq & Hex & [[Hq0 Hr]|(m3 & e3 & He3 & Hv & Hc & Hr)]);
    fold e1 in Hq, Hex, Hr; fold r in Hr; try fold e1 in He3, Hv.
  all: assert (Hle : e <= e1) by (unfold e1; lia).
  all: pose proof (pow2_pos (e - e0) ltac:(lia)) as Hp0.
  all: pose proof (pow2_pos (e1 - e) ltac:(lia)) as Hp1.
  all: assert (Hg : 2 ^ (e1 - e0) = 2 ^ (e1 - e) * 2 ^ (e - e0))
         by (rewrite <- pow2_split by lia; f_equal; lia).
  all: assert (Hdiv : m * 2 ^ (e - e0) / 2 ^ (e1 - e0) = m / 2 ^ (e1 - e))
         by (rewrite Hg; apply Z.div_mul_cancel_r; lia).
  all: assert (Hmod : m * 2 ^ (e - e0) mod 2 ^ (e1 - e0) = 0 ->
                      m mod 2 ^ (e1 - e) = 0)
         by (rewrite Hg, Z.mul_mod_distr_r by lia; nia).
  - right. split.
    + exists q. rewrite Hdiv. split; [exact Hq|]. split; [auto|].
      rewrite Hr, Hq0. simpl. now destruct sx.
    + left. exact Hr.
  - destruct (Z.leb_spec e3 (emax - prec)) as [Hb|Hb].
    + right. split.
      * exists q. rewrite Hdiv. split; [exact Hq|]. split; [auto|].
        rewrite Hr. simpl. f_equal. rewrite <- Hv.
        replace (e3 - e0) with (e3 - e1 + (e1 - e0)) by lia.
        rewrite pow2_split by lia. ring.
      * right. exists m3, e3. split; [exact Hr|]. split; [lia|]. auto.
    + left. split; [exact Hr|]. exists q, m3, e3. rewrite Hdiv.
      split; [exact Hq|]. split; [auto|]. split; [exact He3|].
      split; [lia|]. split; [|exact Hc]. rewrite <- Hv.
      replace (e3 - e0) with (e3 - e1 + (e1 - e0)) by lia.
      rewrite pow2_split by lia. ring.
Qed.

Lemma iter_xO_pow2 (mx d : positive) :
  Z.pos (Pos.iter xO mx d) = Z.pos mx * 2 ^ Z.pos d.
Proof.
  induction d as [|d IH] using Pos.peano_ind.
  - simpl. lia.
  - rewrite Pos.iter_succ, Pos2Z.inj_xO, IH, Pos2Z.inj_succ.
    rewrite Z.pow_succ_r by lia. ring.
Qed.

Lemma binary_round_value (e0 : Z) (sx : bool) (mx : positive) (ex : Z) :
  e0 <= ex -> e0 <= emin ->
  let e1 := fexp (Z.pos (digits2_pos mx) + ex) in
  let r := binary_round prec emax sx mx ex in
  overflows e0 sx (Z.pos mx * 2 ^ (ex - e0)) e1 True r \/
  rounded e0 sx (Z.pos mx * 2 ^ (ex - e0)) (2 ^ (e1 - e0)) True r.
Proof.
  intros He0 Hmin e1 r. unfold r, binary_round. fold e1.
  assert (Hemin : emin <= e1) by (unfold e1; rewrite fexp_max; lia).
  unfold shl_align. destruct (e1 - ex) as [|d|d] eqn:Ed.
  - (* already at the exponent of the format *)
    pose proof (binary_round_aux_value e0 sx (Z.pos mx) ex ltac:(lia) He0)
      as H. simpl Zdigits2 in H. fold e1 in H.
    replace (Z.max ex e1) with e1 in H by lia.
    destruct H as [[Hr (q & m3 & e3 & Hq & Hx & H3 & Ho & Hv & Hc)]|[Hq Hs]];
      [left; split; [exact Hr|]; exists q, m3, e3;
       repeat split; trivial; try lia; intros _; apply Hc; lia
      |right].
    split; [exact Hq|].
    destruct Hs as [Hs|(m3 & e3 & Hr & Hlo & Hhi & Hc)];
      [left; exact Hs|right].
    exists m3, e3. repeat split; trivial. intros _. apply Hc. lia.
  - (* digits go in the rounding *)
    pose proof (binary_round_aux_value e0 sx (Z.pos mx) ex ltac:(lia) He0)
      as H. simpl Zdigits2 in H. fold e1 in H.
    replace (Z.max ex e1) with e1 in H by lia.
    destruct H as [[Hr (q & m3 & e3 & Hq & Hx & H3 & Ho & Hv & Hc)]|[Hq Hs]];
      [left; split; [exact Hr|]; exists q, m3, e3;
       repeat split; trivial; try lia; intros _; apply Hc; lia
      |right].
    split; [exact Hq|].
    destruct Hs as [Hs|(m3 & e3 & Hr & Hlo & Hhi & Hc)];
      [left; exact Hs|right].
    exists m3, e3. repeat split; trivial. intros _. apply Hc. lia.
  - (* the mantissa is first shifted to the left *)
    assert (Hd : ex - e1 = Z.pos d) by lia.
    pose proof (iter_xO_pow2 mx d) as Hmz. rewrite <- Hd in Hmz.
    pose proof (pow2_pos (ex - e1) ltac:(lia)) as Hp.
    pose proof (binary_round_aux_value e0 sx (Z.pos (Pos.iter xO mx d)) e1
                  ltac:(lia) ltac:(lia)) as H.
    assert (Hdig : Zdigits2 (Z.pos (Pos.iter xO mx d)) + e1
                   = Z.pos (digits2_pos mx) + ex).
    { rewrite Hmz, Zdigits2_mul by lia. simpl Zdigits2. lia. }
    rewrite Hdig in H. fold e1 in H.
    replace (Z.max e1 e1) with e1 in H by lia.
    assert (HV : Z.pos (Pos.iter xO mx d) * 2 ^ (e1 - e0)
                 = Z.pos mx * 2 ^ (ex - e0)).
    { rewrite Hmz. replace (ex - e0) with (ex - e1 + (e1 - e0)) by lia.
      rewrite pow2_split by lia. ring. }
    rewrite HV in H.
    destruct H as [[Hr (q & m3 & e3 & Hq & Hx & H3 & Ho & Hv & Hc)]|[Hq Hs]];
      [left; split; [exact Hr|]; exists q, m3, e3;
       repeat split; trivial; try lia; intros _; apply Hc; lia
      |right].
    split; [exact Hq|].
    destruct Hs as [Hs|(m3 & e3 & Hr & Hlo & Hhi & Hc)];
      [left; exact Hs|right].
    exists m3, e3. repeat split; trivial. intros _. apply Hc. lia.
Qed.

(** *** Numbers of the format *)

Lemma canonical_exponent (m : positive) (e : Z) :
  canonical_mantissa prec emax m e = true ->
  fexp (Z.pos (digits2_pos m) + e) = e /\ emin <= e /\
  Z.pos (digits2_pos m) <= prec.
Proof.
  unfold canonical_mantissa. intros H. apply Z.eqb_eq in H.
  split; [exact H|]. rewrite fexp_max in H. lia.
Qed.

Lemma fin_finite (s : bool) (m : positive) (e : Z) :
  fin (S754_finite s m e) ->
  canonical_mantissa prec emax m e = true /\ e <= emax - prec.
Proof.
  intros [Hv _]. simpl in Hv. unfold bounded in Hv.
  apply andb_true_iff in Hv. destruct Hv as [Hc Hb].
  split; [exact Hc|]. now apply Z.leb_le.
Qed.

Lemma fin_zero (s : bool) : fin (S754_zero s).
Proof. split; reflexivity. Qed.

Lemma rounded_fin (sx : bool) (V g : Z) (r : spec_float) :
  rounded emin sx V g True r -> fin r.
Proof.
  intros [_ [->|(m3 & e3 & -> & _ & Hhi & Hc)]]; [apply fin_zero|].
  split; [|reflexivity]. simpl. unfold bounded.
  rewrite (Hc I). now apply Z.leb_le.
Qed.

(** The sign of a rounded value is the sign asked for. *)
Lemma rounded_sign (e0 : Z) (sx : bool) (V g : Z) (canon : Prop)
  (r : spec_float) :
  0 <= V -> 0 < g -> rounded e0 sx V g canon r ->
  if sx then value_at e0 r <= 0 else 0 <= value_at e0 r.
Proof.
  intros HV Hg [(q & Hq & _ & Hval) _]. rewrite Hval.
  assert (0 <= V / g) by (apply Z.div_pos; lia).
  destruct sx; simpl; nia.
Qed.

(** A rounded value is the value itself when it is on the grid. *)
Lemma rounded_exact (e0 : Z) (sx : bool) (V g : Z) (canon : Prop)
  (r : spec_float) :
  0 < g -> V mod g = 0 -> rounded e0 sx V g canon r ->
  value_at e0 r = cond_Zopp sx V.
Proof.
  intros Hg Hmod [(q & _ & Hex & Hval) _]. rewrite Hval.
  rewrite (Hex Hmod). f_equal.
  pose proof (Z.div_mod V g ltac:(lia)). lia.
Qed.

(** It lies between the two neighbours of the value on the grid. *)
Lemma rounded_near (e0 : Z) (sx : bool) (V g : Z) (canon : Prop)
  (r : spec_float) :
  0 <= V -> 0 < g -> rounded e0 sx V g canon r ->
  V / g * g <= Z.abs (value_at e0 r) <= V / g * g + g /\
  V - g < Z.abs (value_at e0 r) < V + g /\
  (Z.abs (value_at e0 r)) mod g = 0.
Proof.
  intros HV Hg [(q & Hq & Hex & Hval) _]. rewrite Hval.
  assert (H0 : 0 <= V / g) by (apply Z.div_pos; lia).
  assert (Ha : Z.abs (cond_Zopp sx (q * g)) = q * g)
    by (destruct sx; simpl; nia).
  rewrite Ha. split; [nia|]. split; [|apply Z.mod_mul; lia].
  pose proof (Z.div_mod V g ltac:(lia)) as Hdm.
  pose proof (Z.mod_pos_bound V g Hg) as Hb.
  destruct (Z.eq_dec (V mod g) 0) as [E|E].
  - rewrite (Hex E). nia.
  - nia.
Qed.

Lemma binary_normalize_value (M ez : Z) (szero : bool) :
  emin <= ez -> M <> 0 ->
  let S := M * 2 ^ (ez - emin) in
  let e1 := fexp (Zdigits2 (Z.abs S) + emin) in
  let r := binary_normalize prec emax M ez szero in
  overflows emin (M <? 0) (Z.abs S) e1 True r \/
  rounded emin (M <? 0) (Z.abs S) (2 ^ (e1 - emin)) True r.
Proof.
  intros Hez HM S e1 r.
  pose proof (pow2_pos (ez - emin) ltac:(lia)) as Hp.
  destruct M as [|q|q]; [lia| |].
  - pose proof (binary_round_value emin false q ez Hez ltac:(lia)) as H.
    assert (HS : Z.abs S = Z.pos q * 2 ^ (ez - emin)) by (unfold S; lia).
    assert (He : fexp (Z.pos (digits2_pos q) + ez) = e1).
    { unfold e1. rewrite HS, Zdigits2_mul by lia. simpl Zdigits2.
      f_equal. lia. }
    rewrite He in H. rewrite HS. exact H.
  - pose proof (binary_round_value emin true q ez Hez ltac:(lia)) as H.
    assert (HS : Z.abs S = Z.pos q * 2 ^ (ez - emin)) by (unfold S; lia).
    assert (He : fexp (Z.pos (digits2_pos q) + ez) = e1).
    { unfold e1. rewrite HS, Zdigits2_mul by lia. simpl Zdigits2.
      f_equal. lia. }
    rewrite He in H. rewrite HS. exact H.
Qed.

Lemma shl_align_fst (mx : positive) (ex ez : Z) :
  ez <= ex -> Z.pos (fst (shl_align mx ex ez)) = Z.pos mx * 2 ^ (ex - ez).
Proof.
  intros Hle. unfold shl_align. destruct (ez - ex) as [|d|d] eqn:Ed.
  - replace (ex - ez) with 0 by lia. simpl. lia.
  - lia.
  - simpl fst. rewrite iter_xO_pow2. f_equal. f_equal. lia.
Qed.

(** A number of the format is the rounding of its own value. *)
Lemma fin_rounded (s : bool) (m : positive) (e : Z) :
  fin (S754_finite s m e) ->
  let V := Z.pos m * 2 ^ (e - emin) in
  rounded emin s V (2 ^ (fexp (Zdigits2 V + emin) - emin)) True
    (S754_finite s m e).
Proof.
  intros Hfin V. destruct (fin_finite s m e Hfin) as [Hc Hb].
  destruct (canonical_exponent m e Hc) as (He & Hmin & _).
  pose proof (pow2_pos (e - emin) ltac:(lia)) as Hp.
  assert (Hg : fexp (Zdigits2 V + emin) = e).
  { unfold V. rewrite Zdigits2_mul by lia. simpl Zdigits2.
    rewrite <- He at 2. f_equal. lia. }
  rewrite Hg. split.
  - exists (Z.pos m). unfold V. rewrite Z.div_mul by lia.
    split; [lia|]. split; [reflexivity|]. reflexivity.
  - right. exists m, e. auto.
Qed.

Lemma sc_finite_sign (s : bool) (m : positive) (e : Z) :
  emin <= e ->
  (sc (S754_finite s m e) <? 0) = s /\ sc (S754_finite s m e) <> 0 /\
  Z.abs (sc (S754_finite s m e)) = Z.pos m * 2 ^ (e - emin).
Proof.
  intros He. pose proof (pow2_pos (e - emin) ltac:(lia)) as Hp.
  unfold sc, value_at. destruct s; simpl cond_Zopp.
  - split; [apply Z.ltb_lt; nia|]. split; nia.
  - split; [apply Z.ltb_ge; nia|]. split; nia.
Qed.

Lemma sum_rounded_self (x : spec_float) : fin x -> sum_rounded (sc x) x.
Proof.
  intros Hx. destruct x as [s|s| |s m e]; try (destruct Hx; discriminate).
  - left. auto.
  - destruct (fin_finite s m e Hx) as [Hc _].
    destruct (canonical_exponent m e Hc) as (_ & Hmin & _).
    destruct (sc_finite_sign s m e Hmin) as (Hs & Hnz & Ha).
    right. split; [exact Hnz|]. right. rewrite Hs, Ha.
    now apply fin_rounded.
Qed.

Lemma sum_rounded_normalize (sx sy : bool) (mx my : positive) (ex ey : Z)
  (sub : bool) :
  emin <= ex -> emin <= ey ->
  let ez := Z.min ex ey in
  let X := cond_Zopp sx (Z.pos (fst (shl_align mx ex ez))) in
  let Y := cond_Zopp sy (Z.pos (fst (shl_align my ey ez))) in
  let S := sc (S754_finite sx mx ex) +
           (if sub then - sc (S754_finite sy my ey)
            else sc (S754_finite sy my ey)) in
  sum_rounded S
    (binary_normalize prec emax (if sub then X - Y else X + Y) ez false).
Proof.
  intros Hx Hy ez X Y S.
  set (M := if sub then X - Y else X + Y).
  assert (Hez : emin <= ez) by (unfold ez; lia).
  pose proof (pow2_pos (ez - emin) ltac:(lia)) as Hp.
  assert (HS : S = M * 2 ^ (ez - emin)).
  { unfold S, M, X, Y, sc, value_at.
    rewrite !shl_align_fst by (unfold ez; lia).
    replace (ex - emin) with (ex - ez + (ez - emin)) by lia.
    replace (ey - emin) with (ey - ez + (ez - emin)) by lia.
    rewrite !pow2_split by (unfold ez; lia).
    destruct sub, sx, sy; simpl cond_Zopp; ring. }
  destruct (Z.eq_dec M 0) as [E|E].
  - left. rewrite E. simpl. split; [rewrite HS, E; reflexivity|].
    split; [apply fin_zero|reflexivity].
  - right. split; [nia|].
    pose proof (binary_normalize_value M ez false Hez E) as H.
    cbv zeta in H. rewrite <- HS in H.
    replace (S <? 0) with (M <? 0); [exact H|].
    destruct (Z.ltb_spec M 0), (Z.ltb_spec S 0); trivial; nia.
Qed.

Lemma fin_exponent (s : bool) (m : positive) (e : Z) :
  fin (S754_finite s m e) -> emin <= e.
Proof.
  intros H. destruct (fin_finite s m e H) as [Hc _].
  now destruct (canonical_exponent m e Hc) as (_ & Hmin & _).
Qed.

Lemma fin_opp (s : bool) (m : positive) (e : Z) :
  fin (S754_finite s m e) -> fin (S754_finite (negb s) m e).
Proof. intros [Hv Hf]. split; assumption. Qed.

Lemma sc_opp (s : bool) (m : positive) (e : Z) :
  sc (S754_finite (negb s) m e) = - sc (S754_finite s m e).
Proof. unfold sc, value_at. destruct s; simpl; lia. Qed.

Lemma SFadd_sum (x y : spec_float) :
  fin x -> fin y -> sum_rounded (sc x + sc y) (SFadd prec emax x y).
Proof.
  intros Hx Hy.
  destruct x as [sx|sx| |sx mx ex]; try (destruct Hx; discriminate);
    destruct y as [sy|sy| |sy my ey]; try (destruct Hy; discriminate).
  - left. split; [reflexivity|]. destruct sx, sy; simpl; auto using fin_zero.
  - change (sc (S754_zero sx)) with 0. rewrite Z.add_0_l.
    now apply sum_rounded_self.
  - change (sc (S754_zero sy)) with 0. rewrite Z.add_0_r.
    now apply sum_rounded_self.
  - apply (sum_rounded_normalize sx sy mx my ex ey false);
      eauto using fin_exponent.
Qed.

Lemma SFsub_sum (x y : spec_float) :
  fin x -> fin y -> sum_rounded (sc x - sc y) (SFsub prec emax x y).
Proof.
  intros Hx Hy.
  destruct x as [sx|sx| |sx mx ex]; try (destruct Hx; discriminate);
    destruct y as [sy|sy| |sy my ey]; try (destruct Hy; discriminate).
  - left. split; [reflexivity|]. destruct sx, sy; simpl; auto using fin_zero.
  - change (sc (S754_zero sx)) with 0. rewrite Z.sub_0_l, <- sc_opp.
    apply sum_rounded_self. now apply fin_opp.
  - change (sc (S754_zero sy)) with 0. rewrite Z.sub_0_r.
    now apply sum_rounded_self.
  - apply (sum_rounded_normalize sx sy mx my ex ey true);
      eauto using fin_exponent.
Qed.

(** *** Comparison *)

Lemma canonical_lt (m1 m2 : positive) (e1 e2 : Z) :
  canonical_mantissa prec emax m1 e1 = true ->
  canonical_mantissa prec emax m2 e2 = true ->
  e1 < e2 ->
  Z.pos m1 * 2 ^ (e1 - emin) < Z.pos m2 * 2 ^ (e2 - emin).
Proof.
  intros H1 H2 Hlt.
  destruct (canonical_exponent m1 e1 H1) as (_ & Hmin1 & Hd1).
  destruct (canonical_exponent m2 e2 H2) as (He2 & _ & _).
  rewrite fexp_max in He2.
  assert (Hd2 : Z.pos (digits2_pos m2) = prec) by lia.
  pose proof (digits2_pos_bounds m1) as [_ Hb1].
  pose proof (digits2_pos_bounds m2) as [Hb2 _]. rewrite Hd2 in Hb2.
  pose proof (pow2_le (Z.pos (digits2_pos m1)) prec ltac:(lia)) as Hp.
  pose proof (pow2_pos (e1 - emin) ltac:(lia)) as Hp1.
  pose proof (pow2_pos (e2 - emin) ltac:(lia)) as Hp2.
  apply Z.lt_le_trans with (2 ^ prec * 2 ^ (e1 - emin)); [nia|].
  apply Z.le_trans with (2 ^ (prec - 1) * 2 ^ (e2 - emin)); [|nia].
  rewrite <- !pow2_split by lia. apply pow2_le. lia.
Qed.

Lemma canonical_compare (m1 m2 : positive) (e1 e2 : Z) :
  canonical_mantissa prec emax m1 e1 = true ->
  canonical_mantissa prec emax m2 e2 = true ->
  (Z.pos m1 * 2 ^ (e1 - emin) ?= Z.pos m2 * 2 ^ (e2 - emin)) =
  match e1 ?= e2 with
  | Lt => Lt
  | Gt => Gt
  | Eq => Pos.compare_cont Eq m1 m2
  end.
Proof.
  intros H1 H2. destruct (Z.compare_spec e1 e2) as [E|L|G].
  - subst e2. destruct (canonical_exponent m1 e1 H1) as (_ & Hmin & _).
    pose proof (pow2_pos (e1 - emin) ltac:(lia)) as Hp.
    change (Pos.compare_cont Eq m1 m2) with (Z.pos m1 ?= Z.pos m2).
    destruct (Z.compare_spec (Z.pos m1) (Z.pos m2)) as [E|L|G].
    + rewrite E. apply Z.compare_refl.
    + apply Z.compare_lt_iff. nia.
    + apply Z.compare_gt_iff. nia.
  - apply Z.compare_lt_iff. now apply canonical_lt.
  - apply Z.compare_gt_iff. now apply canonical_lt.
Qed.

Lemma SFcompare_sc (x y : spec_float) :
  fin x -> fin y -> SFcompare x y = Some (sc x ?= sc y).
Proof.
  intros Hx Hy.
  destruct x as [sx|sx| |sx mx ex]; try (destruct Hx; discriminate);
    destruct y as [sy|sy| |sy my ey]; try (destruct Hy; discriminate).
  - reflexivity.
  - pose proof (fin_exponent _ _ _ Hy) as He.
    destruct (sc_finite_sign sy my ey He) as (Hs & Hnz & _).
    change (sc (S754_zero sx)) with 0. simpl SFcompare. f_equal.
    destruct sy; symmetry.
    + apply Z.compare_gt_iff. apply Z.ltb_lt in Hs. lia.
    + apply Z.compare_lt_iff. apply Z.ltb_ge in Hs. lia.
  - pose proof (fin_exponent _ _ _ Hx) as He.
    destruct (sc_finite_sign sx mx ex He) as (Hs & Hnz & _).
    change (sc (S754_zero sy)) with 0. simpl SFcompare. f_equal.
    destruct sx; symmetry.
    + apply Z.compare_lt_iff. apply Z.ltb_lt in Hs. lia.
    + apply Z.compare_gt_iff. apply Z.ltb_ge in Hs. lia.
  - destruct (fin_finite _ _ _ Hx) as [Hcx _].
    destruct (fin_finite _ _ _ Hy) as [Hcy _].
    pose proof (fin_exponent _ _ _ Hx) as Hex.
    pose proof (fin_exponent _ _ _ Hy) as Hey.
    pose proof (pow2_pos (ex - emin) ltac:(lia)) as Hpx.
    pose proof (pow2_pos (ey - emin) ltac:(lia)) as Hpy.
    pose proof (canonical_compare mx my ex ey Hcx Hcy) as Hc.
    unfold sc, value_at. simpl SFcompare. f_equal.
    destruct sx, sy; simpl cond_Zopp.
    + rewrite Z.compare_opp.
      rewrite (Z.compare_antisym (Z.pos mx * 2 ^ (ex - emin))), Hc.
      destruct (ex ?= ey); reflexivity.
    + symmetry. apply Z.compare_lt_iff. nia.
    + symmetry. apply Z.compare_gt_iff. nia.
    + rewrite Hc. reflexivity.
Qed.

(** *** Products *)

(** The exact product of two numbers of the format sits at an exponent
    that is not above the one the format gives its size: the rounding of
    [SFmul] only ever shifts to the right. *)
Lemma mul_canon (mx my : positive) (ex ey : Z) :
  emin <= 0 ->
  canonical_mantissa prec emax mx ex = true ->
  canonical_mantissa prec emax my ey = true ->
  ex + ey <= fexp (Zdigits2 (Z.pos (mx * my)) + (ex + ey)).
Proof.
  intros Hmin Hx Hy.
  destruct (canonical_exponent mx ex Hx) as (Hex & Hminx & Hdx).
  destruct (canonical_exponent my ey Hy) as (Hey & Hminy & Hdy).
  pose proof (digits2_pos_bounds mx) as [Hbx _].
  pose proof (digits2_pos_bounds my) as [Hby _].
  assert (Hd : Z.pos (digits2_pos mx) + Z.pos (digits2_pos my) - 2
               < Zdigits2 (Z.pos (mx * my))).
  { apply Zdigits2_ge; [lia|]. rewrite Pos2Z.inj_mul.
    replace (Z.pos (digits2_pos mx) + Z.pos (digits2_pos my) - 2)
      with (Z.pos (digits2_pos mx) - 1 + (Z.pos (digits2_pos my) - 1)) by lia.
    rewrite pow2_split by lia.
    pose proof (pow2_pos (Z.pos (digits2_pos mx) - 1) ltac:(lia)).
    pose proof (pow2_pos (Z.pos (digits2_pos my) - 1) ltac:(lia)).
    nia. }
  rewrite fexp_max in *. lia.
Qed.

Lemma SFmul_value (sx sy : bool) (mx my : positive) (ex ey : Z) :
  emin <= 0 ->
  fin (S754_finite sx mx ex) -> fin (S754_finite sy my ey) ->
  let e := ex + ey in
  let e1 := fexp (Zdigits2 (Z.pos (mx * my)) + e) in
  let V := Z.pos mx * 2 ^ (ex - emin) * (Z.pos my * 2 ^ (ey - emin)) in
  let r := SFmul prec emax (S754_finite sx mx ex) (S754_finite sy my ey) in
  e <= e1 /\
  (overflows (2 * emin) (xorb sx sy) V e1 True r \/
   rounded (2 * emin) (xorb sx sy) V (2 ^ (e1 - 2 * emin)) True r).
Proof.
  intros Hmin Hx Hy e e1 V r.
  destruct (fin_finite _ _ _ Hx) as [Hcx _].
  destruct (fin_finite _ _ _ Hy) as [Hcy _].
  pose proof (fin_exponent _ _ _ Hx) as Hex.
  pose proof (fin_exponent _ _ _ Hy) as Hey.
  pose proof (mul_canon mx my ex ey Hmin Hcx Hcy) as Hc. fold e e1 in Hc.
  split; [exact Hc|].
  pose proof (binary_round_aux_value (2 * emin) (xorb sx sy)
                (Z.pos (mx * my)) e ltac:(lia) ltac:(unfold e; lia)) as H.
  cbv zeta in H. fold e1 in H.
  replace (Z.max e e1) with e1 in H by lia.
  assert (HV : Z.pos (mx * my) * 2 ^ (e - 2 * emin) = V).
  { unfold V, e. rewrite Pos2Z.inj_mul.
    replace (ex + ey - 2 * emin) with (ex - emin + (ey - emin)) by lia.
    rewrite pow2_split by lia. ring. }
  rewrite HV in H. unfold r, SFmul.
  destruct H as [[Hr (q & m3 & e3 & Hq & Hxx & H3 & Ho & Hv & Hcc)]|[Hq Hs]].
  - left. split; [exact Hr|]. exists q, m3, e3.
    repeat split; trivial; try lia. intros _. now apply Hcc.
  - right. split; [exact Hq|].
    destruct Hs as [Hs|(m3 & e3 & Hr & Hlo & Hhi & Hcc)];
      [left; exact Hs|right].
    exists m3, e3. repeat split; trivial. intros _. now apply Hcc.
Qed.

(** *** When the rounding cannot overflow *)

Lemma overflows_size (e0 : Z) (sx : bool) (V e1 : Z) (canon : Prop)
  (r : spec_float) :
  overflows e0 sx V e1 canon r -> emax - prec < e1 + 1.
Proof. intros (_ & q & m3 & e3 & _ & _ & H & Ho & _). lia. Qed.

(** A value on the grid that is below a number of the format is rounded
    to itself, with no overflow. *)
Lemma overflows_below (sx : bool) (V e1 : Z) (r : spec_float)
  (mb : positive) (eb : Z) :
  overflows emin sx V e1 True r ->
  V mod 2 ^ (e1 - emin) = 0 -> emin <= e1 ->
  canonical_mantissa prec emax mb eb = true -> eb <= emax - prec ->
  V < Z.pos mb * 2 ^ (eb - emin) -> False.
Proof.
  intros (_ & q & m3 & e3 & _ & Hex & He3 & Ho & Hv & Hc) Hmod He1 Hb Hbe Hlt.
  pose proof (pow2_pos (e1 - emin) ltac:(lia)) as Hp.
  rewrite (Hex Hmod) in Hv.
  pose proof (Z.div_mod V (2 ^ (e1 - emin)) ltac:(lia)) as Hdm.
  pose proof (canonical_lt mb m3 eb e3 Hb (Hc I) ltac:(lia)). lia.
Qed.

End Format.

End RoundFacts.

(** ** The arithmetic of [double] *)

Module F64Facts.
Import Round RoundFacts.

Local Abbreviation fin := (Round.fin F64.prec F64.emax).
Local Abbreviation sc := (Round.sc F64.prec F64.emax).
Local Abbreviation emin := (SpecFloat.emin F64.prec F64.emax).

Lemma Hprec : 0 < F64.prec.
Proof. reflexivity. Qed.

Lemma fin_iff (x : spec_float) :
  fin x <-> F64.valid x = true /\ Float.is_finite x = true.
Proof. reflexivity. Qed.

Lemma scaled_sc (x : spec_float) : fin x -> F64.scaled x = sc x.
Proof.
  intros Hx. destruct x as [s|s| |s m e]; try reflexivity.
  pose proof (fin_exponent F64.prec F64.emax Hprec s m e Hx) as He.
  unfold F64.scaled, Round.sc, value_at.
  now rewrite Z.shiftl_mul_pow2 by lia.
Qed.

Lemma ltb_sc (x y : spec_float) :
  fin x -> fin y -> F64.ltb x y = (sc x <? sc y).
Proof.
  intros Hx Hy. unfold F64.ltb, SFltb.
  rewrite (SFcompare_sc F64.prec F64.emax Hprec x y Hx Hy). unfold Z.ltb.
  now destruct (sc x ?= sc y).
Qed.

Lemma leb_sc (x y : spec_float) :
  fin x -> fin y -> F64.leb x y = (sc x <=? sc y).
Proof.
  intros Hx Hy. unfold F64.leb, SFleb.
  rewrite (SFcompare_sc F64.prec F64.emax Hprec x y Hx Hy). unfold Z.leb.
  now destruct (sc x ?= sc y).
Qed.

(** *** [fmod] *)

Lemma divide_rem (a b c : Z) : (c | a) -> (c | b) -> (c | Z.rem a b).
Proof.
  intros Ha Hb. destruct (Z.eq_dec b 0) as [->|Hnz].
  - now rewrite Z.rem_0_r_ext.
  - pose proof (Z.quot_rem' a b) as H.
    replace (Z.rem a b) with (a - b * (a ÷ b)) by lia.
    apply Z.divide_sub_r; [exact Ha|]. now apply Z.divide_mul_l.
Qed.

Lemma sc_divide (s : bool) (m : positive) (e k : Z) :
  emin <= k <= e -> (2 ^ (k - emin) | sc (S754_finite s m e)).
Proof.
  intros Hk. unfold Round.sc, value_at.
  exists (cond_Zopp s (Z.pos m * 2 ^ (e - k))).
  replace (e - emin) with (e - k + (k - emin)) by lia.
  rewrite pow2_split by lia. destruct s; simpl; ring.
Qed.

Lemma sc_digits (s : bool) (m : positive) (e : Z) :
  fin (S754_finite s m e) ->
  Zdigits2 (Z.abs (sc (S754_finite s m e))) <= F64.prec + e - emin.
Proof.
  intros Hx. pose proof (fin_exponent F64.prec F64.emax Hprec s m e Hx) as He.
  destruct (fin_finite F64.prec F64.emax Hprec s m e Hx) as [Hc _].
  destruct (canonical_exponent F64.prec F64.emax Hprec m e Hc) as (_ & _ & Hd).
  destruct (sc_finite_sign F64.prec F64.emax Hprec s m e He) as (_ & _ & ->).
  rewrite Zdigits2_mul by lia. simpl Zdigits2. lia.
Qed.

(** [fmod(x, y)] is a number of the format, and its value is the
    remainder of the truncated division of the values. *)
Lemma fmod_spec (x y : spec_float) :
  fin x -> fin y -> sc y <> 0 ->
  fin (F64.fmod x y) /\ sc (F64.fmod x y) = Z.rem (sc x) (sc y).
Proof.
  intros Hx Hy Hnz.
  destruct y as [sy|sy| |sy my ey]; try (destruct Hy; discriminate);
    [now elim Hnz|].
  destruct x as [sx|sx| |sx mx ex]; try (destruct Hx; discriminate).
  - simpl F64.fmod. split; [exact Hx|]. now rewrite Z.rem_0_l.
  - unfold F64.fmod. rewrite !scaled_sc by assumption.
    set (X := sc (S754_finite sx mx ex)) in *.
    set (Y := sc (S754_finite sy my ey)) in *.
    destruct (Z.eq_dec (Z.rem X Y) 0) as [E|E].
    + rewrite E. simpl.
      split; [apply (fin_zero F64.prec F64.emax Hprec)|reflexivity].
    + pose proof (fin_exponent F64.prec F64.emax Hprec _ _ _ Hx) as Hex.
      pose proof (fin_exponent F64.prec F64.emax Hprec _ _ _ Hy) as Hey.
      destruct (fin_finite F64.prec F64.emax Hprec _ _ _ Hy) as [Hcy Hby].
      pose proof (binary_normalize_value F64.prec F64.emax Hprec
                    (Z.rem X Y) emin sx ltac:(lia) E) as H.
      cbv zeta in H. rewrite Z.sub_diag, Z.pow_0_r, Z.mul_1_r in H.
      set (R := Z.rem X Y) in *.
      set (e1 := fexp F64.prec F64.emax (Zdigits2 (Z.abs R) + emin)) in *.
      assert (HR : Z.abs R < Z.abs Y /\ Z.abs R <= Z.abs X).
      { unfold R. rewrite <- Z.rem_abs by exact Hnz.
        rewrite Z.rem_mod_nonneg by lia.
        split; [apply Z.mod_pos_bound; lia|apply Z.mod_le; lia]. }
      assert (He1 : emin <= e1 <= Z.min ex ey).
      { pose proof (sc_digits _ _ _ Hx). pose proof (sc_digits _ _ _ Hy).
        fold X in H0. fold Y in H1.
        pose proof (Zdigits2_mono F64.prec F64.emax Hprec (Z.abs R) (Z.abs X)
                      ltac:(lia)).
        pose proof (Zdigits2_mono F64.prec F64.emax Hprec (Z.abs R) (Z.abs Y)
                      ltac:(lia)).
        unfold e1. rewrite (fexp_max F64.prec F64.emax Hprec). lia. }
      assert (Hdiv : Z.abs R mod 2 ^ (e1 - emin) = 0).
      { apply Z.mod_divide; [pose proof (pow2_pos (e1 - emin)); lia|].
        apply Z.divide_abs_r.
        apply Z.divide_trans with (2 ^ (Z.min ex ey - emin)).
        - exists (2 ^ (Z.min ex ey - e1)).
          rewrite <- pow2_split by lia. f_equal. lia.
        - apply divide_rem; apply sc_divide; lia. }
      destruct H as [Ho|Hr].
      * exfalso.
        apply (overflows_below F64.prec F64.emax Hprec _ _ _ _ my ey Ho Hdiv);
          try lia; trivial.
        destruct (sc_finite_sign F64.prec F64.emax Hprec sy my ey Hey)
          as (_ & _ & Ha). fold Y in Ha. lia.
      * split; [exact (rounded_fin F64.prec F64.emax Hprec _ _ _ _ Hr)|].
        unfold Round.sc.
        rewrite (rounded_exact F64.prec F64.emax Hprec _ _ _ _ _ _
                   (pow2_pos (e1 - emin) ltac:(lia)) Hdiv Hr).
        destruct (Z.ltb_spec R 0); simpl; lia.
Qed.

(** *** Sums and differences of moderate size *)

(** The result of an addition or subtraction whose exact value [S] is far
    from the overflow threshold: a number of the format, of the sign of
    [S], and [S] itself when [S] fits the format. *)
Lemma sum_rounded_small (S : Z) (r : spec_float) :
  sum_rounded F64.prec F64.emax S r -> Z.abs S < 2 ^ 2000 ->
  fin r /\
  (0 <= S -> 0 <= sc r) /\ (S <= 0 -> sc r <= 0) /\
  (forall k : Z,
     emin <= k -> (2 ^ (k - emin) | S) ->
     Zdigits2 (Z.abs S) <= F64.prec + k - emin -> sc r = S) /\
  (forall B : Z,
     F64.prec <= B -> Z.abs S < 2 ^ B ->
     Z.abs (sc r - S) < 2 ^ (B - F64.prec)).
Proof.
  intros H Hsmall. unfold sum_rounded in H. cbv zeta in H.
  set (e1 := fexp F64.prec F64.emax (Zdigits2 (Z.abs S) + emin)) in *.
  destruct H as [(E & Hf & Hs)|(Hnz & [Ho|Hr])].
  - split; [exact Hf|]. rewrite Hs, E. repeat split; lia.
  - exfalso. apply overflows_size in Ho; [|exact Hprec].
    pose proof (Zdigits2_le (Z.abs S) 2000 ltac:(lia) Hsmall) as Hd.
    unfold e1 in Ho. rewrite (fexp_max F64.prec F64.emax Hprec) in Ho.
    unfold SpecFloat.emin, F64.prec, F64.emax in *. lia.
  - assert (He1 : emin <= e1)
      by (unfold e1; rewrite (fexp_max F64.prec F64.emax Hprec); lia).
    pose proof (pow2_pos (e1 - emin) ltac:(lia)) as Hg.
    pose proof (rounded_sign F64.prec F64.emax Hprec _ _ _ _ _ _
                  (Z.abs_nonneg S) Hg Hr) as Hsign.
    split; [exact (rounded_fin F64.prec F64.emax Hprec _ _ _ _ Hr)|].
    split; [|split; [|split]].
    + intros Hpos. destruct (Z.ltb_spec S 0); [lia|exact Hsign].
    + intros Hneg. destruct (Z.ltb_spec S 0); [exact Hsign|lia].
    + intros k Hk Hdiv Hd.
      assert (Hmod : Z.abs S mod 2 ^ (e1 - emin) = 0).
      { apply Z.mod_divide; [lia|]. apply Z.divide_abs_r.
        apply Z.divide_trans with (2 ^ (k - emin)); [|exact Hdiv].
        assert (e1 <= k)
          by (unfold e1; rewrite (fexp_max F64.prec F64.emax Hprec); lia).
        exists (2 ^ (k - e1)). rewrite <- pow2_split by lia. f_equal. lia. }
      unfold Round.sc.
      rewrite (rounded_exact F64.prec F64.emax Hprec _ _ _ _ _ _ Hg Hmod Hr).
      destruct (Z.ltb_spec S 0); simpl; lia.
    + intros B HB HS. unfold Round.sc.
      pose proof (rounded_near F64.prec F64.emax Hprec _ _ _ _ _ _
                    (Z.abs_nonneg S) Hg Hr) as (_ & Hnear & _).
      pose proof (Zdigits2_le (Z.abs S) B ltac:(lia) HS) as Hd.
      assert (Hle : 2 ^ (e1 - emin) <= 2 ^ (B - F64.prec)).
      { apply pow2_le. unfold e1.
        rewrite (fexp_max F64.prec F64.emax Hprec). lia. }
      destruct (Z.ltb_spec S 0); lia.
Qed.

Lemma add_small (x y : spec_float) :
  fin x -> fin y -> Z.abs (sc x + sc y) < 2 ^ 2000 ->
  fin (F64.add x y) /\
  (0 <= sc x + sc y -> 0 <= sc (F64.add x y)) /\
  (sc x + sc y <= 0 -> sc (F64.add x y) <= 0) /\
  (forall k : Z,
     emin <= k -> (2 ^ (k - emin) | sc x + sc y) ->
     Zdigits2 (Z.abs (sc x + sc y)) <= F64.prec + k - emin ->
     sc (F64.add x y) = sc x + sc y) /\
  (forall B : Z,
     F64.prec <= B -> Z.abs (sc x + sc y) < 2 ^ B ->
     Z.abs (sc (F64.add x y) - (sc x + sc y)) < 2 ^ (B - F64.prec)).
Proof.
  intros Hx Hy. apply sum_rounded_small.
  exact (SFadd_sum F64.prec F64.emax Hprec x y Hx Hy).
Qed.

Lemma sub_small (x y : spec_float) :
  fin x -> fin y -> Z.abs (sc x - sc y) < 2 ^ 2000 ->
  fin (F64.sub x y) /\
  (0 <= sc x - sc y -> 0 <= sc (F64.sub x y)) /\
  (sc x - sc y <= 0 -> sc (F64.sub x y) <= 0) /\
  (forall k : Z,
     emin <= k -> (2 ^ (k - emin) | sc x - sc y) ->
     Zdigits2 (Z.abs (sc x - sc y)) <= F64.prec + k - emin ->
     sc (F64.sub x y) = sc x - sc y) /\
  (forall B : Z,
     F64.prec <= B -> Z.abs (sc x - sc y) < 2 ^ B ->
     Z.abs (sc (F64.sub x y) - (sc x - sc y)) < 2 ^ (B - F64.prec)).
Proof.
  intros Hx Hy. apply sum_rounded_small.
  exact (SFsub_sum F64.prec F64.emax Hprec x y Hx Hy).
Qed.

Lemma fin_neg (x : spec_float) : fin x -> fin (F64.neg x).
Proof. destruct x; intros [Hv Hf]; split; trivial. Qed.

Lemma sc_neg (x : spec_float) : sc (F64.neg x) = - sc x.
Proof.
  destruct x as [s|s| |s m e]; try reflexivity.
  apply (sc_opp F64.prec F64.emax Hprec).
Qed.

End F64Facts.

(** ** The angle helpers on every finite double *)

Module AngleFacts.
Import Round RoundFacts F64Facts Angle.

Local Abbreviation fin := (Round.fin F64.prec F64.emax).
Local Abbreviation sc := (Round.sc F64.prec F64.emax).
Local Abbreviation emin := (SpecFloat.emin F64.prec F64.emax).

(** The constants: [two_pi] is [M_PI] with the next exponent. *)
Lemma two_pi_eq : two_pi = S754_finite false 7074237752028440 (-50).
Proof. vm_compute. reflexivity. Qed.

Lemma fin_M_PI : fin M_PI.
Proof. split; vm_compute; reflexivity. Qed.

Lemma fin_two_pi : fin two_pi.
Proof. rewrite two_pi_eq. split; vm_compute; reflexivity. Qed.

Lemma sc_two_pi : sc two_pi = 2 * sc M_PI.
Proof.
  rewrite two_pi_eq. unfold Round.sc, value_at, M_PI. simpl cond_Zopp.
  replace (-50 - emin) with (-51 - emin + 1) by lia.
  rewrite pow2_split by (vm_compute; discriminate). ring.
Qed.

Lemma sc_M_PI_bounds : 2 ^ 1075 <= sc M_PI < 2 ^ 1076.
Proof.
  split; [apply Z.leb_le|apply Z.ltb_lt]; vm_compute; reflexivity.
Qed.

Lemma sc_M_PI_pos : 0 < sc M_PI.
Proof.
  pose proof sc_M_PI_bounds. pose proof (pow2_pos 1075 ltac:(lia)). lia.
Qed.

Lemma pow2_1076_2000 : 2 ^ 1076 * 4 < 2 ^ 2000.
Proof. apply Z.ltb_lt. vm_compute. reflexivity. Qed.

(** [NormalizeAnglePositive]: a number of the format whose value is at
    least zero and below that of [two_pi]. *)
Lemma NormalizeAnglePositive_spec (a : spec_float) :
  fin a ->
  fin (NormalizeAnglePositive a) /\
  0 <= sc (NormalizeAnglePositive a) < 2 * sc M_PI.
Proof.
  intros Ha. unfold NormalizeAnglePositive.
  pose proof sc_M_PI_pos as HP. pose proof sc_M_PI_bounds as HB.
  pose proof pow2_1076_2000 as Hbig. pose proof sc_two_pi as E2.
  assert (HT : sc two_pi <> 0) by lia.
  destruct (fmod_spec a two_pi Ha fin_two_pi HT) as [Hf1 Hs1].
  pose proof (Z.rem_bound_abs (sc a) (sc two_pi) HT) as Hb1.
  rewrite <- Hs1 in Hb1.
  set (r1 := F64.fmod a two_pi) in *.
  destruct (add_small r1 two_pi Hf1 fin_two_pi) as (Hf2 & Hpos & _ & _ & _);
    [lia|].
  specialize (Hpos ltac:(lia)).
  set (s := F64.add r1 two_pi) in *.
  destruct (fmod_spec s two_pi Hf2 fin_two_pi HT) as [Hf3 Hs3].
  split; [exact Hf3|]. rewrite Hs3, <- E2.
  apply Z.rem_bound_pos; lia.
Qed.

(** A number of the format above [M_PI] has an exponent that is at least
    that of [M_PI], hence a value on the grid of [M_PI]. *)
Lemma above_M_PI_grid (x : spec_float) :
  fin x -> sc M_PI < sc x -> (2 ^ (-51 - emin) | sc x).
Proof.
  intros Hx Hgt. pose proof sc_M_PI_pos as HP.
  destruct x as [s|s| |s m e];
    [change (sc (S754_zero s)) with 0 in Hgt; lia
    |change (sc (S754_infinity s)) with 0 in Hgt; lia
    |change (sc S754_nan) with 0 in Hgt; lia
    |].
  pose proof (fin_exponent F64.prec F64.emax Hprec s m e Hx) as He.
  destruct (fin_finite F64.prec F64.emax Hprec s m e Hx) as [Hc _].
  destruct (Z.lt_ge_cases e (-51)) as [Hlt|Hge].
  - exfalso.
    assert (HcP : canonical_mantissa F64.prec F64.emax
                    7074237752028440 (-51) = true) by reflexivity.
    pose proof (canonical_lt F64.prec F64.emax Hprec m 7074237752028440
                  e (-51) Hc HcP Hlt) as Hcmp.
    destruct (sc_finite_sign F64.prec F64.emax Hprec s m e He)
      as (_ & _ & Habs).
    change (Z.pos 7074237752028440 * 2 ^ (-51 - emin)) with (sc M_PI)
      in Hcmp.
    lia.
  - apply sc_divide. unfold SpecFloat.emin, F64.prec, F64.emax. lia.
Qed.

(** Between [M_PI] and [two_pi] the subtraction of [two_pi], either way
    round, is exact. *)
Lemma sub_two_pi_exact (p : spec_float) :
  fin p -> sc M_PI < sc p < 2 * sc M_PI ->
  (fin (F64.sub p two_pi) /\ sc (F64.sub p two_pi) = sc p - sc two_pi) /\
  (fin (F64.sub two_pi p) /\ sc (F64.sub two_pi p) = sc two_pi - sc p).
Proof.
  intros Hf Hr.
  pose proof sc_M_PI_pos as HP. pose proof sc_M_PI_bounds as HB.
  pose proof pow2_1076_2000 as Hbig. pose proof sc_two_pi as E2.
  assert (Hk : emin <= -51) by (vm_compute; discriminate).
  assert (Hlt1 : Z.abs (sc p - sc two_pi) < 2 ^ 1076) by lia.
  assert (Hlt2 : Z.abs (sc two_pi - sc p) < 2 ^ 1076) by lia.
  assert (Hd1 : Zdigits2 (Z.abs (sc p - sc two_pi)) <= F64.prec + -51 - emin).
  { replace (F64.prec + -51 - emin) with 1076 by reflexivity.
    apply Zdigits2_le; [lia|exact Hlt1]. }
  assert (Hd2 : Zdigits2 (Z.abs (sc two_pi - sc p)) <= F64.prec + -51 - emin).
  { replace (F64.prec + -51 - emin) with 1076 by reflexivity.
    apply Zdigits2_le; [lia|exact Hlt2]. }
  destruct (sub_small p two_pi Hf fin_two_pi ltac:(lia))
    as (Hf1 & _ & _ & Hex1 & _).
  destruct (sub_small two_pi p fin_two_pi Hf ltac:(lia))
    as (Hf2 & _ & _ & Hex2 & _).
  assert (Hgp : (2 ^ (-51 - emin) | sc p))
    by (apply above_M_PI_grid; [exact Hf|lia]).
  assert (Hgt : (2 ^ (-51 - emin) | sc two_pi)).
  { rewrite two_pi_eq. apply sc_divide. vm_compute. split; discriminate. }
  split; (split; [assumption|]).
  - apply (Hex1 (-51) Hk); [now apply Z.divide_sub_r|exact Hd1].
  - apply (Hex2 (-51) Hk); [now apply Z.divide_sub_r|exact Hd2].
Qed.

(** [NormalizeAngle]: a number of the format whose value is above that of
    [-M_PI] and at most that of [M_PI]. *)
Lemma NormalizeAngle_spec (a : spec_float) :
  fin a ->
  fin (NormalizeAngle a) /\
  - sc M_PI < sc (NormalizeAngle a) <= sc M_PI.
Proof.
  intros Ha. unfold NormalizeAngle.
  pose proof sc_M_PI_pos as HP. pose proof sc_two_pi as E2.
  destruct (NormalizeAnglePositive_spec a Ha) as [Hf Hr].
  set (p := NormalizeAnglePositive a) in *.
  rewrite (ltb_sc M_PI p fin_M_PI Hf).
  destruct (Z.ltb_spec (sc M_PI) (sc p)) as [Hgt|Hle].
  - destruct (sub_two_pi_exact p Hf ltac:(lia)) as [[Hf2 Hs2] _].
    split; [exact Hf2|]. lia.
  - split; [exact Hf|]. lia.
Qed.

(** *** The values up to whole turns *)

Lemma pow2_1025 : 2 ^ 1024 + 2 ^ 1025 + 2 ^ 1025 < 2 ^ 1027.
Proof. apply Z.ltb_lt. vm_compute. reflexivity. Qed.

Lemma pow2_1076_1077 : 2 * 2 ^ 1076 = 2 ^ 1077 /\ 2 * 2 ^ 1077 = 2 ^ 1078.
Proof. split; vm_compute; reflexivity. Qed.

(** [NormalizeAnglePositive] and [NormalizeAngle] move a value by a whole
    number of turns of [two_pi], up to the rounding of one addition. *)
Lemma NormalizeAnglePositive_turns (x : spec_float) :
  fin x ->
  exists k : Z,
    Z.abs (sc (NormalizeAnglePositive x) - sc x - k * sc two_pi) < 2 ^ 1025.
Proof.
  intros Hx. unfold NormalizeAnglePositive.
  pose proof sc_M_PI_pos as HP. pose proof sc_M_PI_bounds as HB.
  pose proof pow2_1076_2000 as Hbig. pose proof sc_two_pi as E2.
  destruct pow2_1076_1077 as [E76 E77].
  assert (HT : sc two_pi <> 0) by lia.
  destruct (fmod_spec x two_pi Hx fin_two_pi HT) as [Hf1 Hs1].
  pose proof (Z.rem_bound_abs (sc x) (sc two_pi) HT) as Hb1.
  rewrite <- Hs1 in Hb1.
  pose proof (Z.quot_rem' (sc x) (sc two_pi)) as Hq1. rewrite <- Hs1 in Hq1.
  set (r1 := F64.fmod x two_pi) in *.
  destruct (add_small r1 two_pi Hf1 fin_two_pi) as (Hf2 & _ & _ & _ & Herr);
    [lia|].
  specialize (Herr 1078 ltac:(vm_compute; discriminate) ltac:(lia)).
  change (1078 - F64.prec) with 1025 in Herr.
  set (s := F64.add r1 two_pi) in *.
  destruct (fmod_spec s two_pi Hf2 fin_two_pi HT) as [Hf3 Hs3].
  pose proof (Z.quot_rem' (sc s) (sc two_pi)) as Hq3. rewrite <- Hs3 in Hq3.
  exists (1 - sc x ÷ sc two_pi - sc s ÷ sc two_pi).
  replace (sc (F64.fmod s two_pi) - sc x
           - (1 - sc x ÷ sc two_pi - sc s ÷ sc two_pi) * sc two_pi)
    with (sc s - (sc r1 + sc two_pi)); [exact Herr|].
  fold s. set (q1 := sc x ÷ sc two_pi) in *.
  set (q3 := sc s ÷ sc two_pi) in *. clearbody q1 q3. nia.
Qed.

Lemma NormalizeAngle_turns (x : spec_float) :
  fin x ->
  exists k : Z,
    Z.abs (sc (NormalizeAngle x) - sc x - k * sc two_pi) < 2 ^ 1025.
Proof.
  intros Hx. unfold NormalizeAngle.
  pose proof sc_M_PI_pos as HP. pose proof sc_two_pi as E2.
  destruct (NormalizeAnglePositive_spec x Hx) as [Hf Hr].
  destruct (NormalizeAnglePositive_turns x Hx) as [k Hk].
  set (p := NormalizeAnglePositive x) in *.
  rewrite (ltb_sc M_PI p fin_M_PI Hf).
  destruct (Z.ltb_spec (sc M_PI) (sc p)) as [Hgt|Hle].
  - destruct (sub_two_pi_exact p Hf ltac:(lia)) as [[Hf2 Hs2] _].
    exists (k - 1). rewrite Hs2.
    replace (sc p - sc two_pi - sc x - (k - 1) * sc two_pi)
      with (sc p - sc x - k * sc two_pi) by ring.
    exact Hk.
  - exists k. exact Hk.
Qed.

(** *** [ShortestAngularDistance] *)

Lemma sub_diag (p : spec_float) : fin p -> F64.sub p p = S754_zero false.
Proof.
  intros Hp. destruct p as [s|s| |s m e]; try (destruct Hp; discriminate).
  - now destruct s.
  - unfold F64.sub, SFsub. now rewrite Z.sub_diag.
Qed.

Lemma ShortestAngularDistance_self (a : spec_float) :
  fin a -> ShortestAngularDistance a a = S754_zero false.
Proof.
  intros Ha. unfold ShortestAngularDistance.
  destruct (NormalizeAnglePositive_spec a Ha) as [Hf _].
  rewrite (sub_diag _ Hf). vm_compute. reflexivity.
Qed.

Lemma ShortestAngularDistance_spec (from to : spec_float) :
  fin from -> fin to ->
  fin (ShortestAngularDistance from to) /\
  - sc M_PI < sc (ShortestAngularDistance from to) <= sc M_PI /\
  exists k : Z,
    Z.abs (sc (ShortestAngularDistance from to)
           - (sc (NormalizeAnglePositive to)
              - sc (NormalizeAnglePositive from))
           - k * sc two_pi) < 2 ^ 1027.
Proof.
  intros Hfrom Hto. unfold ShortestAngularDistance.
  pose proof sc_M_PI_pos as HP. pose proof sc_M_PI_bounds as HB.
  pose proof pow2_1076_2000 as Hbig. pose proof sc_two_pi as E2.
  pose proof pow2_1025 as H1025. destruct pow2_1076_1077 as [E76 E77].
  destruct (NormalizeAnglePositive_spec from Hfrom) as [Hf1 Hr1].
  destruct (NormalizeAnglePositive_spec to Hto) as [Hf2 Hr2].
  set (F := NormalizeAnglePositive from) in *.
  set (G := NormalizeAnglePositive to) in *.
  destruct (sub_small G F Hf2 Hf1) as (Hfd & _ & _ & _ & Herr); [lia|].
  specialize (Herr 1077 ltac:(vm_compute; discriminate) ltac:(lia)).
  change (1077 - F64.prec) with 1024 in Herr.
  set (d := F64.sub G F) in *.
  destruct (NormalizeAnglePositive_spec d Hfd) as [Hfr Hrr].
  destruct (NormalizeAnglePositive_turns d Hfd) as [k1 Hk1].
  set (r := NormalizeAnglePositive d) in *.
  rewrite (ltb_sc M_PI r fin_M_PI Hfr).
  assert (Hrefl : exists r2 : spec_float,
             (if sc M_PI <? sc r then F64.neg (F64.sub two_pi r) else r) = r2
             /\ fin r2 /\
             (sc r2 = sc r \/ sc r2 = sc r - sc two_pi)).
  { destruct (Z.ltb_spec (sc M_PI) (sc r)) as [Hgt|Hle].
    - destruct (sub_two_pi_exact r Hfr ltac:(lia)) as [_ [Hf3 Hs3]].
      eexists. split; [reflexivity|]. split; [now apply fin_neg|].
      right. rewrite sc_neg, Hs3. ring.
    - exists r. auto. }
  destruct Hrefl as (r2 & -> & Hf3 & Hs3).
  destruct (NormalizeAngle_spec r2 Hf3) as [Hf4 Hr4].
  destruct (NormalizeAngle_turns r2 Hf3) as [k3 Hk3].
  split; [exact Hf4|]. split; [exact Hr4|].
  destruct Hs3 as [E|E]; [exists (k1 + k3)|exists (k1 + k3 - 1)].
  - replace (sc (NormalizeAngle r2) - (sc G - sc F) - (k1 + k3) * sc two_pi)
      with ((sc (NormalizeAngle r2) - sc r2 - k3 * sc two_pi)
            + (sc r - sc d - k1 * sc two_pi) + (sc d - (sc G - sc F)))
      by (rewrite E; ring).
    lia.
  - replace (sc (NormalizeAngle r2) - (sc G - sc F)
             - (k1 + k3 - 1) * sc two_pi)
      with ((sc (NormalizeAngle r2) - sc r2 - k3 * sc two_pi)
            + (sc r - sc d - k1 * sc two_pi) + (sc d - (sc G - sc F)))
      by (rewrite E; ring).
    lia.
Qed.

(** *** The claims on the doubles themselves *)

Lemma fin_of (x : spec_float) :
  F64.valid x = true -> Float.is_finite x = true -> fin x.
Proof. intros Hv Hf. split; assumption. Qed.

(** C3: for every finite double [a], [NormalizeAnglePositive(a)] is at
    least 0 and less than the double [2.0 * M_PI], which is less than
    2 pi, and [NormalizeAngle(a)] is greater than [-M_PI], which is
    greater than -pi, and at most [M_PI], which is less than pi. *)
Theorem angles_in_range (a : spec_float)
  (Hvalid : F64.valid a = true) (Hfinite : Float.is_finite a = true) :
  F64.leb (F64.of_Z 0) (NormalizeAnglePositive a) = true /\
  F64.ltb (NormalizeAnglePositive a) two_pi = true /\
  F64.ltb (F64.neg M_PI) (NormalizeAngle a) = true /\
  F64.leb (NormalizeAngle a) M_PI = true.
Proof.
  pose proof (fin_of a Hvalid Hfinite) as Ha.
  destruct (NormalizeAnglePositive_spec a Ha) as [Hf1 Hr1].
  destruct (NormalizeAngle_spec a Ha) as [Hf2 Hr2].
  pose proof sc_two_pi as E2.
  change (F64.of_Z 0) with (S754_zero false).
  rewrite (leb_sc _ _ (fin_zero F64.prec F64.emax Hprec false) Hf1).
  rewrite (ltb_sc _ _ Hf1 fin_two_pi).
  rewrite (ltb_sc _ _ (fin_neg _ fin_M_PI) Hf2), sc_neg.
  rewrite (leb_sc _ _ Hf2 fin_M_PI).
  change (sc (S754_zero false)) with 0.
  repeat split; first [apply Z.leb_le|apply Z.ltb_lt]; lia.
Qed.

Lemma angles_in_range_witness :
  let a := decimal (-1) 2 in
  let b := F64.add (F64.mul (F64.of_Z 100) M_PI) (decimal 3 10) in
  (F64.valid a = true /\ Float.is_finite a = true /\
   F64.leb (F64.of_Z 0) (NormalizeAnglePositive a) = true /\
   F64.ltb (NormalizeAnglePositive a) two_pi = true) /\
  (F64.valid b = true /\ Float.is_finite b = true /\
   F64.ltb (F64.neg M_PI) (NormalizeAngle b) = true /\
   F64.leb (NormalizeAngle b) M_PI = true).
Proof.
  intros a b.
  assert (Hva : F64.valid a = true) by (vm_compute; reflexivity).
  assert (Hfa : Float.is_finite a = true) by (vm_compute; reflexivity).
  assert (Hvb : F64.valid b = true) by (vm_compute; reflexivity).
  assert (Hfb : Float.is_finite b = true) by (vm_compute; reflexivity).
  destruct (angles_in_range a Hva Hfa) as (A1 & A2 & _ & _).
  destruct (angles_in_range b Hvb Hfb) as (_ & _ & B3 & B4).
  repeat split; assumption.
Defined.

(** The third relation of C4 as the specification has it fails.  From
    -2.9 to [M_PI] the distance is about -0.2416 and -2.9 plus the
    distance normalizes to about -pi, but [M_PI] normalizes to itself:
    the two sides are more than 6 apart.  From 1e300 to 0 the distance is
    lost in the sum with 1e300, and the two sides are about 0.72 apart. *)
Lemma recomposition_fails :
  (let from := decimal (-29) 10 in
   let to := M_PI in
   F64.ltb (F64.of_Z 6)
     (F64.sub (NormalizeAngle to)
        (NormalizeAngle (F64.add from (ShortestAngularDistance from to))))
   = true) /\
  (let from := F64.of_Z (10 ^ 300) in
   let to := F64.of_Z 0 in
   within (decimal 72 100) (decimal 73 100)
     (F64.sub (NormalizeAngle to)
        (NormalizeAngle (F64.add from (ShortestAngularDistance from to))))
   = true).
Proof. split; vm_compute; reflexivity. Qed.

(** C4, amended: for every finite double [a],
    [ShortestAngularDistance(a, a)] is +0; for every pair of finite
    doubles the distance is greater than [-M_PI] and at most [M_PI], so
    its magnitude is at most pi; and the distance is
    [NormalizeAnglePositive(to) - NormalizeAnglePositive(from)] up to a
    whole number of turns of [2.0 * M_PI] and an error below 2^-47 (the
    values are counted in units of 2^-1074). *)
Theorem ShortestAngularDistance_props (a from to : spec_float)
  (Ha : F64.valid a = true /\ Float.is_finite a = true)
  (Hfrom : F64.valid from = true /\ Float.is_finite from = true)
  (Hto : F64.valid to = true /\ Float.is_finite to = true) :
  ShortestAngularDistance a a = F64.of_Z 0 /\
  F64.ltb (F64.neg M_PI) (ShortestAngularDistance from to) = true /\
  F64.leb (ShortestAngularDistance from to) M_PI = true /\
  exists k : Z,
    Z.abs (F64.scaled (ShortestAngularDistance from to)
           - (F64.scaled (NormalizeAnglePositive to)
              - F64.scaled (NormalizeAnglePositive from))
           - k * F64.scaled two_pi) < 2 ^ 1027.
Proof.
  destruct (ShortestAngularDistance_spec from to Hfrom Hto)
    as (Hf & Hr & k & Hk).
  destruct (NormalizeAnglePositive_spec from Hfrom) as [Hf1 _].
  destruct (NormalizeAnglePositive_spec to Hto) as [Hf2 _].
  split; [exact (ShortestAngularDistance_self a Ha)|].
  rewrite (ltb_sc _ _ (fin_neg _ fin_M_PI) Hf), sc_neg.
  rewrite (leb_sc _ _ Hf fin_M_PI).
  split; [apply Z.ltb_lt; lia|]. split; [apply Z.leb_le; lia|].
  exists k. rewrite !scaled_sc by (assumption || exact fin_two_pi).
  exact Hk.
Qed.

Lemma ShortestAngularDistance_props_witness :
  let a := decimal (-29) 10 in
  let from := F64.of_Z 3 in
  let to := F64.of_Z (-3) in
  ShortestAngularDistance a a = F64.of_Z 0 /\
  F64.ltb (F64.neg M_PI) (ShortestAngularDistance from to) = true /\
  F64.leb (ShortestAngularDistance from to) M_PI = true.
Proof.
  intros a from to.
  assert (Ha : F64.valid a = true /\ Float.is_finite a = true)
    by (split; vm_compute; reflexivity).
  assert (Hfrom : F64.valid from = true /\ Float.is_finite from = true)
    by (split; vm_compute; reflexivity).
  assert (Hto : F64.valid to = true /\ Float.is_finite to = true)
    by (split; vm_compute; reflexivity).
  destruct (ShortestAngularDistance_props a from to Ha Hfrom Hto)
    as (H1 & H2 & H3 & _).
  repeat split; assumption.
Defined.

End AngleFacts.

(** ** The scaled floating-point fields *)

Module F32Facts.
Import Round RoundFacts.

Local Abbreviation fin := (Round.fin F32.prec F32.emax).
Local Abbreviation sc := (Round.sc F32.prec F32.emax).
Local Abbreviation emin := (SpecFloat.emin F32.prec F32.emax).

Lemma Hprec32 : 0 < F32.prec.
Proof. reflexivity. Qed.

Lemma scaled_sc32 (x : spec_float) : fin x -> F32.scaled x = sc x.
Proof.
  intros Hx. destruct x as [s|s| |s m e]; try reflexivity.
  pose proof (fin_exponent F32.prec F32.emax Hprec32 s m e Hx) as He.
  unfold F32.scaled, Round.sc, value_at.
  now rewrite Z.shiftl_mul_pow2 by lia.
Qed.

(** *** Integer parts on a grid *)

Lemma floor_grid_lower (V g B : Z) :
  0 < g -> (g | B) -> B <= V -> B <= V / g * g.
Proof.
  intros Hg [c ->] Hle.
  assert (c <= V / g) by (apply Z.div_le_lower_bound; lia). nia.
Qed.

Lemma floor_grid_upper (V g B : Z) :
  0 < g -> (g | B) -> V < B -> V / g * g + g <= B.
Proof.
  intros Hg [c ->] Hlt.
  assert (V / g < c) by (apply Z.div_lt_upper_bound; lia). nia.
Qed.

(** A value [W] that is [V] rounded to a grid [g] that divides the unit
    [U], or [V] itself, has an integer part within one unit of [V]. *)
Lemma trunc_near (V W g U : Z) :
  0 <= V -> 0 < g -> 0 < U ->
  V / g * g <= W <= V / g * g + g ->
  (V mod g = 0 -> W = V) ->
  (V mod g <> 0 -> (g | U)) ->
  Z.abs (W / U * U - V) < U.
Proof.
  intros HV Hg HU Hnear Hex Hgrid.
  destruct (Z.eq_dec (V mod g) 0) as [E|E].
  - rewrite (Hex E).
    pose proof (Z.div_mod V U ltac:(lia)).
    pose proof (Z.mod_pos_bound V U HU). lia.
  - specialize (Hgrid E).
    pose proof (Z.div_mod V U ltac:(lia)) as Hdm.
    pose proof (Z.mod_pos_bound V U HU) as Hb.
    set (a := V / U) in *.
    assert (Hga : (g | a * U)) by now apply Z.divide_mul_r.
    assert (Hga1 : (g | (a + 1) * U)) by now apply Z.divide_mul_r.
    pose proof (floor_grid_lower V g (a * U) Hg Hga ltac:(lia)) as Hlo.
    pose proof (floor_grid_upper V g ((a + 1) * U) Hg Hga1 ltac:(lia)) as Hhi.
    assert (Hne : V <> a * U).
    { intros Heq. apply E. apply Z.mod_divide; [lia|]. now rewrite Heq. }
    destruct (Z.eq_dec W ((a + 1) * U)) as [Ew|Ew].
    + rewrite Ew, Z.div_mul by lia. lia.
    + assert (Hq : W / U = a).
      { symmetry. apply (Z.div_unique W U a (W - a * U)); lia. }
      rewrite Hq. lia.
Qed.

Lemma shiftl_scaled (m e k : Z) :
  0 <= m -> 0 <= k -> 0 <= e + k -> Z.shiftl m e = m * 2 ^ (e + k) / 2 ^ k.
Proof.
  intros Hm Hk Hek. pose proof (pow2_pos k Hk) as Hp.
  destruct (Z.le_gt_cases 0 e) as [He|He].
  - rewrite Z.shiftl_mul_pow2 by lia. rewrite pow2_split by lia.
    rewrite Z.mul_assoc. rewrite Z.div_mul; lia.
  - rewrite <- (Z.opp_involutive e) at 1.
    rewrite Z.shiftl_opp_r, Z.shiftr_div_pow2 by lia.
    replace k with (- e + (e + k)) at 2 by lia.
    rewrite (pow2_split (- e) (e + k)) by lia.
    pose proof (pow2_pos (e + k) Hek).
    now rewrite Z.div_mul_cancel_r by lia.
Qed.

(** The truncation of a finite number, on its value in units of [2^-k]. *)
Lemma trunc_finite (sx : bool) (m : positive) (e k : Z) :
  0 <= k -> 0 <= e + k ->
  Float.trunc (S754_finite sx m e)
  = Some (cond_Zopp sx (Z.pos m * 2 ^ (e + k) / 2 ^ k)).
Proof.
  intros Hk Hek. simpl. now rewrite (shiftl_scaled _ e k) by lia.
Qed.

Lemma toward_zero_quot (sx : bool) (w u : Z) :
  0 <= w -> 0 < u ->
  BufFloat.toward_zero (cond_Zopp sx (w / u)) (cond_Zopp sx w) u.
Proof.
  intros Hw Hu. pose proof (Z.div_mod w u ltac:(lia)) as Hdm.
  pose proof (Z.mod_pos_bound w u Hu) as Hb.
  assert (0 <= w / u) by (apply Z.div_pos; lia).
  unfold BufFloat.toward_zero. destruct sx; simpl; split; intros; nia.
Qed.

(** *** The truncated product *)

Lemma sc_mul_sign (sx sy : bool) (mx my : positive) (ex ey : Z) :
  sc (S754_finite sx mx ex) * sc (S754_finite sy my ey)
  = cond_Zopp (xorb sx sy)
      (Z.pos mx * 2 ^ (ex - emin) * (Z.pos my * 2 ^ (ey - emin))).
Proof. unfold Round.sc, value_at. destruct sx, sy; simpl; ring. Qed.

Lemma abs_cond_Zopp (s : bool) (z : Z) : Z.abs (cond_Zopp s z) = Z.abs z.
Proof. destruct s; simpl; lia. Qed.

(** What the conversion of the single precision product to an integer
    gives, against the exact product of the two values (in units of
    2^-298, the integer unit being 2^298): the integer is the product
    rounded to single precision and then toward zero; it is within one
    unit of the exact product when that is below 2^24; it is at least
    2^24 in magnitude otherwise. *)
Lemma mul_trunc (v s : spec_float) (n : Z) :
  fin v -> fin s -> Float.trunc (F32.mul v s) = Some n ->
  BufFloat.toward_zero n (F32.scaled (F32.mul v s)) (2 ^ 149) /\
  (Z.abs (sc v * sc s) < 2 ^ 24 * 2 ^ 298 ->
   Z.abs (n * 2 ^ 298 - sc v * sc s) < 2 ^ 298) /\
  (2 ^ 24 * 2 ^ 298 <= Z.abs (sc v * sc s) -> 2 ^ 24 <= Z.abs n).
Proof.
  intros Hv Hs Ht.
  pose proof (pow2_pos 149 ltac:(lia)) as H149.
  pose proof (pow2_pos 298 ltac:(lia)) as H298.
  pose proof (pow2_pos 24 ltac:(lia)) as H24.
  assert (Hzero : forall z : bool,
             F32.mul v s = S754_zero z -> sc v * sc s = 0 ->
             BufFloat.toward_zero n (F32.scaled (F32.mul v s)) (2 ^ 149) /\
             (Z.abs (sc v * sc s) < 2 ^ 24 * 2 ^ 298 ->
              Z.abs (n * 2 ^ 298 - sc v * sc s) < 2 ^ 298) /\
             (2 ^ 24 * 2 ^ 298 <= Z.abs (sc v * sc s) -> 2 ^ 24 <= Z.abs n)).
  { intros z Hz HV. rewrite Hz in Ht |- *. simpl in Ht.
    injection Ht as <-. rewrite HV. simpl F32.scaled.
    unfold BufFloat.toward_zero. repeat split; lia. }
  destruct v as [sx|sx| |sx mx ex]; try (destruct Hv; discriminate);
    destruct s as [sy|sy| |sy my ey]; try (destruct Hs; discriminate);
    try (apply (Hzero (xorb sx sy));
         first [reflexivity|apply Z.mul_0_r]).
  clear Hzero.
  destruct (SFmul_value F32.prec F32.emax Hprec32 sx sy mx my ex ey
              ltac:(vm_compute; discriminate) Hv Hs) as [He1 [Ho|Hr]];
    [destruct Ho as [Hinf _]; unfold F32.mul in Ht; rewrite Hinf in Ht;
     discriminate|].
  rewrite sc_mul_sign.
  set (V := Z.pos mx * 2 ^ (ex - emin) * (Z.pos my * 2 ^ (ey - emin))) in *.
  set (e1 := fexp F32.prec F32.emax
               (Zdigits2 (Z.pos (mx * my)) + (ex + ey))) in *.
  change (SFmul F32.prec F32.emax (S754_finite sx mx ex)
            (S754_finite sy my ey))
    with (F32.mul (S754_finite sx mx ex) (S754_finite sy my ey)) in Hr.
  set (p := F32.mul (S754_finite sx mx ex) (S754_finite sy my ey)) in *.
  pose proof (fin_exponent F32.prec F32.emax Hprec32 _ _ _ Hv) as Hex.
  pose proof (fin_exponent F32.prec F32.emax Hprec32 _ _ _ Hs) as Hey.
  assert (HVpos : 0 < V).
  { unfold V. pose proof (pow2_pos (ex - emin) ltac:(lia)).
    pose proof (pow2_pos (ey - emin) ltac:(lia)). nia. }
  assert (Hemin : emin <= e1)
    by (unfold e1; rewrite (fexp_max F32.prec F32.emax Hprec32); lia).
  assert (Hg : 0 < 2 ^ (e1 - 2 * emin)) by (apply pow2_pos; lia).
  set (g := 2 ^ (e1 - 2 * emin)) in *.
  set (W := Z.abs (value_at (2 * emin) p)).
  pose proof (rounded_near F32.prec F32.emax Hprec32 _ _ _ _ _ _
                (Z.lt_le_incl _ _ HVpos) Hg Hr) as (Hnear & _ & _).
  fold W in Hnear.
  assert (Hexact : V mod g = 0 -> W = V).
  { intros Hmod. unfold W.
    rewrite (rounded_exact F32.prec F32.emax Hprec32 _ _ _ _ _ _ Hg Hmod Hr).
    rewrite abs_cond_Zopp. lia. }
  (* the digits of the exact product *)
  assert (HdV : Zdigits2 V = Zdigits2 (Z.pos (mx * my)) + (ex + ey) - 2 * emin).
  { unfold V.
    replace (Z.pos mx * 2 ^ (ex - emin) * (Z.pos my * 2 ^ (ey - emin)))
      with (Z.pos (mx * my) * 2 ^ (ex + ey - 2 * emin)).
    - rewrite Zdigits2_mul by lia. lia.
    - rewrite Pos2Z.inj_mul.
      replace (ex + ey - 2 * emin) with (ex - emin + (ey - emin)) by lia.
      rewrite pow2_split by lia. ring. }
  (* the integer and the value of the rounded product *)
  assert (Hn : n = cond_Zopp (xorb sx sy) (W / 2 ^ 298) /\
               BufFloat.toward_zero n (F32.scaled p) (2 ^ 149)).
  { destruct Hr as [_ [Hz|(m3 & e3 & Hp & Hlo & Hhi & Hc)]].
    - unfold W. rewrite Hz in Ht |- *. simpl in Ht. injection Ht as <-.
      simpl. split; [now destruct (xorb sx sy)|].
      unfold BufFloat.toward_zero. split; lia.
    - destruct (canonical_exponent F32.prec F32.emax Hprec32 m3 e3 (Hc I))
        as (_ & Hm3 & _).
      assert (Hk1 : 0 <= e3 + 149) by (change emin with (-149) in Hm3; lia).
      unfold W. rewrite Hp in Ht |- *.
      pose proof (pow2_pos (e3 + 149) Hk1) as Hp1.
      rewrite (trunc_finite _ m3 e3 149) in Ht by lia.
      injection Ht as <-. split.
      + pose proof (trunc_finite (xorb sx sy) m3 e3 298 ltac:(lia)
                      ltac:(lia)) as T2.
        rewrite (trunc_finite _ m3 e3 149) in T2 by lia.
        injection T2 as ->. f_equal. f_equal.
        unfold value_at. rewrite abs_cond_Zopp.
        change (2 * emin) with (-298).
        replace (e3 - -298) with (e3 + 298) by lia.
        pose proof (pow2_pos (e3 + 298) ltac:(lia)). lia.
      + unfold F32.scaled. rewrite Z.shiftl_mul_pow2
          by (change (SpecFloat.emin F32.prec F32.emax) with (-149); lia).
        change (SpecFloat.emin F32.prec F32.emax) with (-149).
        replace (e3 - -149) with (e3 + 149) by lia.
        apply toward_zero_quot; lia. }
  destruct Hn as [Hn Htz]. split; [exact Htz|].
  assert (Herr : n * 2 ^ 298 - cond_Zopp (xorb sx sy) V
                 = cond_Zopp (xorb sx sy) (W / 2 ^ 298 * 2 ^ 298 - V))
    by (rewrite Hn; destruct (xorb sx sy); simpl; ring).
  rewrite Herr, !abs_cond_Zopp.
  replace (Z.abs V) with V by lia.
  split.
  - intros Hsmall. apply (trunc_near V W g); try lia. intros _.
    assert (Hd : Zdigits2 V <= 24 + 298).
    { apply Zdigits2_le; [lia|]. rewrite pow2_split by lia. lia. }
    assert (He1' : e1 <= 0).
    { unfold e1. rewrite (fexp_max F32.prec F32.emax Hprec32).
      change emin with (-149) in *. change F32.prec with 24. lia. }
    exists (2 ^ (- e1)). unfold g. rewrite <- pow2_split
      by (change emin with (-149) in *; lia).
    f_equal. change emin with (-149). lia.
  - intros Hbig.
    assert (Hd : 24 + 298 < Zdigits2 V).
    { apply Zdigits2_ge; [lia|]. rewrite pow2_split by lia. lia. }
    pose proof (Zdigits2_bounds V HVpos) as [HB _].
    assert (Hdiv : (g | 2 ^ (Zdigits2 V - 1))).
    { exists (2 ^ (Zdigits2 V - 1 - (e1 - 2 * emin))). unfold g.
      assert (e1 - 2 * emin <= Zdigits2 V - 1).
      { unfold e1. rewrite (fexp_max F32.prec F32.emax Hprec32).
        change emin with (-149) in *. change F32.prec with 24. lia. }
      rewrite <- pow2_split by lia. f_equal. lia. }
    pose proof (floor_grid_lower V g _ Hg Hdiv HB) as Hlo.
    pose proof (pow2_le (24 + 298) (Zdigits2 V - 1) ltac:(lia)) as Hpw.
    rewrite pow2_split in Hpw by lia.
    assert (2 ^ 24 <= W / 2 ^ 298) by (apply Z.div_le_lower_bound; lia).
    rewrite Hn, abs_cond_Zopp. lia.
Qed.

End F32Facts.

Module BufFloatFacts.
Import Int Buf BufFloat F32Facts.

Local Abbreviation fin := (Round.fin F32.prec F32.emax).

(** A product that converts to an integer has finite factors. *)
Lemma mul_finite (v s : spec_float) (n : Z) :
  Float.trunc (F32.mul v s) = Some n ->
  Float.is_finite v = true /\ Float.is_finite s = true.
Proof.
  destruct v as [sx|sx| |sx mx ex], s as [sy|sy| |sy my ey]; simpl;
    intros H; try discriminate H; auto.
Qed.

Lemma to_int16_Some (x : spec_float) (n : Z) :
  F32.to_int16 x = Some n <-> Float.trunc x = Some n /\ in_int16 n.
Proof.
  unfold F32.to_int16, in_int16. destruct (Float.trunc x) as [z|]; simpl.
  - case_bool_decide; split.
    + intros [= <-]. auto.
    + intros [[= <-] _]. reflexivity.
    + discriminate.
    + intros [[= <-] Hn]. contradiction.
  - split; [discriminate|intros [H _]; discriminate H].
Qed.

Lemma to_int32_Some (x : spec_float) (n : Z) :
  F32.to_int32 x = Some n <-> Float.trunc x = Some n /\ in_int32 n.
Proof.
  unfold F32.to_int32, in_int32. destruct (Float.trunc x) as [z|]; simpl.
  - case_bool_decide; split.
    + intros [= <-]. auto.
    + intros [[= <-] _]. reflexivity.
    + discriminate.
    + intros [[= <-] Hn]. contradiction.
  - split; [discriminate|intros [H _]; discriminate H].
Qed.

(** The claim C8 as the specification has it fails for [BufAppendFloat32]:
    the floats 16777215 and 65 have the exact product 1090518975, a whole
    number, but the single precision product is 1090518912, and this is
    what is stored (bytes 40 FF FF 80): the decoded integer is 63 units
    from the product, not less than one. *)
Lemma BufAppendFloat32_rounding_error :
  let v := F32.of_Z 16777215 in
  let s := F32.of_Z 65 in
  F32.valid v = true /\ F32.valid s = true /\
  F32.scaled v * F32.scaled s = 1090518975 * 2 ^ 298 /\
  F32.to_int32 (F32.mul v s) = Some 1090518912 /\
  BufAppendFloat32 [0; 0; 0; 0] v s 0 = Some ([64; 255; 255; 128], 4) /\
  read_be32 [64; 255; 255; 128] 0 = Some 1090518912 /\
  Z.abs (1090518912 * 2 ^ 298 - F32.scaled v * F32.scaled s) = 63 * 2 ^ 298.
Proof. repeat split; vm_compute; reflexivity. Qed.

(** C8, amended: when the single precision product [value * scale]
    converts to the target integer type, [BufAppendFloat16] hands
    [BufAppendInt16], and [BufAppendFloat32] hands [BufAppendInt32], the
    integer [n] that is this product rounded toward zero, which is then
    stored most significant byte first and read back as [n].  For
    [BufAppendFloat16] [n] is less than one unit from the exact product
    of the two values, so that [n / scale] is the value up to the
    truncation; for [BufAppendFloat32] this holds when the exact product
    is below 2^24 in magnitude, the rounding of the product to single
    precision adding to the error above that.  (Values are in units of
    2^-149, products in units of 2^-298.) *)
Theorem BufAppendFloat_stores (b : list Z) (v s : spec_float) (i n : Z)
  (Hv : F32.valid v = true) (Hs : F32.valid s = true) (Hi : 0 <= i) :
  (F32.to_int16 (F32.mul v s) = Some n ->
   in_int16 n /\
   BufAppendFloat16 b v s i = BufAppendInt16 b n i /\
   toward_zero n (F32.scaled (F32.mul v s)) (2 ^ 149) /\
   Z.abs (n * 2 ^ 298 - F32.scaled v * F32.scaled s) < 2 ^ 298 /\
   (i + 2 <= Z.of_nat (length b) -> i + 2 <= int32_max ->
    exists b' : list Z,
      BufAppendFloat16 b v s i = Some (b', i + 2) /\
      read_be16 b' i = Some n)) /\
  (F32.to_int32 (F32.mul v s) = Some n ->
   in_int32 n /\
   BufAppendFloat32 b v s i = BufAppendInt32 b n i /\
   toward_zero n (F32.scaled (F32.mul v s)) (2 ^ 149) /\
   (Z.abs (F32.scaled v * F32.scaled s) < 2 ^ 24 * 2 ^ 298 ->
    Z.abs (n * 2 ^ 298 - F32.scaled v * F32.scaled s) < 2 ^ 298) /\
   (i + 4 <= Z.of_nat (length b) -> i + 4 <= int32_max ->
    exists b' : list Z,
      BufAppendFloat32 b v s i = Some (b', i + 4) /\
      read_be32 b' i = Some n)).
Proof.
  split; intros Hn.
  - apply to_int16_Some in Hn as Hn'. destruct Hn' as [Ht Hr].
    destruct (mul_finite v s n Ht) as [Hfv Hfs].
    assert (Hfinv : fin v) by (split; assumption).
    assert (Hfins : fin s) by (split; assumption).
    destruct (mul_trunc v s n Hfinv Hfins Ht) as (Htz & Hsmall & Hbig).
    rewrite (scaled_sc32 v Hfinv), (scaled_sc32 s Hfins).
    assert (Heq : BufAppendFloat16 b v s i = BufAppendInt16 b n i)
      by (unfold BufAppendFloat16; now rewrite Hn).
    split; [exact Hr|]. split; [exact Heq|]. split; [exact Htz|]. split.
    + apply Hsmall.
      destruct (Z.lt_ge_cases (Z.abs (Round.sc F32.prec F32.emax v
                                      * Round.sc F32.prec F32.emax s))
                  (2 ^ 24 * 2 ^ 298)) as [Hlt|Hge]; [exact Hlt|].
      specialize (Hbig Hge). unfold in_int16, int16_min, int16_max in Hr.
      change (2 ^ 24) with 16777216 in Hbig. lia.
    + intros Hl Hmax. rewrite Heq.
      destruct (BufFacts.BufAppendInt16_bytes b n i Hr Hi Hl Hmax)
        as (b' & Hb & _ & _ & Hrd).
      exists b'. auto.
  - apply to_int32_Some in Hn as Hn'. destruct Hn' as [Ht Hr].
    destruct (mul_finite v s n Ht) as [Hfv Hfs].
    assert (Hfinv : fin v) by (split; assumption).
    assert (Hfins : fin s) by (split; assumption).
    destruct (mul_trunc v s n Hfinv Hfins Ht) as (Htz & Hsmall & Hbig).
    rewrite (scaled_sc32 v Hfinv), (scaled_sc32 s Hfins).
    assert (Heq : BufAppendFloat32 b v s i = BufAppendInt32 b n i)
      by (unfold BufAppendFloat32; now rewrite Hn).
    split; [exact Hr|]. split; [exact Heq|]. split; [exact Htz|].
    split; [exact Hsmall|].
    intros Hl Hmax. rewrite Heq.
    destruct (BufFacts.BufAppendInt32_bytes b n i Hr Hi Hl Hmax)
      as (b' & Hb & _ & _ & _ & _ & Hrd).
    exists b'. auto.
Qed.

Lemma BufAppendFloat_stores_witness :
  let v := F32.of_Z (-5) in
  let s := F32.of_Z 3 in
  F32.valid v = true /\ F32.valid s = true /\
  F32.to_int16 (F32.mul v s) = Some (-15) /\
  F32.to_int32 (F32.mul v s) = Some (-15) /\
  (exists b' : list Z,
     BufAppendFloat16 [0; 0; 0; 0; 0] v s 1 = Some (b', 3) /\
     read_be16 b' 1 = Some (-15)) /\
  (exists b' : list Z,
     BufAppendFloat32 [0; 0; 0; 0; 0] v s 1 = Some (b', 5) /\
     read_be32 b' 1 = Some (-15)).
Proof.
  intros v s.
  assert (Hv : F32.valid v = true) by (vm_compute; reflexivity).
  assert (Hs : F32.valid s = true) by (vm_compute; reflexivity).
  assert (H16 : F32.to_int16 (F32.mul v s) = Some (-15))
    by (vm_compute; reflexivity).
  assert (H32 : F32.to_int32 (F32.mul v s) = Some (-15))
    by (vm_compute; reflexivity).
  assert (Hi : 0 <= 1) by lia.
  destruct (BufAppendFloat_stores [0; 0; 0; 0; 0] v s 1 (-15) Hv Hs Hi)
    as [A16 A32].
  destruct (A16 H16) as (_ & _ & _ & _ & R16).
  destruct (A32 H32) as (_ & _ & _ & _ & R32).
  repeat split; trivial.
  - apply R16; [simpl; lia|unfold int32_max; lia].
  - apply R32; [simpl; lia|unfold int32_max; lia].
Defined.

End BufFloatFacts.

(** * Further properties of the library *)

(** ** The buffer writers: bounds, composition, overwriting *)

Module BufLaws.
Import Int Buf BufFacts.

(** A stored value counts through its low byte only. *)
Lemma put_value (v v' : Z) (st : list Z * Z) :
  to_uint8 v = to_uint8 v' -> put v st = put v' st.
Proof. intros E. destruct st as [b i]. unfold put, store. now rewrite E. Qed.

Lemma put_Some (v : Z) (b b' : list Z) (i i' : Z) :
  put v (b, i) = Some (b', i') <->
  (0 <= i < Z.of_nat (length b) /\ i < int32_max) /\
  b' = <[Z.to_nat i := to_uint8 v]> b /\ i' = i + 1.
Proof.
  unfold put, store. split.
  - destruct (bool_decide_reflect (0 <= i < Z.of_nat (length b))) as [Hi|Hi];
      [|discriminate].
    cbv [mbind option_bind].
    destruct (bool_decide_reflect (i < int32_max)) as [Hm|Hm];
      [|discriminate].
    intros E. inversion E; subst. auto.
  - intros ((Hi & Hm) & -> & ->).
    rewrite (bool_decide_eq_true_2 _ Hi). cbv [mbind option_bind].
    now rewrite (bool_decide_eq_true_2 _ Hm).
Qed.

Lemma put_length (v : Z) (b b' : list Z) (i i' : Z) :
  put v (b, i) = Some (b', i') -> length b' = length b /\ i' = i + 1.
Proof.
  intros H. apply put_Some in H as (_ & -> & ->).
  now rewrite length_insert.
Qed.

Lemma BufAppendInt16_Some (b b' : list Z) (n i i' : Z) :
  BufAppendInt16 b n i = Some (b', i') ->
  0 <= i /\ i + 2 <= Z.of_nat (length b) /\ i + 2 <= int32_max.
Proof.
  unfold BufAppendInt16. intros H.
  destruct (put (Z.shiftr n 8) (b, i)) as [[b1 i1]|] eqn:E1;
    [|discriminate].
  cbv [mbind option_bind] in H.
  apply put_Some in H as ((H2 & M2) & _).
  pose proof (put_length _ _ _ _ _ E1) as (L1 & ->).
  apply put_Some in E1 as ((H1 & M1) & _).
  unfold int32_max in *. lia.
Qed.

Lemma BufAppendInt32_Some (b b' : list Z) (n i i' : Z) :
  BufAppendInt32 b n i = Some (b', i') ->
  0 <= i /\ i + 4 <= Z.of_nat (length b) /\ i + 4 <= int32_max.
Proof.
  unfold BufAppendInt32. intros H.
  destruct (put (Z.shiftr n 24) (b, i)) as [[b1 i1]|] eqn:E1;
    [|discriminate].
  cbv [mbind option_bind] in H.
  destruct (put (Z.shiftr n 16) (b1, i1)) as [[b2 i2]|] eqn:E2;
    [|discriminate].
  destruct (put (Z.shiftr n 8) (b2, i2)) as [[b3 i3]|] eqn:E3;
    [|discriminate].
  apply put_Some in H as ((H4 & M4) & _).
  pose proof (put_length _ _ _ _ _ E1) as (L1 & ->).
  pose proof (put_length _ _ _ _ _ E2) as (L2 & ->).
  pose proof (put_length _ _ _ _ _ E3) as (L3 & ->).
  apply put_Some in E1 as ((H1 & M1) & _).
  unfold int32_max in *. lia.
Qed.

(** X1: the writers check no bound.  [BufAppendInt16] has a defined
    result exactly when the cursor is not negative, the two positions it
    writes are inside the buffer and the advanced cursor is an [int32_t];
    [BufAppendInt32] exactly when the same holds of its four positions.
    The number written plays no part in this. *)
Theorem BufAppendInt_defined (b : list Z) (n i : Z) :
  (is_Some (BufAppendInt16 b n i) <->
   0 <= i /\ i + 2 <= Z.of_nat (length b) /\ i + 2 <= int32_max) /\
  (is_Some (BufAppendInt32 b n i) <->
   0 <= i /\ i + 4 <= Z.of_nat (length b) /\ i + 4 <= int32_max).
Proof.
  split; split.
  - intros [[b' i'] H]. exact (BufAppendInt16_Some _ _ _ _ _ H).
  - intros (H0 & Hl & Hm). rewrite BufAppendInt16_eq by assumption. eauto.
  - intros [[b' i'] H]. exact (BufAppendInt32_Some _ _ _ _ _ H).
  - intros (H0 & Hl & Hm). rewrite BufAppendInt32_eq by assumption. eauto.
Qed.

Lemma to_int16_mod (z : Z) : to_int16 z mod 2 ^ 16 = z mod 2 ^ 16.
Proof.
  unfold to_int16. change (2 ^ 16) with 65536.
  Z.div_mod_to_equations. lia.
Qed.

Lemma to_uint8_to_int16 (z : Z) : to_uint8 (to_int16 z) = to_uint8 z.
Proof.
  rewrite !(byte0 16) by lia. unfold byte_of. now rewrite to_int16_mod.
Qed.

Lemma to_uint8_shiftr_to_int16 (z : Z) :
  to_uint8 (Z.shiftr (to_int16 z) 8) = to_uint8 (Z.shiftr z 8).
Proof.
  rewrite !(byte1 16) by lia. unfold byte_of. now rewrite to_int16_mod.
Qed.

(** X2: [BufAppendInt32] of a number is [BufAppendInt16] of its high half
    [(int16_t)(number >> 16)] followed, at the cursor the first call
    leaves, by [BufAppendInt16] of its low half [(int16_t)number]: the
    same bytes, the same cursor and the same failures. *)
Theorem BufAppendInt32_halves (b : list Z) (n i : Z) :
  BufAppendInt32 b n i =
  BufAppendInt16 b (to_int16 (Z.shiftr n 16)) i ≫=
    (λ st, BufAppendInt16 st.1 (to_int16 n) st.2).
Proof.
  unfold BufAppendInt32, BufAppendInt16.
  rewrite (put_value (Z.shiftr (to_int16 (Z.shiftr n 16)) 8)
             (Z.shiftr n 24)).
  2:{ rewrite to_uint8_shiftr_to_int16, Z.shiftr_shiftr by lia.
      reflexivity. }
  destruct (put (Z.shiftr n 24) (b, i)) as [[b1 i1]|]; [|reflexivity].
  cbv [mbind option_bind].
  rewrite (put_value (to_int16 (Z.shiftr n 16)) (Z.shiftr n 16))
    by apply to_uint8_to_int16.
  destruct (put (Z.shiftr n 16) (b1, i1)) as [[b2 i2]|]; [|reflexivity].
  simpl fst. simpl snd.
  rewrite (put_value (Z.shiftr (to_int16 n) 8) (Z.shiftr n 8))
    by apply to_uint8_shiftr_to_int16.
  destruct (put (Z.shiftr n 8) (b2, i2)) as [[b3 i3]|]; [|reflexivity].
  apply put_value, eq_sym, to_uint8_to_int16.
Qed.

(** A later write that stays clear of a field leaves its reading. *)
Lemma read_be16_frame (b b' : list Z) (i : Z) :
  0 <= i ->
  (forall j : nat, i <= Z.of_nat j < i + 2 -> b' !! j = b !! j) ->
  read_be16 b' i = read_be16 b i.
Proof.
  intros H0 Hf. unfold read_be16.
  now rewrite !Hf by lia.
Qed.

Lemma read_be32_frame (b b' : list Z) (i : Z) :
  0 <= i ->
  (forall j : nat, i <= Z.of_nat j < i + 4 -> b' !! j = b !! j) ->
  read_be32 b' i = read_be32 b i.
Proof.
  intros H0 Hf. unfold read_be32.
  now rewrite !Hf by lia.
Qed.

Lemma BufAppendInt16_outside (b b' : list Z) (n i i' : Z) :
  BufAppendInt16 b n i = Some (b', i') ->
  i' = i + 2 /\ length b' = length b /\
  forall j : nat, Z.of_nat j < i \/ i + 2 <= Z.of_nat j -> b' !! j = b !! j.
Proof.
  intros H. pose proof (BufAppendInt16_Some _ _ _ _ _ H) as (H0 & Hl & Hm).
  rewrite BufAppendInt16_eq in H by assumption.
  inversion H; subst. split; [reflexivity|]. split.
  - now rewrite !length_insert.
  - intros j Hj. now rewrite !list_lookup_insert_ne by lia.
Qed.

Lemma BufAppendInt32_outside (b b' : list Z) (n i i' : Z) :
  BufAppendInt32 b n i = Some (b', i') ->
  i' = i + 4 /\ length b' = length b /\
  forall j : nat, Z.of_nat j < i \/ i + 4 <= Z.of_nat j -> b' !! j = b !! j.
Proof.
  intros H. pose proof (BufAppendInt32_Some _ _ _ _ _ H) as (H0 & Hl & Hm).
  rewrite BufAppendInt32_eq in H by assumption.
  inversion H; subst. split; [reflexivity|]. split.
  - now rewrite !length_insert.
  - intros j Hj. now rewrite !list_lookup_insert_ne by lia.
Qed.

Lemma BufAppendInt16_read (b b' : list Z) (n i i' : Z) :
  in_int16 n -> BufAppendInt16 b n i = Some (b', i') ->
  read_be16 b' i = Some n.
Proof.
  intros Hn H. pose proof (BufAppendInt16_Some _ _ _ _ _ H) as (H0 & Hl & Hm).
  destruct (BufAppendInt16_bytes b n i Hn H0 Hl Hm) as (b1 & E & _ & _ & R).
  rewrite E in H. now inversion H; subst.
Qed.

Lemma BufAppendInt32_read (b b' : list Z) (n i i' : Z) :
  in_int32 n -> BufAppendInt32 b n i = Some (b', i') ->
  read_be32 b' i = Some n.
Proof.
  intros Hn H. pose proof (BufAppendInt32_Some _ _ _ _ _ H) as (H0 & Hl & Hm).
  destruct (BufAppendInt32_bytes b n i Hn H0 Hl Hm)
    as (b1 & E & _ & _ & _ & _ & R).
  rewrite E in H. now inversion H; subst.
Qed.

(** X3: two fields written one after the other, the second at the cursor
    the first call leaves, are both read back: the second write does not
    reach into the first field, and the cursor has advanced by the 6
    bytes of the two.  This holds for a 16-bit field followed by a 32-bit
    field and for the other order. *)
Theorem BufAppendInt_sequence (b b1 b2 : list Z) (n m i i1 i2 : Z)
  (Hn : in_int16 n) (Hm : in_int32 m) :
  (BufAppendInt16 b n i = Some (b1, i1) ->
   BufAppendInt32 b1 m i1 = Some (b2, i2) ->
   i1 = i + 2 /\ i2 = i + 6 /\
   read_be16 b2 i = Some n /\ read_be32 b2 i1 = Some m) /\
  (BufAppendInt32 b m i = Some (b1, i1) ->
   BufAppendInt16 b1 n i1 = Some (b2, i2) ->
   i1 = i + 4 /\ i2 = i + 6 /\
   read_be32 b2 i = Some m /\ read_be16 b2 i1 = Some n).
Proof.
  split; intros E1 E2.
  - pose proof (BufAppendInt16_Some _ _ _ _ _ E1) as (H0 & _).
    pose proof (BufAppendInt16_outside _ _ _ _ _ E1) as (-> & _ & _).
    pose proof (BufAppendInt32_outside _ _ _ _ _ E2) as (-> & _ & F2).
    split; [reflexivity|]. split; [lia|]. split.
    + rewrite (read_be16_frame b1) by (trivial; intros j Hj; apply F2; lia).
      exact (BufAppendInt16_read _ _ _ _ _ Hn E1).
    + exact (BufAppendInt32_read _ _ _ _ _ Hm E2).
  - pose proof (BufAppendInt32_Some _ _ _ _ _ E1) as (H0 & _).
    pose proof (BufAppendInt32_outside _ _ _ _ _ E1) as (-> & _ & _).
    pose proof (BufAppendInt16_outside _ _ _ _ _ E2) as (-> & _ & F2).
    split; [reflexivity|]. split; [lia|]. split.
    + rewrite (read_be32_frame b1) by (trivial; intros j Hj; apply F2; lia).
      exact (BufAppendInt32_read _ _ _ _ _ Hm E1).
    + exact (BufAppendInt16_read _ _ _ _ _ Hn E2).
Qed.

Lemma BufAppendInt_sequence_witness :
  in_int16 (-2) /\ in_int32 305419896 /\
  BufAppendInt16 [0; 0; 0; 0; 0; 0; 0] (-2) 1
  = Some ([0; 255; 254; 0; 0; 0; 0], 3) /\
  BufAppendInt32 [0; 255; 254; 0; 0; 0; 0] 305419896 3
  = Some ([0; 255; 254; 18; 52; 86; 120], 7) /\
  read_be16 [0; 255; 254; 18; 52; 86; 120] 1 = Some (-2) /\
  read_be32 [0; 255; 254; 18; 52; 86; 120] 3 = Some 305419896.
Proof.
  assert (Hn : in_int16 (-2))
    by (unfold in_int16, int16_min, int16_max; lia).
  assert (Hm : in_int32 305419896)
    by (unfold in_int32, int32_min, int32_max; lia).
  assert (E1 : BufAppendInt16 [0; 0; 0; 0; 0; 0; 0] (-2) 1
               = Some ([0; 255; 254; 0; 0; 0; 0], 3)) by reflexivity.
  assert (E2 : BufAppendInt32 [0; 255; 254; 0; 0; 0; 0] 305419896 3
               = Some ([0; 255; 254; 18; 52; 86; 120], 7)) by reflexivity.
  destruct (BufAppendInt_sequence [0; 0; 0; 0; 0; 0; 0]
              [0; 255; 254; 0; 0; 0; 0] [0; 255; 254; 18; 52; 86; 120]
              (-2) 305419896 1 3 7 Hn Hm) as (Hseq & _).
  destruct (Hseq E1 E2) as (_ & _ & R16 & R32).
  auto 6.
Defined.

(** X4: a field written again at the same cursor replaces the earlier one
    entirely: the buffer and the cursor are those of writing the second
    number alone, whatever the first number was. *)
Theorem BufAppendInt_overwrite (b b1 : list Z) (n m i i1 : Z) :
  (BufAppendInt16 b n i = Some (b1, i1) ->
   BufAppendInt16 b1 m i = BufAppendInt16 b m i) /\
  (BufAppendInt32 b n i = Some (b1, i1) ->
   BufAppendInt32 b1 m i = BufAppendInt32 b m i).
Proof.
  split; intros E.
  - pose proof (BufAppendInt16_Some _ _ _ _ _ E) as (H0 & Hl & Hm).
    pose proof (BufAppendInt16_outside _ _ _ _ _ E) as (_ & L & _).
    rewrite BufAppendInt16_eq in E by assumption. inversion E; subst b1.
    rewrite !BufAppendInt16_eq by (rewrite ?length_insert; assumption).
    do 2 f_equal. apply list_eq. intros j.
    destruct (decide (j = Z.to_nat (i + 1))) as [->|N1];
      [now rewrite !list_lookup_insert_eq by (rewrite ?length_insert; lia)|].
    rewrite !(list_lookup_insert_ne _ (Z.to_nat (i + 1))) by lia.
    destruct (decide (j = Z.to_nat i)) as [->|N0];
      [now rewrite !list_lookup_insert_eq by (rewrite ?length_insert; lia)|].
    now rewrite !list_lookup_insert_ne by lia.
  - pose proof (BufAppendInt32_Some _ _ _ _ _ E) as (H0 & Hl & Hm).
    rewrite BufAppendInt32_eq in E by assumption. inversion E; subst b1.
    rewrite !BufAppendInt32_eq by (rewrite ?length_insert; assumption).
    do 2 f_equal. apply list_eq. intros j.
    destruct (decide (j = Z.to_nat (i + 3))) as [->|N3];
      [now rewrite !list_lookup_insert_eq by (rewrite ?length_insert; lia)|].
    rewrite !(list_lookup_insert_ne _ (Z.to_nat (i + 3))) by lia.
    destruct (decide (j = Z.to_nat (i + 2))) as [->|N2];
      [now rewrite !list_lookup_insert_eq by (rewrite ?length_insert; lia)|].
    rewrite !(list_lookup_insert_ne _ (Z.to_nat (i + 2))) by lia.
    destruct (decide (j = Z.to_nat (i + 1))) as [->|N1];
      [now rewrite !list_lookup_insert_eq by (rewrite ?length_insert; lia)|].
    rewrite !(list_lookup_insert_ne _ (Z.to_nat (i + 1))) by lia.
    destruct (decide (j = Z.to_nat i)) as [->|N0];
      [now rewrite !list_lookup_insert_eq by (rewrite ?length_insert; lia)|].
    now rewrite !list_lookup_insert_ne by lia.
Qed.

Lemma BufAppendInt_overwrite_witness :
  BufAppendInt16 [9; 9; 9; 9; 9] 4660 1 = Some ([9; 18; 52; 9; 9], 3) /\
  BufAppendInt16 [9; 18; 52; 9; 9] (-2) 1
  = BufAppendInt16 [9; 9; 9; 9; 9] (-2) 1 /\
  BufAppendInt32 [9; 9; 9; 9; 9] 4660 1 = Some ([9; 0; 0; 18; 52], 5) /\
  BufAppendInt32 [9; 0; 0; 18; 52] (-2) 1
  = BufAppendInt32 [9; 9; 9; 9; 9] (-2) 1.
Proof.
  assert (E16 : BufAppendInt16 [9; 9; 9; 9; 9] 4660 1
                = Some ([9; 18; 52; 9; 9], 3)) by reflexivity.
  assert (E32 : BufAppendInt32 [9; 9; 9; 9; 9] 4660 1
                = Some ([9; 0; 0; 18; 52], 5)) by reflexivity.
  split; [exact E16|]. split; [|split; [exact E32|]].
  - exact (proj1 (BufAppendInt_overwrite _ _ 4660 (-2) 1 3) E16).
  - exact (proj2 (BufAppendInt_overwrite _ _ 4660 (-2) 1 5) E32).
Defined.

End BufLaws.

(** ** The container helpers: clamping twice, bounds in the wrong order,
    NaN, concatenation *)

Module ContainerLaws.
Import Container ContainerFacts.

Section ClampAny.

Context {T : Type} (lt : T -> T -> bool).

(** X5: clamping a clamped value changes nothing; this needs nothing of
    [operator<], and nothing of the order of the two bounds. *)
Theorem Clamp_idempotent (v hi lo : T) :
  Clamp lt (Clamp lt v hi lo) hi lo = Clamp lt v hi lo.
Proof.
  unfold Clamp, std_min, std_max.
  destruct (lt v lo) eqn:E1; destruct (lt hi lo) eqn:E2;
    destruct (lt hi v) eqn:E3; rewrite ?E1, ?E2, ?E3; try reflexivity;
    destruct (lt lo lo); destruct (lt hi hi); now rewrite ?E1, ?E2, ?E3.
Qed.

End ClampAny.

Section ClampOrder.

Context {T : Type} (lt : T -> T -> bool).
Hypothesis lt_irrefl : forall a : T, lt a a = false.
(** Whatever is not above [b] is below what [b] is below: a strict weak
    order, which is what [std::min] and [std::max] ask of [operator<],
    has this property. *)
Hypothesis lt_cotrans :
  forall a b c : T, lt a b = true -> lt a c = true \/ lt c b = true.

(** X6: with the bounds in the wrong order ([upperBound < lowerBound]),
    [Clamp] returns [upperBound] whatever the value. *)
Theorem Clamp_inverted (v hi lo : T) (Hinv : lt hi lo = true) :
  Clamp lt v hi lo = hi.
Proof.
  unfold Clamp, std_min, std_max.
  destruct (lt v lo) eqn:Hlo.
  - now rewrite Hinv.
  - destruct (lt_cotrans hi lo v Hinv) as [H|H]; [now rewrite H|congruence].
Qed.

(** X7: [Clamp] is monotone: when [v] is not above [w], the clamped [v]
    is not above the clamped [w], for any two bounds. *)
Theorem Clamp_monotone (v w hi lo : T) (Hvw : lt w v = false) :
  lt (Clamp lt w hi lo) (Clamp lt v hi lo) = false.
Proof.
  unfold Clamp, std_min, std_max.
  destruct (lt v lo) eqn:Hv; destruct (lt w lo) eqn:Hw.
  - destruct (lt hi lo); auto.
  - destruct (lt hi lo) eqn:Hb; destruct (lt hi w) eqn:Hhw; auto.
    destruct (lt_cotrans hi lo w Hb); congruence.
  - destruct (lt w v) eqn:Hwv; [discriminate|].
    destruct (lt_cotrans w lo v Hw); congruence.
  - destruct (lt hi v) eqn:Hhv; destruct (lt hi w) eqn:Hhw; auto.
    destruct (lt_cotrans hi v w Hhv); congruence.
Qed.

End ClampOrder.

Lemma Zltb_cotrans (a b c : Z) :
  Z.ltb a b = true -> Z.ltb a c = true \/ Z.ltb c b = true.
Proof. rewrite !Z.ltb_lt. lia. Qed.

Lemma Clamp_inverted_witness :
  Z.ltb 0 10 = true /\ Clamp Z.ltb 4 0 10 = 0 /\ Clamp Z.ltb (-7) 0 10 = 0.
Proof.
  assert (Hb : Z.ltb 0 10 = true) by reflexivity.
  split; [exact Hb|]. split.
  - exact (Clamp_inverted Z.ltb Zltb_cotrans 4 0 10 Hb).
  - exact (Clamp_inverted Z.ltb Zltb_cotrans (-7) 0 10 Hb).
Defined.

Lemma Clamp_monotone_witness :
  Z.ltb 12 4 = false /\
  Z.ltb (Clamp Z.ltb 12 10 0) (Clamp Z.ltb 4 10 0) = false.
Proof.
  assert (Hvw : Z.ltb 12 4 = false) by reflexivity.
  split; [exact Hvw|].
  exact (Clamp_monotone Z.ltb Z.ltb_irrefl Zltb_cotrans 4 12 10 0 Hvw).
Defined.

Lemma ltb_nan_r (x : spec_float) : F64.ltb x S754_nan = false.
Proof. now destruct x. Qed.

Lemma ltb_nan_l (x : spec_float) : F64.ltb S754_nan x = false.
Proof. reflexivity. Qed.

(** X8: on doubles a NaN is not clamped: [Clamp] of a NaN value is NaN
    whatever the bounds, so that the result is outside the interval; a
    NaN upper bound is not enforced (the result is the greater of the
    value and the lower bound) and a NaN lower bound is not enforced
    either (the result is the lesser of the value and the upper
    bound). *)
Theorem Clamp_nan (v hi lo : spec_float) :
  Clamp F64.ltb S754_nan hi lo = S754_nan /\
  Clamp F64.ltb v S754_nan lo = std_max F64.ltb v lo /\
  Clamp F64.ltb v hi S754_nan = std_min F64.ltb v hi.
Proof.
  unfold Clamp, std_min, std_max.
  rewrite ?ltb_nan_l, ?ltb_nan_r. auto.
Qed.

Section VecLaws.

Context {T : Type} (eq : T -> T -> bool).

Lemma std_find_app (v w : list T) (x : T) :
  std_find eq (v ++ w) x =
  if Nat.eqb (std_find eq v x) (length v)
  then (length v + std_find eq w x)%nat
  else std_find eq v x.
Proof.
  induction v as [|y v IH]; simpl; [reflexivity|].
  destruct (eq y x); [reflexivity|].
  rewrite IH. change (Nat.eqb (S (std_find eq v x)) (S (length v)))
    with (Nat.eqb (std_find eq v x) (length v)).
  destruct (Nat.eqb (std_find eq v x) (length v)); reflexivity.
Qed.

(** X9: searching a concatenation: [x] is in [v ++ w] exactly when it is
    in [v] or in [w]; its index is the one in [v] when [v] has it,
    otherwise the size of [v] plus its index in [w], and -1 when neither
    has it. *)
Theorem Vec_append (v w : list T) (x : T) :
  VecContains eq (v ++ w) x = VecContains eq v x || VecContains eq w x /\
  VecIndexOf eq (v ++ w) x =
    if VecContains eq v x then VecIndexOf eq v x
    else if VecContains eq w x
         then Z.of_nat (length v) + VecIndexOf eq w x
         else -1.
Proof.
  unfold VecContains, VecIndexOf.
  rewrite std_find_app, length_app.
  pose proof (std_find_le eq v x) as Hv.
  pose proof (std_find_le eq w x) as Hw.
  destruct (Nat.eqb_spec (std_find eq v x) (length v)) as [Ev|Ev];
    destruct (Nat.eqb_spec (std_find eq w x) (length w)) as [Ew|Ew];
    simpl; split;
    repeat match goal with
           | |- context [Nat.eqb ?a ?b] => destruct (Nat.eqb_spec a b)
           | |- context [Z.geb ?a ?b] => destruct (Z.geb_spec a b)
           end; simpl; try reflexivity; lia.
Qed.

(** X10: looking an element up and asking for its index is a round trip:
    when [x] is at index [i], is equal to itself, and no element before
    [i] is equal to it, [VecIndexOf] gives [i] and [VecContains] holds. *)
Theorem VecIndexOf_lookup (v : list T) (i : nat) (x : T)
  (Hrefl : eq x x = true) (Hx : v !! i = Some x)
  (Hfirst : forall (j : nat) (y : T),
      (j < i)%nat -> v !! j = Some y -> eq y x = false) :
  VecIndexOf eq v x = Z.of_nat i /\ VecContains eq v x = true.
Proof.
  assert (E : std_find eq v x = i).
  { revert i Hx Hfirst. induction v as [|y v IH]; intros i Hx Hfirst;
      [discriminate|].
    simpl. destruct i as [|i].
    - simpl in Hx. inversion Hx; subst. now rewrite Hrefl.
    - rewrite (Hfirst 0%nat y) by (reflexivity || lia).
      f_equal. apply IH; [exact Hx|].
      intros j z Hj Hz. apply (Hfirst (S j) z); [lia|exact Hz]. }
  assert (Hlt : (i < length v)%nat) by (apply lookup_lt_is_Some; eauto).
  unfold VecIndexOf, VecContains. rewrite E. split.
  - destruct (Z.geb_spec (Z.of_nat i) (Z.of_nat (length v))); [lia|trivial].
  - destruct (Nat.eqb_spec i (length v)); [lia|trivial].
Qed.

End VecLaws.

Lemma VecIndexOf_lookup_witness :
  [30; 10; 20; 10] !! 1%nat = Some 10 /\
  VecIndexOf Z.eqb [30; 10; 20; 10] 10 = 1 /\
  VecContains Z.eqb [30; 10; 20; 10] 10 = true.
Proof.
  assert (Hx : [30; 10; 20; 10] !! 1%nat = Some 10) by reflexivity.
  split; [exact Hx|].
  apply (VecIndexOf_lookup Z.eqb [30; 10; 20; 10] 1 10 (Z.eqb_refl 10) Hx).
  intros j y Hj Hy. destruct j as [|j]; [|lia].
  simpl in Hy. inversion Hy. reflexivity.
Defined.

Lemma std_find_nan (v : list spec_float) :
  std_find F64.eqb v S754_nan = length v.
Proof.
  induction v as [|y v IH]; simpl; [reflexivity|].
  replace (F64.eqb y S754_nan) with false by now destruct y.
  now rewrite IH.
Qed.

(** X11: in a vector of doubles a NaN is never found, not even when the
    vector holds one: [VecContains] is false and [VecIndexOf] is -1. *)
Theorem Vec_nan (v : list spec_float) :
  VecContains F64.eqb v S754_nan = false /\
  VecIndexOf F64.eqb v S754_nan = -1.
Proof.
  unfold VecContains, VecIndexOf. rewrite std_find_nan, Nat.eqb_refl.
  split; [reflexivity|].
  destruct (Z.geb_spec (Z.of_nat (length v)) (Z.of_nat (length v)));
    [reflexivity|lia].
Qed.

End ContainerLaws.

(** ** Map lookup with a default *)

Module MapFacts.
Import Map.

Section MapLaws.

Context {K : Type} `{Countable K} {V : Type}.


End MapLaws.


End MapFacts.

(** ** Formatting and printing: embedded NULs, sizes, the error marker *)

Module FmtLaws.
Import Fmt Print FmtFacts.



Section Formatter.

Context {P : Type} (format : string -> list (@carg P) -> option string).


(** X14: [StrFmt] by the length of the text the formatter produces for
    the format and the converted arguments: no text (a failure) or a text
    of more than [INT_MAX] characters gives the marker "<StrFmt error>";
    a text of less than [INT_MAX] characters is returned whole; a text
    of exactly [INT_MAX] characters overflows the [int] that holds the
    buffer size, which has no defined behaviour. *)
Theorem StrFmt_by_length (fmt : string) (args : list arg) :
  StrFmt format fmt args =
  match format (c_str fmt) (map _convert args) with
  | None => Some "<StrFmt error>"%string
  | Some out =>
      let n := Z.of_nat (String.length out) in
      if n <? Int.int32_max then Some out
      else if n =? Int.int32_max then None
           else Some "<StrFmt error>"%string
  end.
Proof.
  unfold StrFmt.
  destruct (format (c_str fmt) (map _convert args)) as [out|] eqn:Hf.
  - cbv zeta.
    destruct (Z.ltb_spec (Z.of_nat (String.length out)) Int.int32_max)
      as [Hlt|Hge].
    + now apply _strfmt_success.
    + unfold _strfmt, snprintf. rewrite Hf.
      destruct (Z.eqb_spec (Z.of_nat (String.length out)) Int.int32_max)
        as [He|Hne].
      * destruct (Z.ltb_spec Int.int32_max (Z.of_nat (String.length out)));
          [lia|]. simpl fst.
        now rewrite bool_decide_eq_false_2 by lia.
      * destruct (Z.ltb_spec Int.int32_max (Z.of_nat (String.length out)));
          [|lia]. reflexivity.
  - apply _strfmt_failure. rewrite snprintf_failure by exact Hf. lia.
Qed.

(** X15: when the formatter fails, [PrintFmt] and [PrintLnFmt] append the
    marker "<StrFmt error>" to the stream and nothing else: what was
    written before stays, and [PrintLnFmt] ends no line. *)
Theorem Print_failure (fmt : string) (args : list arg) (cout : string) :
  (format (c_str fmt) (map _convert args) = None ->
   PrintFmt format fmt args cout
   = Some (cout ++ "<StrFmt error>")%string) /\
  (format (c_str (fmt ++ newline)) (map _convert args) = None ->
   PrintLnFmt format fmt args cout
   = Some (cout ++ "<StrFmt error>")%string).
Proof.
  split; intros Hf; unfold PrintFmt, PrintLnFmt;
    rewrite _strfmt_failure; try reflexivity;
    rewrite snprintf_failure by exact Hf; lia.
Qed.

End Formatter.

Lemma Print_failure_witness :
  let format : string -> list (@carg Z) -> option string :=
    fun _ _ => None in
  format (c_str "%d") (map _convert [Plain (Prim 5)]) = None /\
  PrintFmt format "%d" [Plain (Prim 5)] "log: "
  = Some "log: <StrFmt error>"%string /\
  PrintLnFmt format "%d" [Plain (Prim 5)] "log: "
  = Some "log: <StrFmt error>"%string.
Proof.
  intros format.
  assert (Hf : forall f, format f (map _convert [Plain (Prim 5)]) = None)
    by reflexivity.
  destruct (Print_failure format "%d" [Plain (Prim 5)] "log: ")
    as (H1 & H2).
  split; [apply Hf|]. split; [exact (H1 (Hf _))|exact (H2 (Hf _))].
Defined.

End FmtLaws.

(** ** The rate scheduler: rates it does not enforce, the 2 ms margin *)

Module SchedLaws.
Import Sched SchedFacts.

Lemma to_int32_id (z : Z) : Int.in_int32 z -> Int.to_int32 z = z.
Proof.
  unfold Int.in_int32, Int.int32_min, Int.int32_max, Int.to_int32.
  intros Hz. rewrite Z.mod_small; lia.
Qed.

Lemma quot_1000_nonpos (rate : Z) :
  rate < 0 \/ 1000 < rate -> Z.quot 1000 rate <= 0.
Proof.
  intros [Hneg|Hbig].
  - replace rate with (- - rate) by lia.
    rewrite Z.quot_opp_r by lia.
    pose proof (Z.quot_pos 1000 (- rate)). lia.
  - rewrite Z.quot_small; lia.
Qed.

(** While the elapsed milliseconds are an [int], the two paths are
    decided by the elapsed time itself. *)
Lemma ScheduleRate_within_int (rate start_time : Z) (w : world) :
  rate <> 0 -> Int.in_int32 (elapsed_ms w start_time) ->
  let ms := elapsed_ms w start_time in
  (Z.quot 1000 rate <= ms ->
   ScheduleRate rate start_time w
   = Some (F64.div (F64.of_Z ms) (F64.of_Z 1000), w)) /\
  (0 <= ms < Z.quot 1000 rate ->
   ScheduleRate rate start_time w
   = Some (F64.div (F64.of_Z (elapsed_ms (sleep_for (exact_budget rate ms) w)
                                start_time))
                   (F64.of_Z 1000),
           sleep_for (exact_budget rate ms) w)).
Proof.
  intros Hrate Hint ms.
  destruct (ScheduleRate_paths rate start_time w Hrate)
    as (Hlate & Hon & Hex & _).
  rewrite (to_int32_id _ Hint) in Hlate, Hon, Hex. fold ms in Hlate, Hon, Hex.
  split; [exact Hlate|].
  intros Hms. exact (proj1 (Hon (proj2 Hms) _ (Hex Hms))).
Qed.

(** X16: a negative rate and a rate above 1000 Hz are not enforced: the
    period [1000 / rate] in whole milliseconds is not positive, so that,
    with a start time that is not in the future and an elapsed time whose
    whole milliseconds are an [int] (less than 2^31 ms, about 24.8 days),
    the function sleeps never and returns the elapsed time at once. *)
Theorem ScheduleRate_unenforced (rate start_time : Z) (w : world)
  (Hrate : rate < 0 \/ 1000 < rate)
  (Hstart : start_time <= now w)
  (Hint : elapsed_ms w start_time <= Int.int32_max) :
  ScheduleRate rate start_time w
  = Some (F64.div (F64.of_Z (elapsed_ms w start_time)) (F64.of_Z 1000), w).
Proof.
  assert (Hdt : 0 <= elapsed_ms w start_time).
  { unfold elapsed_ms, ticks_per_ms. apply Z.quot_pos; lia. }
  assert (Hin : Int.in_int32 (elapsed_ms w start_time))
    by (unfold Int.in_int32, Int.int32_min; lia).
  unfold ScheduleRate. rewrite (to_int32_id _ Hin).
  rewrite bool_decide_eq_false_2 by lia.
  pose proof (quot_1000_nonpos rate Hrate) as Hq.
  destruct (Z.ltb_spec (elapsed_ms w start_time) (Z.quot 1000 rate));
    [lia|reflexivity].
Qed.

Lemma ScheduleRate_unenforced_witness :
  let w := {| now := 7300000; lag := 40000; sleeps := [] |} in
  (2000 < 0 \/ 1000 < 2000) /\
  0 <= now w /\
  elapsed_ms w 0 <= Int.int32_max /\
  ScheduleRate 2000 0 w
  = Some (F64.div (F64.of_Z 7) (F64.of_Z 1000), w).
Proof.
  intros w.
  assert (Hr : 2000 < 0 \/ 1000 < 2000) by (right; lia).
  assert (Hs : 0 <= now w) by (simpl; lia).
  assert (Hi : elapsed_ms w 0 <= Int.int32_max)
    by (vm_compute; discriminate).
  split; [exact Hr|]. split; [exact Hs|]. split; [exact Hi|].
  exact (ScheduleRate_unenforced 2000 0 w Hr Hs Hi).
Defined.

(** The period of a positive rate, and the sleep duration before the
    margin is reached. *)
Lemma exact_budget_early (rate dt : Z) :
  0 < rate -> dt < Z.quot 1000 rate - 2 ->
  exact_budget rate dt = Z.quot 1000 rate - 2 - dt.
Proof.
  intros Hr Hdt. unfold exact_budget.
  rewrite (Z.quot_div_nonneg 1000 rate) in * by lia.
  pose proof (Z.div_mod 1000 rate ltac:(lia)) as Hdm.
  pose proof (Z.mod_pos_bound 1000 rate Hr) as Hb.
  rewrite Z.quot_div_nonneg by nia.
  symmetry. apply Z.div_unique with (1000 mod rate); [lia|nia].
Qed.

Lemma exact_budget_margin (rate dt : Z) :
  0 < rate -> Z.quot 1000 rate - 2 <= dt < Z.quot 1000 rate ->
  -1 <= exact_budget rate dt <= 0.
Proof.
  intros Hr Hdt. unfold exact_budget.
  rewrite Z.quot_div_nonneg in Hdt by lia.
  pose proof (Z.div_mod 1000 rate ltac:(lia)) as Hdm.
  pose proof (Z.mod_pos_bound 1000 rate Hr) as Hb.
  destruct (Z.le_gt_cases 0 (1000 - rate * (dt + 2))) as [Hn|Hn].
  - rewrite Z.quot_small; [lia|nia].
  - replace (1000 - rate * (dt + 2)) with (- (rate * (dt + 2) - 1000))
      by lia.
    rewrite Z.quot_opp_l by lia.
    rewrite Z.quot_div_nonneg by lia.
    assert (0 <= (rate * (dt + 2) - 1000) / rate <= 1); [|lia].
    split; [apply Z.div_pos; lia|].
    apply Z.div_le_upper_bound; nia.
Qed.

(** X17: on the on-time path the function hands [sleep_for] what is left
    of the period less 2 ms, so that it wakes early: with a start time in
    the past, a rate above 0 and more than 2 ms of the period
    [1000 / rate] (in whole milliseconds) left, the duration slept is
    [period - 2 - dt], and the elapsed time it returns, in milliseconds,
    is at least [period - 2]; it is at most [period - 1] when the system
    wakes the thread less than a millisecond late, and [period - 2] when
    it wakes it on time. *)
Theorem ScheduleRate_wakes_early (rate start_time : Z) (w : world)
  (Hrate : 0 < rate) (Hstart : start_time <= now w)
  (Hint : Int.in_int32 (elapsed_ms w start_time)) (Hlag : 0 <= lag w) :
  let dt := elapsed_ms w start_time in
  let period := Z.quot 1000 rate in
  dt < period - 2 ->
  let w' := sleep_for (period - 2 - dt) w in
  ScheduleRate rate start_time w
  = Some (F64.div (F64.of_Z (elapsed_ms w' start_time)) (F64.of_Z 1000),
          w') /\
  now w' = now w + (period - 2 - dt) * ticks_per_ms + lag w /\
  period - 2 <= elapsed_ms w' start_time /\
  (lag w < ticks_per_ms -> elapsed_ms w' start_time <= period - 1) /\
  (lag w = 0 -> elapsed_ms w' start_time = period - 2).
Proof.
  intros dt period Hdt w'.
  assert (Hdt0 : 0 <= dt).
  { unfold dt, elapsed_ms, ticks_per_ms. apply Z.quot_pos; lia. }
  assert (Hnow : now w' = now w + (period - 2 - dt) * ticks_per_ms + lag w).
  { unfold w', sleep_for. simpl.
    destruct (Z.ltb_spec 0 (period - 2 - dt)); lia. }
  split; [|split; [exact Hnow|]].
  - unfold ScheduleRate. rewrite (to_int32_id _ Hint). fold dt.
    rewrite bool_decide_eq_false_2 by lia.
    destruct (Z.ltb_spec dt (Z.quot 1000 rate)); [|unfold period in Hdt; lia].
    rewrite sleep_budget_exact by (fold period; lia).
    rewrite exact_budget_early by assumption. reflexivity.
  - unfold elapsed_ms. rewrite Hnow.
    unfold dt, elapsed_ms in *. unfold ticks_per_ms in *.
    rewrite !Z.quot_div_nonneg in * by lia.
    set (e := now w - start_time) in *.
    replace (now w + (period - 2 - e / 1000000) * 1000000 + lag w
             - start_time)
      with (e + lag w + (period - 2 - e / 1000000) * 1000000) by (unfold e; lia).
    rewrite Z.div_add by lia.
    pose proof (Z.div_le_mono e (e + lag w) 1000000 ltac:(lia) ltac:(lia))
      as Hmono.
    split; [lia|]. split.
    + intros Hl.
      assert ((e + lag w) / 1000000 < e / 1000000 + 2); [|lia].
      apply Z.div_lt_upper_bound; [lia|].
      pose proof (Z.div_mod e 1000000 ltac:(lia)).
      pose proof (Z.mod_pos_bound e 1000000 ltac:(lia)). lia.
    + intros ->. rewrite Z.add_0_r. lia.
Qed.

Lemma ScheduleRate_wakes_early_witness :
  let w := {| now := 3000000; lag := 40000; sleeps := [] |} in
  let w' := {| now := 8040000; lag := 40000; sleeps := [5] |} in
  0 < 100 /\ 0 <= now w /\ Int.in_int32 (elapsed_ms w 0) /\ 0 <= lag w /\
  elapsed_ms w 0 < Z.quot 1000 100 - 2 /\
  ScheduleRate 100 0 w = Some (F64.div (F64.of_Z 8) (F64.of_Z 1000), w') /\
  elapsed_ms w' 0 <= Z.quot 1000 100 - 1.
Proof.
  intros w w'.
  assert (Hr : 0 < 100) by lia.
  assert (Hs : 0 <= now w) by (simpl; lia).
  assert (Hi : Int.in_int32 (elapsed_ms w 0))
    by (split; vm_compute; discriminate).
  assert (Hl : 0 <= lag w) by (simpl; lia).
  assert (Hdt : elapsed_ms w 0 < Z.quot 1000 100 - 2)
    by (vm_compute; reflexivity).
  destruct (ScheduleRate_wakes_early 100 0 w Hr Hs Hi Hl Hdt)
    as (Hrun & _ & _ & Hup & _).
  split; [exact Hr|]. split; [exact Hs|]. split; [exact Hi|].
  split; [exact Hl|]. split; [exact Hdt|]. split; [exact Hrun|].
  apply Hup. simpl. unfold ticks_per_ms. lia.
Defined.

(** X18: in the last 2 ms of the period no sleep is asked for.  With a
    start time in the past, an elapsed time [dt] in whole milliseconds
    that is an [int] and [period - 2 <= dt < period], the duration handed
    to [sleep_for] is 0 or -1, so that the thread is not suspended; the
    function returns the elapsed time at its second reading of the clock,
    which is at least [dt] ms, at most [dt + 1] ms when less than a
    millisecond passes between the two readings, and [dt] ms when no time
    passes. *)
Theorem ScheduleRate_margin (rate start_time : Z) (w : world)
  (Hstart : start_time <= now w)
  (Hint : Int.in_int32 (elapsed_ms w start_time)) (Hlag : 0 <= lag w) :
  let dt := elapsed_ms w start_time in
  let period := Z.quot 1000 rate in
  period - 2 <= dt < period ->
  exists d : Z,
    -1 <= d <= 0 /\
    let w' := sleep_for d w in
    ScheduleRate rate start_time w
    = Some (F64.div (F64.of_Z (elapsed_ms w' start_time)) (F64.of_Z 1000),
            w') /\
    sleeps w' = d :: sleeps w /\
    now w' = now w + lag w /\
    dt <= elapsed_ms w' start_time /\
    (lag w < ticks_per_ms -> elapsed_ms w' start_time <= dt + 1) /\
    (lag w = 0 -> elapsed_ms w' start_time = dt).
Proof.
  intros dt period Hdt.
  assert (Hdt0 : 0 <= dt).
  { unfold dt, elapsed_ms, ticks_per_ms. apply Z.quot_pos; lia. }
  assert (Hr : 0 < rate).
  { destruct (Z.lt_trichotomy rate 0) as [Hn|[->|Hp]]; trivial.
    - pose proof (quot_1000_nonpos rate (or_introl Hn)). unfold period in *.
      lia.
    - unfold period in Hdt. change (Z.quot 1000 0) with 0 in Hdt. lia. }
  pose proof (exact_budget_margin rate dt Hr Hdt) as Hd.
  exists (exact_budget rate dt). split; [exact Hd|]. cbv zeta.
  assert (Hnow : now (sleep_for (exact_budget rate dt) w) = now w + lag w).
  { unfold sleep_for. simpl.
    destruct (Z.ltb_spec 0 (exact_budget rate dt)); lia. }
  split; [|split; [reflexivity|split; [exact Hnow|]]].
  - unfold ScheduleRate. rewrite (to_int32_id _ Hint). fold dt.
    rewrite bool_decide_eq_false_2 by lia.
    destruct (Z.ltb_spec dt (Z.quot 1000 rate)); [|unfold period in Hdt; lia].
    rewrite sleep_budget_exact by (fold period; lia). reflexivity.
  - unfold elapsed_ms. rewrite Hnow.
    unfold dt, elapsed_ms in *. unfold ticks_per_ms in *.
    rewrite !Z.quot_div_nonneg in * by lia.
    set (e := now w - start_time) in *.
    replace (now w + lag w - start_time) with (e + lag w) by (unfold e; lia).
    pose proof (Z.div_le_mono e (e + lag w) 1000000 ltac:(lia) ltac:(lia))
      as Hmono.
    split; [exact Hmono|]. split.
    + intros Hl.
      assert ((e + lag w) / 1000000 < e / 1000000 + 2); [|lia].
      apply Z.div_lt_upper_bound; [lia|].
      pose proof (Z.div_mod e 1000000 ltac:(lia)).
      pose proof (Z.mod_pos_bound e 1000000 ltac:(lia)). lia.
    + intros ->. now rewrite Z.add_0_r.
Qed.

Lemma ScheduleRate_margin_witness :
  let w := {| now := 9200000; lag := 900000; sleeps := [] |} in
  0 <= now w /\ Int.in_int32 (elapsed_ms w 0) /\ 0 <= lag w /\
  Z.quot 1000 100 - 2 <= elapsed_ms w 0 < Z.quot 1000 100 /\
  exists d : Z,
    -1 <= d <= 0 /\
    ScheduleRate 100 0 w
    = Some (F64.div (F64.of_Z (elapsed_ms (sleep_for d w) 0))
                    (F64.of_Z 1000),
            sleep_for d w) /\
    elapsed_ms w 0 <= elapsed_ms (sleep_for d w) 0 <= elapsed_ms w 0 + 1.
Proof.
  intros w.
  assert (Hs : 0 <= now w) by (simpl; lia).
  assert (Hi : Int.in_int32 (elapsed_ms w 0))
    by (split; vm_compute; discriminate).
  assert (Hl : 0 <= lag w) by (simpl; lia).
  assert (Hdt : Z.quot 1000 100 - 2 <= elapsed_ms w 0 < Z.quot 1000 100)
    by (split; vm_compute; [discriminate|reflexivity]).
  destruct (ScheduleRate_margin 100 0 w Hs Hi Hl Hdt)
    as (d & Hd & Hrun & _ & _ & Hlo & Hup & _).
  split; [exact Hs|]. split; [exact Hi|]. split; [exact Hl|].
  split; [exact Hdt|].
  exists d. split; [exact Hd|]. split; [exact Hrun|]. split; [exact Hlo|].
  apply Hup. simpl. unfold ticks_per_ms. lia.
Defined.

End SchedLaws.

(** ** The scaled fields: what is not a number, products that are whole *)

Module BufFloatLaws.
Import Int Buf BufFloat Round RoundFacts F32Facts BufFloatFacts.

Local Abbreviation fin := (Round.fin F32.prec F32.emax).
Local Abbreviation sc := (Round.sc F32.prec F32.emax).
Local Abbreviation emin := (SpecFloat.emin F32.prec F32.emax).

(** X19: for a value or a scale that is an infinity or a NaN the call
    has no defined result: the product is no finite number, and the
    conversion of such a number to an integer type is not defined, for
    [BufAppendFloat16] as for [BufAppendFloat32], whatever the buffer and
    the cursor.  Nothing is said of what a compiled program stores
    then. *)
Theorem BufAppendFloat_not_finite (b : list Z) (v s : spec_float) (i : Z)
  (Hnot : Float.is_finite v = false \/ Float.is_finite s = false) :
  BufAppendFloat16 b v s i = None /\ BufAppendFloat32 b v s i = None.
Proof.
  assert (Ht : Float.trunc (F32.mul v s) = None).
  { destruct (Float.trunc (F32.mul v s)) as [n|] eqn:E; trivial.
    destruct (mul_finite v s n E) as (Hv & Hs).
    destruct Hnot; congruence. }
  unfold BufAppendFloat16, BufAppendFloat32, F32.to_int16, F32.to_int32.
  now rewrite Ht.
Qed.

Lemma BufAppendFloat_not_finite_witness :
  Float.is_finite (S754_infinity false) = false /\
  BufAppendFloat16 [0; 0; 0; 0] (S754_infinity false) (F32.of_Z 0) 0 = None /\
  BufAppendFloat32 [0; 0; 0; 0] (F32.of_Z 3) S754_nan 0 = None.
Proof.
  assert (Hi : Float.is_finite (S754_infinity false) = false) by reflexivity.
  assert (Hn : Float.is_finite S754_nan = false) by reflexivity.
  split; [exact Hi|]. split.
  - exact (proj1 (BufAppendFloat_not_finite [0; 0; 0; 0] _ (F32.of_Z 0) 0
                    (or_introl Hi))).
  - exact (proj2 (BufAppendFloat_not_finite [0; 0; 0; 0] (F32.of_Z 3) _ 0
                    (or_intror Hn))).
Defined.

(** The product of two numbers of the format is finite when the exact
    product is below 2^127. *)
Lemma mul_is_finite (v s : spec_float) :
  fin v -> fin s -> Z.abs (sc v * sc s) < 2 ^ 425 ->
  Float.is_finite (F32.mul v s) = true.
Proof.
  intros Hv Hs Hsmall.
  destruct v as [sx|sx| |sx mx ex]; try (destruct Hv; discriminate);
    destruct s as [sy|sy| |sy my ey]; try (destruct Hs; discriminate);
    try reflexivity.
  destruct (SFmul_value F32.prec F32.emax Hprec32 sx sy mx my ex ey
              ltac:(vm_compute; discriminate) Hv Hs) as [He1 [Ho|Hr]].
  - exfalso.
    pose proof (overflows_size F32.prec F32.emax Hprec32 _ _ _ _ _ _ Ho)
      as Hsize.
    rewrite sc_mul_sign, abs_cond_Zopp in Hsmall.
    pose proof (fin_exponent F32.prec F32.emax Hprec32 _ _ _ Hv) as Hex.
    pose proof (fin_exponent F32.prec F32.emax Hprec32 _ _ _ Hs) as Hey.
    set (V := Z.pos mx * 2 ^ (ex - emin) * (Z.pos my * 2 ^ (ey - emin))) in *.
    assert (HVpos : 0 < V).
    { unfold V. pose proof (pow2_pos (ex - emin) ltac:(lia)).
      pose proof (pow2_pos (ey - emin) ltac:(lia)). nia. }
    assert (HdV : Zdigits2 V
                  = Zdigits2 (Z.pos (mx * my)) + (ex + ey) - 2 * emin).
    { unfold V.
      replace (Z.pos mx * 2 ^ (ex - emin) * (Z.pos my * 2 ^ (ey - emin)))
        with (Z.pos (mx * my) * 2 ^ (ex + ey - 2 * emin)).
      - rewrite Zdigits2_mul by lia. lia.
      - rewrite Pos2Z.inj_mul.
        replace (ex + ey - 2 * emin) with (ex - emin + (ey - emin)) by lia.
        rewrite pow2_split by lia. ring. }
    assert (Hd : Zdigits2 V <= 425).
    { apply Zdigits2_le; [lia|]. rewrite Z.abs_eq in Hsmall by lia.
      exact Hsmall. }
    rewrite (fexp_max F32.prec F32.emax Hprec32) in Hsize.
    change emin with (-149) in *. change F32.prec with 24 in *.
    change F32.emax with 128 in *. lia.
  - destruct Hr as [_ [Hz|(m3 & e3 & Hp & _)]]; unfold F32.mul.
    + now rewrite Hz.
    + now rewrite Hp.
Qed.

Lemma fin_of32 (x : spec_float) :
  F32.valid x = true -> Float.is_finite x = true -> fin x.
Proof. intros Hv Hf. split; assumption. Qed.

Lemma mul_whole (v s : spec_float) (p : Z) :
  fin v -> fin s -> sc v * sc s = p * 2 ^ 298 -> Z.abs p < 2 ^ 24 ->
  Float.trunc (F32.mul v s) = Some p.
Proof.
  intros Hv Hs Hp Hsmall.
  pose proof (pow2_pos 298 ltac:(lia)) as H298.
  assert (Hbound : Z.abs (sc v * sc s) < 2 ^ 24 * 2 ^ 298).
  { rewrite Hp, Z.abs_mul, (Z.abs_eq (2 ^ 298)) by lia.
    apply Z.mul_lt_mono_pos_r; lia. }
  assert (Hfinite : Float.is_finite (F32.mul v s) = true).
  { apply mul_is_finite; trivial.
    eapply Z.lt_trans; [exact Hbound|].
    rewrite <- pow2_split by lia. apply pow2_lt. lia. }
  destruct (Float.trunc (F32.mul v s)) as [n|] eqn:Ht.
  - destruct (mul_trunc v s n Hv Hs Ht) as (_ & Herr & _).
    specialize (Herr Hbound). rewrite Hp in Herr.
    f_equal. nia.
  - destruct (F32.mul v s); discriminate.
Qed.

(** X20: a product that is a whole number below 2^24 in magnitude is
    stored as it is, with no rounding and no truncation:
    [BufAppendFloat32] is then [BufAppendInt32] of the product;
    [BufAppendFloat16] is [BufAppendInt16] of the product when the
    product is an [int16_t], and has no defined result when it is
    not. *)
Theorem BufAppendFloat_whole (b : list Z) (v s : spec_float) (i p : Z)
  (Hv : F32.valid v = true /\ Float.is_finite v = true)
  (Hs : F32.valid s = true /\ Float.is_finite s = true)
  (Hp : F32.scaled v * F32.scaled s = p * 2 ^ 298)
  (Hsmall : Z.abs p < 2 ^ 24) :
  BufAppendFloat32 b v s i = BufAppendInt32 b p i /\
  (in_int16 p -> BufAppendFloat16 b v s i = BufAppendInt16 b p i) /\
  (~ in_int16 p -> BufAppendFloat16 b v s i = None).
Proof.
  destruct Hv as [Hv Hfv], Hs as [Hs Hfs].
  pose proof (fin_of32 v Hv Hfv) as Hfinv.
  pose proof (fin_of32 s Hs Hfs) as Hfins.
  rewrite (scaled_sc32 v Hfinv), (scaled_sc32 s Hfins) in Hp.
  pose proof (mul_whole v s p Hfinv Hfins Hp Hsmall) as Ht.
  unfold BufAppendFloat32, BufAppendFloat16, F32.to_int32, F32.to_int16.
  rewrite Ht. cbv [mbind option_bind].
  split; [|split].
  - rewrite bool_decide_eq_true_2; [reflexivity|].
    unfold int32_min, int32_max.
    change (2 ^ 24) with 16777216 in Hsmall. lia.
  - intros Hin. now rewrite (bool_decide_eq_true_2 _ Hin).
  - intros Hout. now rewrite (bool_decide_eq_false_2 _ Hout).
Qed.

Lemma BufAppendFloat_whole_witness :
  let v := S754_finite false 12582912 (-23) in
  let s := F32.of_Z 100 in
  (F32.valid v = true /\ Float.is_finite v = true) /\
  (F32.valid s = true /\ Float.is_finite s = true) /\
  F32.scaled v * F32.scaled s = 150 * 2 ^ 298 /\
  BufAppendFloat32 [0; 0; 0; 0] v s 0 = Some ([0; 0; 0; 150], 4) /\
  BufAppendFloat16 [0; 0; 0; 0] v s 0 = Some ([0; 150; 0; 0], 2).
Proof.
  intros v s.
  assert (Hv : F32.valid v = true /\ Float.is_finite v = true)
    by (split; reflexivity).
  assert (Hs : F32.valid s = true /\ Float.is_finite s = true)
    by (split; reflexivity).
  assert (Hp : F32.scaled v * F32.scaled s = 150 * 2 ^ 298)
    by (vm_compute; reflexivity).
  assert (Hsmall : Z.abs 150 < 2 ^ 24) by (vm_compute; reflexivity).
  assert (Hin : in_int16 150)
    by (unfold in_int16, int16_min, int16_max; lia).
  destruct (BufAppendFloat_whole [0; 0; 0; 0] v s 0 150 Hv Hs Hp Hsmall)
    as (H32 & H16 & _).
  split; [exact Hv|]. split; [exact Hs|]. split; [exact Hp|]. split.
  - rewrite H32. reflexivity.
  - rewrite (H16 Hin). reflexivity.
Defined.

End BufFloatLaws.

(** ** The angle helpers: what is not a number, exact steps, angles that
    are in range already *)

Module AngleLaws.
Import Round RoundFacts F64Facts Angle AngleFacts.

Local Abbreviation fin := (Round.fin F64.prec F64.emax).
Local Abbreviation sc := (Round.sc F64.prec F64.emax).
Local Abbreviation emin := (SpecFloat.emin F64.prec F64.emax).

Lemma sub_nan_r (x : spec_float) : F64.sub x S754_nan = S754_nan.
Proof. now destruct x. Qed.

Lemma NormalizeAnglePositive_not_finite (a : spec_float) :
  Float.is_finite a = false -> NormalizeAnglePositive a = S754_nan.
Proof.
  intros Ha. unfold NormalizeAnglePositive. rewrite two_pi_eq.
  destruct a as [s|s| |s m e]; try discriminate Ha; reflexivity.
Qed.

(** X21: an infinity or a NaN is normalised to NaN: by
    [NormalizeAnglePositive], by [NormalizeAngle], and by
    [ShortestAngularDistance] when it is either of the two angles,
    whatever the other is. *)
Theorem angles_not_finite (a b : spec_float)
  (Ha : Float.is_finite a = false) :
  NormalizeAnglePositive a = S754_nan /\
  NormalizeAngle a = S754_nan /\
  ShortestAngularDistance a b = S754_nan /\
  ShortestAngularDistance b a = S754_nan.
Proof.
  pose proof (NormalizeAnglePositive_not_finite a Ha) as Hp.
  assert (Hn : NormalizeAnglePositive S754_nan = S754_nan)
    by (now apply NormalizeAnglePositive_not_finite).
  assert (Ha' : NormalizeAngle S754_nan = S754_nan)
    by (unfold NormalizeAngle; rewrite Hn; reflexivity).
  split; [exact Hp|]. split; [|split].
  - unfold NormalizeAngle. rewrite Hp. reflexivity.
  - unfold ShortestAngularDistance. rewrite Hp, sub_nan_r, Hn.
    exact Ha'.
  - unfold ShortestAngularDistance. rewrite Hp.
    change (F64.sub S754_nan (NormalizeAnglePositive b)) with S754_nan.
    rewrite Hn. exact Ha'.
Qed.

Lemma angles_not_finite_witness :
  Float.is_finite (S754_infinity true) = false /\
  NormalizeAngle (S754_infinity true) = S754_nan /\
  ShortestAngularDistance (F64.of_Z 1) (S754_infinity true) = S754_nan.
Proof.
  assert (Ha : Float.is_finite (S754_infinity true) = false) by reflexivity.
  destruct (angles_not_finite (S754_infinity true) (F64.of_Z 1) Ha)
    as (_ & Hn & _ & Hd).
  split; [exact Ha|]. split; [exact Hn|exact Hd].
Defined.

(** X22: the subtraction in [NormalizeAngle] is exact.  The result is
    that of [NormalizeAnglePositive] when this is at most [M_PI]; when it
    is above, the result is a number whose value is less by the value of
    [two_pi], with no rounding error. *)
Theorem NormalizeAngle_exact (a : spec_float)
  (Hvalid : F64.valid a = true) (Hfinite : Float.is_finite a = true) :
  (F64.leb (NormalizeAnglePositive a) M_PI = true /\
   NormalizeAngle a = NormalizeAnglePositive a) \/
  (F64.ltb M_PI (NormalizeAnglePositive a) = true /\
   F64.valid (NormalizeAngle a) = true /\
   Float.is_finite (NormalizeAngle a) = true /\
   F64.scaled (NormalizeAngle a)
   = F64.scaled (NormalizeAnglePositive a) - F64.scaled two_pi).
Proof.
  pose proof (fin_of a Hvalid Hfinite) as Ha.
  pose proof sc_M_PI_pos as HP. pose proof sc_two_pi as E2.
  destruct (NormalizeAnglePositive_spec a Ha) as [Hf Hr].
  unfold NormalizeAngle.
  set (p := NormalizeAnglePositive a) in *.
  rewrite (leb_sc p M_PI Hf fin_M_PI), (ltb_sc M_PI p fin_M_PI Hf).
  destruct (Z.ltb_spec (sc M_PI) (sc p)) as [Hgt|Hle].
  - right. destruct (sub_two_pi_exact p Hf ltac:(lia)) as [[Hf2 Hs2] _].
    split; [reflexivity|].
    split; [exact (proj1 Hf2)|]. split; [exact (proj2 Hf2)|].
    now rewrite !scaled_sc by (assumption || exact fin_two_pi).
  - left. split; [|reflexivity]. apply Z.leb_le. exact Hle.
Qed.

Lemma NormalizeAngle_exact_witness :
  let a := F64.of_Z 4 in
  F64.valid a = true /\ Float.is_finite a = true /\
  F64.ltb M_PI (NormalizeAnglePositive a) = true /\
  F64.scaled (NormalizeAngle a)
  = F64.scaled (NormalizeAnglePositive a) - F64.scaled two_pi.
Proof.
  intros a.
  assert (Hv : F64.valid a = true) by reflexivity.
  assert (Hf : Float.is_finite a = true) by reflexivity.
  split; [exact Hv|]. split; [exact Hf|].
  destruct (NormalizeAngle_exact a Hv Hf) as [(Hle & _)|(Hlt & _ & _ & He)].
  - exfalso. vm_compute in Hle. discriminate Hle.
  - split; [exact Hlt|exact He].
Defined.

(** *** One addition, between two points of its grid *)

(** Two numbers of the format with the same value, which is not zero,
    are the same number. *)
Lemma fin_sc_inj (x y : spec_float) :
  fin x -> fin y -> sc x = sc y -> sc x <> 0 -> x = y.
Proof.
  intros Hx Hy E Hnz.
  destruct x as [sx|sx| |sx mx ex]; try (now elim Hnz).
  destruct y as [sy|sy| |sy my ey]; try (rewrite E in Hnz; now elim Hnz).
  pose proof (fin_exponent F64.prec F64.emax Hprec _ _ _ Hx) as Hex.
  pose proof (fin_exponent F64.prec F64.emax Hprec _ _ _ Hy) as Hey.
  destruct (fin_finite F64.prec F64.emax Hprec _ _ _ Hx) as [Hcx _].
  destruct (fin_finite F64.prec F64.emax Hprec _ _ _ Hy) as [Hcy _].
  destruct (sc_finite_sign F64.prec F64.emax Hprec sx mx ex Hex)
    as (Hsx & _ & Hax).
  destruct (sc_finite_sign F64.prec F64.emax Hprec sy my ey Hey)
    as (Hsy & _ & Hay).
  assert (Hs : sx = sy) by (rewrite <- Hsx, <- Hsy, E; reflexivity).
  pose proof (canonical_compare F64.prec F64.emax Hprec mx my ex ey Hcx Hcy)
    as Hcmp.
  rewrite <- Hax, <- Hay, E, Z.compare_refl in Hcmp.
  destruct (Z.compare_spec ex ey) as [He|He|He]; try discriminate Hcmp.
  symmetry in Hcmp. apply Pos.compare_eq in Hcmp. now subst.
Qed.

(** The rounded sum [r] of an exact positive sum [S] lies between any two
    points [L] and [U] of the grid of [2^k] that enclose [S], when [S]
    has no more than [prec] digits above that grid; it is less than one
    step of the grid from [S], and is [S] when [S] is on the grid.  It
    is zero or positive. *)
Lemma sum_rounded_between (S : Z) (r : spec_float) (k L U : Z) :
  sum_rounded F64.prec F64.emax S r -> 0 < S -> S < 2 ^ 2000 ->
  emin <= k -> Zdigits2 S <= F64.prec + k - emin ->
  (2 ^ (k - emin) | L) -> (2 ^ (k - emin) | U) -> L <= S <= U ->
  fin r /\ L <= sc r <= U /\ Z.abs (sc r - S) < 2 ^ (k - emin) /\
  ((2 ^ (k - emin) | S) -> sc r = S) /\
  (r = S754_zero false \/
   exists (m : positive) (e : Z), r = S754_finite false m e).
Proof.
  intros H Hpos Hsmall Hk Hd HL HU HLU.
  unfold sum_rounded in H. cbv zeta in H.
  rewrite (Z.abs_eq S) in H by lia.
  set (e1 := fexp F64.prec F64.emax (Zdigits2 S + emin)) in *.
  destruct H as [(E & _)|(_ & [Ho|Hr])]; [lia| |].
  - exfalso. apply overflows_size in Ho; [|exact Hprec].
    pose proof (Zdigits2_le S 2000 Hpos Hsmall) as Hd2.
    unfold e1 in Ho. rewrite (fexp_max F64.prec F64.emax Hprec) in Ho.
    unfold SpecFloat.emin, F64.prec, F64.emax in *. lia.
  - assert (He1 : emin <= e1 <= k)
      by (unfold e1; rewrite (fexp_max F64.prec F64.emax Hprec); lia).
    pose proof (pow2_pos (e1 - emin) ltac:(lia)) as Hg.
    set (g := 2 ^ (e1 - emin)) in *.
    assert (Hgk : (g | 2 ^ (k - emin))).
    { exists (2 ^ (k - e1)). unfold g. rewrite <- pow2_split by lia.
      f_equal. lia. }
    assert (Hgle : g <= 2 ^ (k - emin)) by (apply pow2_le; lia).
    replace (S <? 0) with false in Hr by (symmetry; apply Z.ltb_ge; lia).
    pose proof (rounded_sign F64.prec F64.emax Hprec _ _ _ _ _ _
                  (Z.lt_le_incl _ _ Hpos) Hg Hr) as Hsign.
    cbv iota in Hsign.
    pose proof (rounded_near F64.prec F64.emax Hprec _ _ _ _ _ _
                  (Z.lt_le_incl _ _ Hpos) Hg Hr) as (Hfl & Hnear & _).
    assert (Hexact : (g | S) -> sc r = S).
    { intros Hdiv. unfold Round.sc.
      rewrite (rounded_exact F64.prec F64.emax Hprec _ _ _ _ _ _ Hg
                 (proj2 (Z.mod_divide S g ltac:(lia)) Hdiv) Hr).
      reflexivity. }
    fold (sc r) in Hsign, Hfl, Hnear.
    rewrite (Z.abs_eq (sc r)) in Hfl, Hnear by exact Hsign.
    split; [exact (rounded_fin F64.prec F64.emax Hprec _ _ _ _ Hr)|].
    split; [|split; [lia|split]].
    + split.
      * pose proof (F32Facts.floor_grid_lower S g L Hg
                      (Z.divide_trans _ _ _ Hgk HL) (proj1 HLU)). lia.
      * destruct (Z.eq_dec S U) as [->|Hne].
        -- rewrite Hexact; [lia|exact (Z.divide_trans _ _ _ Hgk HU)].
        -- pose proof (F32Facts.floor_grid_upper S g U Hg
                         (Z.divide_trans _ _ _ Hgk HU) ltac:(lia)). lia.
    + intros Hdiv. apply Hexact.
      exact (Z.divide_trans _ _ _ Hgk Hdiv).
    + destruct Hr as [_ [Hz|(m3 & e3 & Hp & _)]]; eauto.
Qed.

Lemma sc_two_pi_grid : (2 ^ (-49 - emin) | sc two_pi).
Proof.
  exists 3537118876014220. apply Z.eqb_eq. vm_compute. reflexivity.
Qed.

Lemma pow2_grid : 2 ^ (-49 - emin) = 2 ^ 1025 /\ 2 ^ (-50 - emin) = 2 ^ 1024.
Proof. split; reflexivity. Qed.

Lemma fin_zero64 : fin (F64.of_Z 0) /\ sc (F64.of_Z 0) = 0.
Proof. split; [split|]; reflexivity. Qed.

Lemma rem_one_turn (t T : Z) :
  0 < T -> T <= t < 2 * T -> Z.rem t T = t - T.
Proof.
  intros HT Ht. rewrite Z.rem_mod_nonneg by lia.
  symmetry. apply Z.mod_unique with 1; lia.
Qed.

(** X23: an angle that is in the range of [NormalizeAnglePositive]
    already, at least zero and below [two_pi], comes back with the
    rounding error of the one addition of [two_pi]: the result is less
    than 2^-49 from the angle (2^1025 in the units of 2^-1074 in which
    [F64.scaled] counts), or it is zero for an angle less than 2^-49
    below [two_pi].  An angle that is a multiple of 2^-49 comes back
    unchanged. *)
Theorem NormalizeAnglePositive_in_range (a : spec_float)
  (Hvalid : F64.valid a = true) (Hfinite : Float.is_finite a = true)
  (Hlo : F64.leb (F64.of_Z 0) a = true)
  (Hhi : F64.ltb a two_pi = true) :
  (Z.abs (F64.scaled (NormalizeAnglePositive a) - F64.scaled a) < 2 ^ 1025 \/
   (F64.scaled (NormalizeAnglePositive a) = 0 /\
    F64.scaled two_pi - F64.scaled a < 2 ^ 1025)) /\
  ((2 ^ 1025 | F64.scaled a) ->
   F64.scaled (NormalizeAnglePositive a) = F64.scaled a).
Proof.
  pose proof (fin_of a Hvalid Hfinite) as Ha.
  destruct fin_zero64 as [Hf0 Hs0]. destruct pow2_grid as [G49 G50].
  pose proof sc_M_PI_pos as HP. pose proof sc_M_PI_bounds as HB.
  pose proof pow2_1076_2000 as Hbig. pose proof sc_two_pi as E2.
  destruct pow2_1076_1077 as [E76 E77].
  rewrite (leb_sc _ _ Hf0 Ha), Hs0 in Hlo. apply Z.leb_le in Hlo.
  rewrite (ltb_sc _ _ Ha fin_two_pi) in Hhi. apply Z.ltb_lt in Hhi.
  assert (HT : sc two_pi <> 0) by lia.
  destruct (NormalizeAnglePositive_spec a Ha) as [Hfp _].
  rewrite !scaled_sc by (assumption || exact fin_two_pi).
  unfold NormalizeAnglePositive in *.
  destruct (fmod_spec a two_pi Ha fin_two_pi HT) as [Hf1 Hs1].
  rewrite Z.rem_small in Hs1 by lia.
  set (r1 := F64.fmod a two_pi) in *.
  pose proof (SFadd_sum F64.prec F64.emax Hprec r1 two_pi Hf1 fin_two_pi)
    as Hsum.
  fold (F64.add r1 two_pi) in Hsum. rewrite Hs1 in Hsum.
  assert (Hdig : Zdigits2 (sc a + sc two_pi) <= F64.prec + -49 - emin).
  { replace (F64.prec + -49 - emin) with 1078 by reflexivity.
    apply Zdigits2_le; lia. }
  assert (HU : (2 ^ (-49 - emin) | 2 * sc two_pi))
    by (apply Z.divide_mul_r; exact sc_two_pi_grid).
  destruct (sum_rounded_between _ _ (-49) (sc two_pi) (2 * sc two_pi) Hsum
              ltac:(lia) ltac:(lia) ltac:(vm_compute; discriminate) Hdig
              sc_two_pi_grid HU ltac:(lia))
    as (Hf2 & Hr2 & Herr & Hex & _).
  rewrite G49 in Herr, Hex.
  set (s := F64.add r1 two_pi) in *.
  destruct (fmod_spec s two_pi Hf2 fin_two_pi HT) as [_ Hs3].
  rewrite Hs3.
  destruct (Z.eq_dec (sc s) (2 * sc two_pi)) as [Etop|Ntop].
  - assert (Hz : Z.rem (sc s) (sc two_pi) = 0).
    { rewrite Etop. apply Z.rem_mul. exact HT. }
    split.
    + right. rewrite Hz. split; [reflexivity|lia].
    + intros Hdiv. exfalso.
      rewrite Hex in Etop; [lia|].
      apply Z.divide_add_r; [exact Hdiv|].
      rewrite <- G49. exact sc_two_pi_grid.
  - rewrite rem_one_turn by lia. split.
    + left. lia.
    + intros Hdiv. rewrite Hex; [lia|].
      apply Z.divide_add_r; [exact Hdiv|].
      rewrite <- G49. exact sc_two_pi_grid.
Qed.

Lemma NormalizeAnglePositive_in_range_witness :
  let a := decimal 1 10 in
  let b := decimal 5 4 in
  (F64.valid a = true /\ Float.is_finite a = true /\
   F64.leb (F64.of_Z 0) a = true /\ F64.ltb a two_pi = true /\
   Z.abs (F64.scaled (NormalizeAnglePositive a) - F64.scaled a) < 2 ^ 1025) /\
  (F64.valid b = true /\ Float.is_finite b = true /\
   F64.leb (F64.of_Z 0) b = true /\ F64.ltb b two_pi = true /\
   (2 ^ 1025 | F64.scaled b) /\
   F64.scaled (NormalizeAnglePositive b) = F64.scaled b).
Proof.
  intros a b.
  assert (Hva : F64.valid a = true) by reflexivity.
  assert (Hfa : Float.is_finite a = true) by reflexivity.
  assert (Hla : F64.leb (F64.of_Z 0) a = true) by reflexivity.
  assert (Hha : F64.ltb a two_pi = true) by reflexivity.
  assert (Hvb : F64.valid b = true) by reflexivity.
  assert (Hfb : Float.is_finite b = true) by reflexivity.
  assert (Hlb : F64.leb (F64.of_Z 0) b = true) by reflexivity.
  assert (Hhb : F64.ltb b two_pi = true) by reflexivity.
  assert (Hgb : (2 ^ 1025 | F64.scaled b)).
  { exists (F64.scaled b / 2 ^ 1025). apply Z.eqb_eq. vm_compute.
    reflexivity. }
  destruct (NormalizeAnglePositive_in_range a Hva Hfa Hla Hha)
    as ([Hnear|(Hz & _)] & _).
  - destruct (NormalizeAnglePositive_in_range b Hvb Hfb Hlb Hhb)
      as (_ & Hexact).
    split; [auto 6|]. repeat (split; [assumption|]). exact (Hexact Hgb).
  - exfalso. vm_compute in Hz. discriminate Hz.
Defined.

(** X24: an angle less than one turn below zero, above [-two_pi] and
    below zero, is normalised by the one addition of [two_pi]:
    [NormalizeAnglePositive] returns the rounded sum
    [angle + (2.0 * M_PI)], which is below [two_pi], except that it
    returns zero when the sum rounds to [two_pi] itself. *)
Theorem NormalizeAnglePositive_negative (a : spec_float)
  (Hvalid : F64.valid a = true) (Hfinite : Float.is_finite a = true)
  (Hlo : F64.ltb (F64.neg two_pi) a = true)
  (Hhi : F64.ltb a (F64.of_Z 0) = true) :
  (NormalizeAnglePositive a = F64.add a two_pi /\
   F64.ltb (F64.add a two_pi) two_pi = true) \/
  (F64.add a two_pi = two_pi /\ NormalizeAnglePositive a = F64.of_Z 0).
Proof.
  pose proof (fin_of a Hvalid Hfinite) as Ha.
  destruct fin_zero64 as [Hf0 Hs0]. destruct pow2_grid as [G49 G50].
  pose proof sc_M_PI_pos as HP. pose proof sc_M_PI_bounds as HB.
  pose proof pow2_1076_2000 as Hbig. pose proof sc_two_pi as E2.
  destruct pow2_1076_1077 as [E76 E77].
  pose proof (fin_neg two_pi fin_two_pi) as Hfn.
  rewrite (ltb_sc _ _ Hfn Ha), sc_neg in Hlo. apply Z.ltb_lt in Hlo.
  rewrite (ltb_sc _ _ Ha Hf0), Hs0 in Hhi. apply Z.ltb_lt in Hhi.
  assert (HT : sc two_pi <> 0) by lia.
  (* the first remainder is the angle *)
  destruct (fmod_spec a two_pi Ha fin_two_pi HT) as [Hf1 Hs1].
  assert (Hrem : Z.rem (sc a) (sc two_pi) = sc a).
  { replace (sc a) with (- - sc a) by lia.
    rewrite Z.rem_opp_l by exact HT. rewrite Z.rem_small; lia. }
  rewrite Hrem in Hs1.
  assert (E1 : F64.fmod a two_pi = a)
    by (apply fin_sc_inj; trivial; lia).
  unfold NormalizeAnglePositive. rewrite E1.
  (* the sum *)
  pose proof (SFadd_sum F64.prec F64.emax Hprec a two_pi Ha fin_two_pi)
    as Hsum.
  fold (F64.add a two_pi) in Hsum.
  assert (Hdig : Zdigits2 (sc a + sc two_pi) <= F64.prec + -50 - emin).
  { replace (F64.prec + -50 - emin) with 1077 by reflexivity.
    apply Zdigits2_le; lia. }
  assert (HU : (2 ^ (-50 - emin) | sc two_pi)).
  { apply Z.divide_trans with (2 ^ (-49 - emin)); [|exact sc_two_pi_grid].
    exists 2. reflexivity. }
  destruct (sum_rounded_between _ _ (-50) 0 (sc two_pi) Hsum
              ltac:(lia) ltac:(lia) ltac:(vm_compute; discriminate) Hdig
              (Z.divide_0_r _) HU ltac:(lia))
    as (Hf2 & Hr2 & _ & _ & Hshape).
  set (s := F64.add a two_pi) in *.
  destruct (Z.eq_dec (sc s) (sc two_pi)) as [Etop|Ntop].
  - right.
    assert (Es : s = two_pi) by (apply fin_sc_inj; trivial; try lia;
                                 exact fin_two_pi).
    split; [exact Es|]. rewrite Es, two_pi_eq. vm_compute. reflexivity.
  - left. split.
    + destruct Hshape as [Hz|(m & e & Hs)].
      * rewrite Hz, two_pi_eq. reflexivity.
      * destruct (fmod_spec s two_pi Hf2 fin_two_pi HT) as [Hf3 Hs3].
        rewrite Z.rem_small in Hs3 by lia.
        apply fin_sc_inj; trivial.
        rewrite Hs3. rewrite Hs in *.
        pose proof (fin_exponent F64.prec F64.emax Hprec _ _ _ Hf2) as He.
        destruct (sc_finite_sign F64.prec F64.emax Hprec false m e He)
          as (_ & Hnz & _).
        exact Hnz.
    + rewrite (ltb_sc _ _ Hf2 fin_two_pi). apply Z.ltb_lt. lia.
Qed.

Lemma NormalizeAnglePositive_negative_witness :
  let a := decimal (-1) 2 in
  F64.valid a = true /\ Float.is_finite a = true /\
  F64.ltb (F64.neg two_pi) a = true /\ F64.ltb a (F64.of_Z 0) = true /\
  NormalizeAnglePositive a = F64.add a two_pi.
Proof.
  intros a.
  assert (Hv : F64.valid a = true) by reflexivity.
  assert (Hf : Float.is_finite a = true) by reflexivity.
  assert (Hl : F64.ltb (F64.neg two_pi) a = true) by reflexivity.
  assert (Hh : F64.ltb a (F64.of_Z 0) = true) by reflexivity.
  repeat (split; [assumption|]).
  destruct (NormalizeAnglePositive_negative a Hv Hf Hl Hh)
    as [(He & _)|(Htop & _)].
  - exact He.
  - exfalso. vm_compute in Htop. discriminate Htop.
Defined.

End AngleLaws.
